(** * UK-law-mcp: citation grammar, markup flattener, tree walker,
      feed-index reader and search-query normaliser.

    A shallow embedding of
      - the citation grammar ([parseCitation], [parseSection]), the
        formatter ([formatCitation], [buildPinpoint]) and the validator
        ([validateCitation]) under src/citation and src/types,
      - src/utils/fts-query.ts ([buildFtsQueryVariants]),
      - the ingestion parser under scripts/lib ([parseAtomFeed],
        [flattenInlineElements], [parseAknXml] and the tree walker),
      - the discovery loop of scripts/ingest.ts ([discoverActs]),
    together with the part of the ECMAScript built-ins these files rely on
    (backtracking regular expressions, [String.prototype.match], [replace],
    [split], [trim], [parseInt], template literals). *)

From Stdlib Require Import String Ascii NArith ZArith Bool Arith Lia List.
From Stdlib Require DecimalN.
Import ListNotations.

Set Implicit Arguments.
Set Warnings "-register-all".

(** ** ECMAScript strings

    A JavaScript string is a sequence of UTF-16 code units. *)

Module JS.

Local Open Scope N_scope.

Definition char := N.
Definition jsstring := list char.

(** String literals of the source are written as Rocq strings (ASCII only). *)
Definition str (s : string) : jsstring :=
  map N_of_ascii (list_ascii_of_string s).

Definition chr (a : ascii) : char := N_of_ascii a.

(** The double quote, U+0022. *)
Definition dquote : char := 34.

Fixpoint streq (a b : jsstring) : bool :=
  match a, b with
  | [], [] => true
  | x :: a', y :: b' => N.eqb x y && streq a' b'
  | _, _ => false
  end.

Definition in_range (lo hi c : char) : bool := (N.leb lo c && N.leb c hi)%bool.

Definition isDigit (c : char) : bool := in_range 48 57 c.
Definition isUpperAZ (c : char) : bool := in_range 65 90 c.
Definition isLowerAZ (c : char) : bool := in_range 97 122 c.

(** [\w] : [A-Za-z0-9_]. *)
Definition isWordChar (c : char) : bool :=
  (isDigit c || isUpperAZ c || isLowerAZ c || N.eqb c 95)%bool.

(** LineTerminator : LF, CR, LS, PS. *)
Definition isLineTerminator (c : char) : bool :=
  (N.eqb c 10 || N.eqb c 13 || N.eqb c 8232 || N.eqb c 8233)%bool.

(** WhiteSpace and LineTerminator code units: the set used by [\s] and by
    [String.prototype.trim]. *)
Definition isWhiteSpace (c : char) : bool :=
  (in_range 9 13 c || N.eqb c 32 || N.eqb c 160 || N.eqb c 5760
   || in_range 8192 8202 c || N.eqb c 8232 || N.eqb c 8233
   || N.eqb c 8239 || N.eqb c 8287 || N.eqb c 12288 || N.eqb c 65279)%bool.

Fixpoint trimStart (s : jsstring) : jsstring :=
  match s with
  | c :: tl => if isWhiteSpace c then trimStart tl else s
  | [] => []
  end.

Definition trimEnd (s : jsstring) : jsstring := rev (trimStart (rev s)).

Definition trim (s : jsstring) : jsstring := trimEnd (trimStart s).

Fixpoint startsWith (p s : jsstring) : bool :=
  match p, s with
  | [], _ => true
  | x :: p', y :: s' => N.eqb x y && startsWith p' s'
  | _ :: _, [] => false
  end.

(** [Array.prototype.join] on an array of strings. *)
Fixpoint join (sep : jsstring) (l : list jsstring) : jsstring :=
  match l with
  | [] => []
  | [x] => x
  | x :: tl => x ++ sep ++ join sep tl
  end.

(** *** Numbers

    The numbers that occur here are parsed integers and NaN; a double that
    is neither is outside this model. *)

Inductive number :=
| NaN
| Num (z : Z).

Definition digitChar (d : N) : char := (48 + d)%N.

Fixpoint uintChars (u : Decimal.uint) : jsstring :=
  match u with
  | Decimal.Nil => []
  | Decimal.D0 u' => digitChar 0 :: uintChars u'
  | Decimal.D1 u' => digitChar 1 :: uintChars u'
  | Decimal.D2 u' => digitChar 2 :: uintChars u'
  | Decimal.D3 u' => digitChar 3 :: uintChars u'
  | Decimal.D4 u' => digitChar 4 :: uintChars u'
  | Decimal.D5 u' => digitChar 5 :: uintChars u'
  | Decimal.D6 u' => digitChar 6 :: uintChars u'
  | Decimal.D7 u' => digitChar 7 :: uintChars u'
  | Decimal.D8 u' => digitChar 8 :: uintChars u'
  | Decimal.D9 u' => digitChar 9 :: uintChars u'
  end.

Definition natToString (n : N) : jsstring := uintChars (N.to_uint n).

(** [String(n)] / [`${n}`] for a number. *)
Definition numberToString (n : number) : jsstring :=
  match n with
  | NaN => str "NaN"
  | Num z =>
      match z with
      | Zneg p => chr "-" :: natToString (Npos p)
      | _ => natToString (Z.to_N z)
      end
  end.

Fixpoint digitsValue (acc : N) (s : jsstring) : N :=
  match s with
  | c :: tl => digitsValue (10 * acc + (c - 48)) tl
  | [] => acc
  end.

Fixpoint takeWhile (p : char -> bool) (s : jsstring) : jsstring :=
  match s with
  | c :: tl => if p c then c :: takeWhile p tl else []
  | [] => []
  end.

(** [parseInt(s, 10)]: leading white space is skipped, an optional sign is
    read, then the longest prefix of decimal digits; NaN when it is empty. *)
Definition parseInt (s : jsstring) : number :=
  let t := trimStart s in
  let '(neg, body) :=
    match t with
    | c :: tl =>
        if N.eqb c 45 then (true, tl)
        else if N.eqb c 43 then (false, tl) else (false, t)
    | [] => (false, t)
    end in
  match takeWhile isDigit body with
  | [] => NaN
  | ds => let v := Z.of_N (digitsValue 0 ds) in
          Num (if neg then Z.opp v else v)
  end.

End JS.

Import JS.

(** ** Backtracking regular expressions

    The matcher follows the ECMAScript specification: a pattern is compiled
    to a function from a state and a continuation to a match result, and
    alternatives are tried in priority order.  The state is a zipper over
    the input (the code units before the current index, reversed, and those
    after it) with the captures recorded so far. *)

Module Regex.

Inductive regex :=
| Eps
| Chr (p : char -> bool)
| Seq (a b : regex)
| Alt (a b : regex)
| Star (greedy : bool) (a : regex)
| Group (i : nat) (a : regex)
| Bol
| Eol
| WordB.

Record mstate := MState {
  before : jsstring;               (* consumed input, most recent first *)
  rest : jsstring;                 (* input from the current index on  *)
  caps : list (nat * jsstring)     (* captures, most recent first      *)
}.

Definition cont := mstate -> option mstate.

Definition orelse (a : option mstate) (b : unit -> option mstate) : option mstate :=
  match a with
  | Some x => Some x
  | None => b tt
  end.

Definition isWordAt (s : jsstring) : bool :=
  match s with
  | c :: _ => isWordChar c
  | [] => false
  end.

(** RepeatMatcher for [min = 0], [max = infinity]: an iteration that
    consumes nothing fails.  [n] bounds the number of iterations by the
    length of the remaining input plus one, which that check makes
    unreachable. *)
Fixpoint star_loop (ma : mstate -> cont -> option mstate) (g : bool) (k : cont)
    (n : nat) (s : mstate) {struct n} : option mstate :=
  match n with
  | O => k s
  | S n' =>
      let again (s' : mstate) :=
        if length (rest s') <? length (rest s) then star_loop ma g k n' s'
        else None in
      if g then orelse (ma s again) (fun _ => k s)
      else orelse (k s) (fun _ => ma s again)
  end.

Fixpoint m (r : regex) (s : mstate) (k : cont) {struct r} : option mstate :=
  match r with
  | Eps => k s
  | Chr p =>
      match rest s with
      | c :: tl => if p c then k (MState (c :: before s) tl (caps s)) else None
      | [] => None
      end
  | Seq a b => m a s (fun s' => m b s' k)
  | Alt a b => orelse (m a s k) (fun _ => m b s k)
  | Star g a => star_loop (m a) g k (S (length (rest s))) s
  | Group i a =>
      m a s (fun s' =>
        k (MState (before s') (rest s')
             ((i, firstn (length (rest s) - length (rest s')) (rest s)) :: caps s')))
  | Bol => match before s with [] => k s | _ :: _ => None end
  | Eol => match rest s with [] => k s | _ :: _ => None end
  | WordB =>
      if xorb (isWordAt (before s)) (isWordAt (rest s)) then k s else None
  end.

(** Derived forms. *)
Definition Opt (a : regex) : regex := Alt a Eps.          (* a?  *)
Definition Plus (a : regex) : regex := Seq a (Star true a). (* a+  *)
Definition Rep4 (a : regex) : regex := Seq a (Seq a (Seq a a)). (* a{4} *)

Definition Lit1 (c : ascii) : regex := Chr (N.eqb (chr c)).

(** ASCII case folding.  Without the [u] flag, Canonicalize never maps a
    code unit above 127 to one below 128, so for the ASCII letters of the
    patterns below case-insensitive matching is ASCII case folding. *)
Definition upperAscii (c : char) : char :=
  if isLowerAZ c then (c - 32)%N else c.

Definition Lit1i (c : ascii) : regex :=
  Chr (fun x => N.eqb (upperAscii x) (upperAscii (chr c))).

Fixpoint LitWith (one : ascii -> regex) (s : string) : regex :=
  match s with
  | EmptyString => Eps
  | String c EmptyString => one c
  | String c tl => Seq (one c) (LitWith one tl)
  end.

Definition Lit := LitWith Lit1.
Definition Liti := LitWith Lit1i.

Fixpoint SeqL (l : list regex) : regex :=
  match l with
  | [] => Eps
  | [r] => r
  | r :: tl => Seq r (SeqL tl)
  end.

Fixpoint AltL (l : list regex) : regex :=
  match l with
  | [] => Eps
  | [r] => r
  | r :: tl => Alt r (AltL tl)
  end.

Definition lookupCap (i : nat) (cs : list (nat * jsstring)) : option jsstring :=
  match find (fun p => Nat.eqb (fst p) i) cs with
  | Some p => Some (snd p)
  | None => None
  end.

(** The result of a successful match: where it starts, the state at its
    end. *)
Record mresult := MResult {
  m_before : jsstring;    (* input before the match, reversed *)
  m_input : jsstring;     (* input from the start of the match on *)
  m_end : mstate
}.

Definition matched (x : mresult) : jsstring :=
  firstn (length (m_input x) - length (rest (m_end x))) (m_input x).

Definition group (i : nat) (x : mresult) : option jsstring :=
  lookupCap i (caps (m_end x)).

(** Match at exactly the current index. *)
Definition matchAt (r : regex) (pre rst : jsstring) : option mresult :=
  match m r (MState pre rst []) (fun e => Some e) with
  | Some e => Some (MResult pre rst e)
  | None => None
  end.

(** RegExpBuiltinExec without [g] and [y]: the first index from [pre] on
    at which the pattern matches. *)
Fixpoint search (r : regex) (pre rst : jsstring) {struct rst} : option mresult :=
  match matchAt r pre rst with
  | Some x => Some x
  | None =>
      match rst with
      | [] => None
      | c :: tl => search r (c :: pre) tl
      end
  end.

(** [s.match(r)] and [r.test(s)] for a pattern without the [g] flag. *)
Definition exec (r : regex) (s : jsstring) : option mresult := search r [] s.

Definition test (r : regex) (s : jsstring) : bool :=
  match exec r s with Some _ => true | None => false end.

(** [s.replace(r, f)] for a pattern with the [g] flag; [f] builds the
    replacement from the match.  [skip] counts the code units of the input
    that still belong to the previous match.  After an empty match the
    index advances by one. *)
Fixpoint replace_from (r : regex) (f : mresult -> jsstring)
    (pre rst : jsstring) (skip : nat) {struct rst} : jsstring :=
  match skip with
  | S k =>
      match rst with
      | [] => []
      | c :: tl => replace_from r f (c :: pre) tl k
      end
  | O =>
      match matchAt r pre rst with
      | Some x =>
          f x ++
          match rst with
          | [] => []
          | c :: tl =>
              match length (matched x) with
              | O => c :: replace_from r f (c :: pre) tl 0
              | S k => replace_from r f (c :: pre) tl k
              end
          end
      | None =>
          match rst with
          | [] => []
          | c :: tl => c :: replace_from r f (c :: pre) tl 0
          end
      end
  end.

Definition replaceAll (r : regex) (f : mresult -> jsstring) (s : jsstring) : jsstring :=
  replace_from r f [] s 0.

(** [s.split(r)] without a limit, for a pattern without captures.  [cur] is
    the piece being collected, reversed; an empty match directly after the
    previous split point does not split. *)
Fixpoint split_from (r : regex) (pre rst cur : jsstring) (skip : nat)
    {struct rst} : list jsstring :=
  match rst with
  | [] => [rev cur]
  | c :: tl =>
      match skip with
      | S k => split_from r (c :: pre) tl cur k
      | O =>
          match matchAt r pre rst with
          | Some x =>
              match length (matched x), cur with
              | O, [] => split_from r (c :: pre) tl [c] 0
              | O, _ :: _ => rev cur :: split_from r (c :: pre) tl [c] 0
              | S k, _ => rev cur :: split_from r (c :: pre) tl [] k
              end
          | None => split_from r (c :: pre) tl (c :: cur) 0
          end
      end
  end.

Definition split (r : regex) (s : jsstring) : list jsstring :=
  match s with
  | [] => match matchAt r [] [] with Some _ => [] | None => [[]] end
  | _ => split_from r [] s [] 0
  end.

End Regex.

Import Regex.

(** Character sets shared by the patterns of the sources. *)
Definition ws : regex := Chr isWhiteSpace.                       (* \s *)
Definition digit : regex := Chr isDigit.                         (* \d *)
Definition dot : regex := Chr (fun c => negb (isLineTerminator c)). (* .  *)
Definition anyChar : regex := Chr (fun _ => true).               (* [\s\S] *)

(** A capture that takes part in every match of its pattern. *)
Definition capture (i : nat) (x : mresult) : jsstring :=
  match group i x with
  | Some s => s
  | None => []
  end.

(** [v || undefined] for an optional capture. *)
Definition orUndefined (v : option jsstring) : option jsstring :=
  match v with
  | Some (c :: tl) => Some (c :: tl)
  | _ => None
  end.

(** Truthiness of an optional string. *)
Definition truthy (v : option jsstring) : bool :=
  match v with
  | Some (_ :: _) => true
  | _ => false
  end.

(** [`${v}`] for an optional string. *)
Definition showOpt (v : option jsstring) : jsstring :=
  match v with
  | Some s => s
  | None => str "undefined"
  end.

(** ** Citation types *)

Inductive CitationFormat := full | short | pinpoint.

Inductive CitationType := statute | statutory_instrument | unknown.

Record ParsedCitation := {
  valid : bool;
  type : CitationType;
  title : option jsstring;
  year : option number;
  section : option jsstring;
  subsection : option jsstring;
  paragraph : option jsstring;
  error : option jsstring
}.

(** ** The citation grammar: [parseCitation] *)

(** The section token of both surface forms: digits, then any number of
    parenthesised digit groups, then any number of parenthesised letters;
    [az] is the set of the class a-z under the flags of the pattern. *)
Definition sectionToken (az : char -> bool) : regex :=
  SeqL [ Plus digit;                                        (* \d+          *)
         Star true (SeqL [Lit1 "("; Plus digit; Lit1 ")"]); (* (?:\(\d+\))* *)
         Star true (SeqL [Lit1 "("; Chr az; Lit1 ")"]) ].   (* (?:\([a-z]\))* *)

(** FULL_CITATION (flag i): "Section 3, Data Protection Act 2018". *)
Definition FULL_CITATION : regex :=
  SeqL [ Bol;                                                      (* ^ *)
         Alt (Liti "Section") (Seq (Lit1i "s") (Opt (Lit1 "."))); (* (?:Section|s\.?) *)
         Plus ws;                                                  (* \s+ *)
         Group 1 (sectionToken (fun c => isLowerAZ c || isUpperAZ c));
         Star true ws;                                             (* \s* *)
         Opt (Lit1 ",");                                           (* ,? *)
         Plus ws;                                                  (* \s+ *)
         Group 2 (Seq dot (Star false dot));                       (* (.+?) *)
         Plus ws;                                                  (* \s+ *)
         Group 3 (Rep4 digit);                                     (* (\d{4}) *)
         Eol ].                                                    (* $ *)

(** SHORT_CITATION (no flag): "s. 3 DPA 2018". *)
Definition SHORT_CITATION : regex :=
  SeqL [ Bol;                                   (* ^ *)
         Lit1 "s"; Opt (Lit1 ".");              (* s\.? *)
         Plus ws;                               (* \s+ *)
         Group 1 (sectionToken isLowerAZ);
         Plus ws;                               (* \s+ *)
         Group 2 (Seq (Chr isUpperAZ)           (* ([A-Z][A-Z0-9&\s]*?) *)
                      (Star false
                         (Chr (fun c => isUpperAZ c || isDigit c
                                        || N.eqb c (chr "&") || isWhiteSpace c))));
         Plus ws;                               (* \s+ *)
         Group 3 (Rep4 digit);                  (* (\d{4}) *)
         Eol ].                                 (* $ *)

(** SECTION_REF: "3(1)(a)". *)
Definition SECTION_REF : regex :=
  SeqL [ Bol;                                                   (* ^ *)
         Group 1 (Plus digit);                                  (* (\d+) *)
         Opt (SeqL [Lit1 "("; Group 2 (Plus digit); Lit1 ")"]); (* (?:\((\d+)\))? *)
         Opt (SeqL [Lit1 "("; Group 3 (Chr isLowerAZ); Lit1 ")"]); (* (?:\(([a-z])\))? *)
         Eol ].                                                 (* $ *)

Definition parseSection (sectionStr title : jsstring) (year : number)
    (type : CitationType) : ParsedCitation :=
  match exec SECTION_REF sectionStr with
  | None =>
      {| valid := true; type := type; title := Some (trim title);
         year := Some year; section := Some sectionStr;
         subsection := None; paragraph := None; error := None |}
  | Some sectionMatch =>
      {| valid := true; type := type; title := Some (trim title);
         year := Some year;
         section := Some (capture 1 sectionMatch);
         subsection := orUndefined (group 2 sectionMatch);
         paragraph := orUndefined (group 3 sectionMatch);
         error := None |}
  end.

Definition parseCitation (citation : jsstring) : ParsedCitation :=
  let trimmed := trim citation in
  match exec FULL_CITATION trimmed with
  | Some mt =>
      parseSection (capture 1 mt) (capture 2 mt) (parseInt (capture 3 mt)) statute
  | None =>
      match exec SHORT_CITATION trimmed with
      | Some mt =>
          parseSection (capture 1 mt) (capture 2 mt) (parseInt (capture 3 mt)) statute
      | None =>
          {| valid := false; type := unknown; title := None; year := None;
             section := None; subsection := None; paragraph := None;
             error := Some (str "Could not parse UK citation: " ++ [dquote]
                            ++ trimmed ++ [dquote]) |}
      end
  end.

(** ** The formatter: [formatCitation] *)

Definition buildPinpoint (parsed : ParsedCitation) : jsstring :=
  let ref := match section parsed with Some s => s | None => [] end in
  let ref :=
    if truthy (subsection parsed)
    then ref ++ str "(" ++ showOpt (subsection parsed) ++ str ")" else ref in
  let ref :=
    if truthy (paragraph parsed)
    then ref ++ str "(" ++ showOpt (paragraph parsed) ++ str ")" else ref in
  ref.

Definition titleOrEmpty (parsed : ParsedCitation) : jsstring :=
  match title parsed with Some t => t | None => [] end.

Definition yearOrEmpty (parsed : ParsedCitation) : jsstring :=
  match year parsed with Some y => numberToString y | None => [] end.

Definition formatCitation (parsed : ParsedCitation) (format : CitationFormat) : jsstring :=
  if negb (valid parsed) || negb (truthy (section parsed)) then []
  else
    let pinpoint := buildPinpoint parsed in
    match format with
    | full =>
        trim (str "Section " ++ pinpoint ++ str ", " ++ titleOrEmpty parsed
              ++ str " " ++ yearOrEmpty parsed)
    | short =>
        trim (str "s. " ++ pinpoint ++ str " " ++ titleOrEmpty parsed
              ++ str " " ++ yearOrEmpty parsed)
    | pinpoint => str "s. " ++ pinpoint
    end.

(** ** The validator: [validateCitation] *)

Record ValidationResult := {
  citation : ParsedCitation;
  document_exists : bool;
  provision_exists : bool;
  document_title : option jsstring;
  status : option jsstring;
  warnings : list jsstring
}.

(** A row of [legal_documents] as the validator selects it. *)
Record DocumentRow := {
  doc_id : jsstring;
  doc_title : jsstring;
  doc_status : jsstring
}.

(** The provision store as the validator uses it: its two prepared
    statements, each run with [get].
    - [selectDocument p]: "SELECT id, title, status FROM legal_documents
      WHERE title LIKE ? LIMIT 1" bound to [p];
    - [selectProvision d s]: whether "SELECT 1 FROM legal_provisions WHERE
      document_id = ? AND section = ?" bound to [d], [s] returns a row. *)
Record Database := {
  selectDocument : jsstring -> option DocumentRow;
  selectProvision : jsstring -> jsstring -> bool
}.

(** [`${y}`] for an optional number. *)
Definition showYear (y : option number) : jsstring :=
  match y with
  | Some n => numberToString n
  | None => str "undefined"
  end.

(** [`%${parsed.title}%${parsed.year ?? ''}%`] *)
Definition titleLikePattern (parsed : ParsedCitation) : jsstring :=
  str "%" ++ showOpt (title parsed) ++ str "%" ++ yearOrEmpty parsed ++ str "%".

(** [`Document "${parsed.title} ${parsed.year}" not found in database`] *)
Definition notFoundWarning (parsed : ParsedCitation) : jsstring :=
  str "Document " ++ [dquote] ++ showOpt (title parsed) ++ str " "
  ++ showYear (year parsed) ++ [dquote] ++ str " not found in database".

Definition validateCitation (db : Database) (citation : jsstring) : ValidationResult :=
  let parsed := parseCitation citation in
  let warnings : list jsstring := [] in
  if negb (valid parsed) then
    {| citation := parsed; document_exists := false; provision_exists := false;
       document_title := None; status := None;
       warnings := [match error parsed with
                    | Some e => e
                    | None => str "Invalid citation format"
                    end] |}
  else
    match selectDocument db (titleLikePattern parsed) with
    | None =>
        {| citation := parsed; document_exists := false; provision_exists := false;
           document_title := None; status := None;
           warnings := [notFoundWarning parsed] |}
    | Some doc =>
        let warnings :=
          if streq (doc_status doc) (str "repealed")
          then warnings ++ [str "This statute has been repealed"] else warnings in
        let '(provisionExists, warnings) :=
          if truthy (section parsed) then
            let provisionExists :=
              selectProvision db (doc_id doc) (showOpt (section parsed)) in
            (provisionExists,
             if negb provisionExists
             then warnings ++ [str "Section " ++ showOpt (section parsed)
                               ++ str " not found in " ++ doc_title doc]
             else warnings)
          else (false, warnings) in
        {| citation := parsed; document_exists := true;
           provision_exists := provisionExists;
           document_title := Some (doc_title doc);
           status := Some (doc_status doc);
           warnings := warnings |}
    end.

(** ** src/utils/fts-query.ts *)

Definition isQuote (c : char) : bool :=
  N.eqb c dquote || N.eqb c dquote || N.eqb c dquote.

(** EXPLICIT_FTS_SYNTAX: a double quote, one of the words AND, OR, NOT, or
    a final star. *)
Definition EXPLICIT_FTS_SYNTAX : regex :=
  AltL [ Chr isQuote;
         Group 1 (SeqL [WordB; Lit "AND"; WordB]);
         Group 2 (SeqL [WordB; Lit "OR"; WordB]);
         Group 3 (SeqL [WordB; Lit "NOT"; WordB]);
         Seq (Lit1 "*") Eol ].

Record FtsQueryVariants := {
  primary : jsstring;
  fallback : option jsstring
}.

(** The class of the token clean-up: not a word character, white space or
    hyphen. *)
Definition notWordSpaceHyphen (c : char) : bool :=
  negb (isWordChar c || isWhiteSpace c || N.eqb c (chr "-")).

Definition nonEmpty (t : jsstring) : bool :=
  match t with [] => false | _ :: _ => true end.

Definition buildFtsQueryVariants (query : jsstring) : FtsQueryVariants :=
  let trimmed := trim query in
  if test EXPLICIT_FTS_SYNTAX trimmed then
    {| primary := trimmed; fallback := None |}
  else
    let tokens :=
      map (fun t => replaceAll (Chr notWordSpaceHyphen) (fun _ => []) t)
          (filter nonEmpty (split (Plus ws) trimmed)) in
    match tokens with
    | [] => {| primary := trimmed; fallback := None |}
    | _ :: _ =>
        {| primary := join (str " ") (map (fun t => [dquote] ++ t ++ [dquote] ++ str "*") tokens);
           fallback := Some (join (str " OR ") (map (fun t => t ++ str "*") tokens)) |}
    end.

(** ** Ingestion parser: the mixed-content flattener *)

Definition notGt (c : char) : bool := negb (N.eqb c (chr ">")).

(** A self-closing element with one of the given names: the name, a word
    boundary, any code units but the closing angle bracket, then the two
    closing code units. *)
Definition selfClosing (names : list string) : regex :=
  SeqL [ Lit1 "<"; AltL (map Lit names); WordB; Star true (Chr notGt); Lit "/>" ].

Definition pairedNames : list string := ["ins"; "del"; "ref"; "authorialNote"]%string.

(** An opening tag of a paired inline element, its content (lazy, captured)
    and the next closing tag of any paired inline element. *)
Definition PAIRED : regex :=
  SeqL [ Lit1 "<"; AltL (map Lit pairedNames); WordB; Star true (Chr notGt); Lit1 ">";
         Group 1 (Star false anyChar);
         Lit "</"; AltL (map Lit pairedNames); Lit1 ">" ].

Definition flattenInlineElements (xml : jsstring) : jsstring :=
  let s1 := replaceAll (selfClosing ["noteRef"; "marker"; "ref"]%string) (fun _ => []) xml in
  let s2 := replaceAll PAIRED (fun x => capture 1 x) s1 in
  replaceAll (selfClosing ["noteRef"]%string) (fun _ => []) s2.

(** ** Values produced by the XML parser

    [fast-xml-parser] returns plain JavaScript values: strings, numbers,
    booleans, arrays and objects.  An object is its list of own properties
    in insertion order, which [Object.keys] and [Object.entries] observe;
    keys are unique and a property is looked up by its first occurrence. *)

Inductive jsval :=
| JUndefined
| JNull
| JBool (b : bool)
| JNum (n : number)
| JStr (s : jsstring)
| JArr (items : list jsval)
| JObj (fields : list (jsstring * jsval)).

Definition isTruthy (v : jsval) : bool :=
  match v with
  | JUndefined | JNull => false
  | JBool b => b
  | JNum NaN => false
  | JNum (Num z) => negb (Z.eqb z 0)
  | JStr s => nonEmpty s
  | JArr _ | JObj _ => true
  end.

(** [v && typeof v === 'object']. *)
Definition isObject (v : jsval) : bool :=
  match v with
  | JArr _ | JObj _ => true
  | _ => false
  end.

Fixpoint lookupField (key : jsstring) (fs : list (jsstring * jsval)) : jsval :=
  match fs with
  | [] => JUndefined
  | (k, v) :: tl => if streq k key then v else lookupField key tl
  end.

(** [v[key]] for the element and attribute names read by the sources; none
    of them is an own property of an array or of a primitive. *)
Definition getProp (v : jsval) (key : string) : jsval :=
  match v with
  | JObj fs => lookupField (str key) fs
  | _ => JUndefined
  end.

(** [a ?? b]. *)
Definition nullish (a b : jsval) : jsval :=
  match a with
  | JUndefined | JNull => b
  | _ => a
  end.

(** [Array.isArray(v) ? v : [v]]. *)
Definition asList (v : jsval) : list jsval :=
  match v with
  | JArr l => l
  | _ => [v]
  end.

(** The value of an attribute, [(v as string) ?? '']: the parser is
    configured with [parseAttributeValue: false], so an attribute that is
    present is a string. *)
Definition attrString (v : jsval) : jsstring :=
  match v with
  | JStr s => s
  | _ => []
  end.

(** [String(v)]. *)
Fixpoint toString (v : jsval) : jsstring :=
  match v with
  | JUndefined => str "undefined"
  | JNull => str "null"
  | JBool true => str "true"
  | JBool false => str "false"
  | JNum n => numberToString n
  | JStr s => s
  | JArr l =>
      join (str ",")
           (map (fun x => match x with
                          | JUndefined | JNull => []
                          | _ => toString x
                          end) l)
  | JObj _ => str "[object Object]"
  end.

Definition firstTruthy (l : list (option jsstring)) : option jsstring :=
  match filter truthy l with
  | x :: _ => x
  | [] => None
  end.

Definition hasField (key : string) (fs : list (jsstring * jsval)) : bool :=
  existsb (fun kv => streq (fst kv) (str key)) fs.

Fixpoint extractText (node : jsval) : option jsstring :=
  match node with
  | JStr s => Some s
  | JNum n => Some (numberToString n)
  | JArr l => firstTruthy (map extractText l)
  | JObj fs =>
      if hasField "#text" fs then Some (toString (lookupField (str "#text") fs))
      else
        firstTruthy
          (map (fun kv => if startsWith (str "@_") (fst kv) then None
                          else extractText (snd kv)) fs)
  | _ => None
  end.

Definition strictEq (v : jsval) (s : string) : bool :=
  match v with
  | JStr x => streq x (str s)
  | _ => false
  end.

Definition extractLink (link : jsval) : jsstring :=
  if negb (isTruthy link) then []
  else
    match link with
    | JArr l =>
        match find (fun l0 => strictEq (getProp l0 "@_rel") "self"
                              || strictEq (getProp l0 "@_rel") "alternate") l with
        | Some l0 => attrString (getProp l0 "@_href")
        | None =>
            match l with
            | l0 :: _ => attrString (getProp l0 "@_href")
            | [] => []
            end
        end
    | JObj _ => attrString (getProp link "@_href")
    | _ => []
    end.

(** ** Ingestion parser: the feed-index reader *)

Record ActIndexEntry := {
  entry_title : jsstring;
  entry_year : number;
  entry_number : number;
  entry_url : jsstring;
  entry_updated : jsstring
}.

Record AtomFeedResult := {
  entries : list ActIndexEntry;
  hasNextPage : bool;
  totalResults : option number
}.

(** The pattern of an act address: "/ukpga/", four digits, "/", digits. *)
Definition UKPGA_URL : regex :=
  SeqL [ Lit "/ukpga/"; Group 1 (Rep4 digit); Lit1 "/"; Group 2 (Plus digit) ].

Definition collapseSpaces (s : jsstring) : jsstring :=
  replaceAll (Plus ws) (fun _ => str " ") s.

(** One turn of the loop over the entries: the entry to push, if any. *)
Definition readEntry (entry : jsval) : option ActIndexEntry :=
  if negb (isTruthy entry) then None
  else
    let title := extractText (getProp entry "title") in
    if negb (truthy title) then None
    else
      let id := match extractText (getProp entry "id") with
                | Some i => i
                | None => []
                end in
      let link := extractLink (getProp entry "link") in
      let url := if nonEmpty link then link else id in
      match exec UKPGA_URL url with
      | None => None
      | Some mt =>
          let year := parseInt (capture 1 mt) in
          let number := parseInt (capture 2 mt) in
          Some {| entry_title := trim (collapseSpaces (showOpt title));
                  entry_year := year;
                  entry_number := number;
                  entry_url := str "https://www.legislation.gov.uk/ukpga/"
                               ++ numberToString year ++ str "/"
                               ++ numberToString number;
                  entry_updated :=
                    match extractText (getProp entry "updated") with
                    | Some u => u
                    | None => []
                    end |}
      end.

Section Parser.

(** [parser.parse] of fast-xml-parser, configured as in the source. *)
Variable xmlParse : jsstring -> jsval.

Definition parseAtomFeed (xml : jsstring) : AtomFeedResult :=
  let parsed := xmlParse xml in
  let feed := nullish (getProp parsed "feed") parsed in
  let rawEntries := nullish (getProp feed "entry") (JArr []) in
  let entryList := asList rawEntries in
  let entries :=
    fold_left (fun entries entry =>
                 match readEntry entry with
                 | Some e => entries ++ [e]
                 | None => entries
                 end) entryList [] in
  let links := getProp feed "link" in
  let hasNextPage :=
    match links with
    | JArr l => existsb (fun l0 => strictEq (getProp l0 "@_rel") "next") l
    | _ => false
    end in
  let totalResults :=
    if isTruthy (getProp feed "openSearch:totalResults")
    then Some (parseInt
                 (match extractText (getProp feed "openSearch:totalResults") with
                  | Some t => t
                  | None => str "0"
                  end))
    else None in
  let hasNextPage :=
    match entries with
    | [] => false
    | _ :: _ => hasNextPage
    end in
  {| entries := entries; hasNextPage := hasNextPage; totalResults := totalResults |}.

End Parser.

(** ** Ingestion parser: the tree walker *)

Record ParsedProvision := {
  provision_ref : jsstring;
  prov_section : jsstring;
  prov_title : jsstring;
  content : jsstring
}.

(** The two identifier patterns of [buildProvisionRef]; neither is anchored
    at the start. *)
Definition SECTION_EID : regex :=
  SeqL [ Lit "section-"; Group 1 (Plus digit); Eol ].

Definition SUBSECTION_EID : regex :=
  SeqL [ Lit "section-"; Group 1 (Plus digit); Lit1 "-"; Group 2 (Plus digit); Eol ].

Definition dotOrSpace (c : char) : bool := N.eqb c (chr ".") || isWhiteSpace c.

Definition buildProvisionRef (eId : jsstring) (elementType : string)
    (num : option jsstring) : jsstring :=
  if nonEmpty eId then
    match exec SECTION_EID eId with
    | Some sectionMatch => str "s" ++ capture 1 sectionMatch
    | None =>
        match exec SUBSECTION_EID eId with
        | Some subMatch =>
            str "s" ++ capture 1 subMatch ++ str "(" ++ capture 2 subMatch ++ str ")"
        | None => eId
        end
    end
  else if truthy num then
    let cleaned := replaceAll (Chr dotOrSpace) (fun _ => []) (showOpt num) in
    if String.eqb elementType "section" then str "s" ++ cleaned else cleaned
  else str elementType ++ str "-unknown".

(** [parts.filter(Boolean).join(' ').replace(/\s+/g, ' ').trim()]. *)
Definition joinParts (parts : list jsstring) : jsstring :=
  trim (collapseSpaces (join (str " ") (filter nonEmpty parts))).

(** The items pushed for one property of a node of [extractAllText]. *)
Definition allTextItem (recur : jsval -> jsstring) (item : jsval) : list jsstring :=
  match item with
  | JStr s => [s]
  | JArr _ | JObj _ => [recur item]
  | _ => []
  end.

Definition allTextValue (recur : jsval -> jsstring) (value : jsval) : list jsstring :=
  match value with
  | JStr s => [s]
  | JArr items => flat_map (allTextItem recur) items
  | JObj _ => [recur value]
  | _ => []
  end.

Definition allTextEntry (recur : jsval -> jsstring) (kv : jsstring * jsval) : list jsstring :=
  if startsWith (str "@_") (fst kv) then []
  else if streq (fst kv) (str "#text") then
    match snd kv with
    | JStr s => [s]
    | JNum n => [numberToString n]
    | _ => []
    end
  else allTextValue recur (snd kv).

(** The entries of an array are its items under their indices. *)
Fixpoint extractAllText (node : jsval) : jsstring :=
  match node with
  | JObj fs => joinParts (flat_map (allTextEntry extractAllText) fs)
  | JArr l => joinParts (flat_map (allTextValue extractAllText) l)
  | _ => []
  end.

(** Reading a property whose value the enclosing function recurses into:
    [f] is applied to the value of the first property named [key], and [d]
    stands for [f undefined]. *)
Definition withField {A : Type} (fs : list (jsstring * jsval)) (key : string)
    (f : jsval -> A) (d : A) : A :=
  (fix find (fs : list (jsstring * jsval)) : A :=
     match fs with
     | [] => d
     | (k, v) :: tl => if streq k (str key) then f v else find tl
     end) fs.

(** [if (v) for (const x of Array.isArray(v) ? v : [v]) parts.push(...f(x))]. *)
Definition forItems {A : Type} (v : jsval) (f : jsval -> list A) : list A :=
  if negb (isTruthy v) then []
  else
    match v with
    | JArr l => flat_map f l
    | _ => f v
    end.

Definition textOrRecur (recur : jsval -> jsstring) (c : jsval) : list jsstring :=
  match c with
  | JStr s => [s]
  | JArr _ | JObj _ => [recur c]
  | _ => []
  end.

Definition objectOnly (recur : jsval -> jsstring) (c : jsval) : list jsstring :=
  match c with
  | JArr _ | JObj _ => [recur c]
  | _ => []
  end.

(** One numbered paragraph of [extractContentText]: its number and its
    trimmed content, when the content is not blank. *)
Definition numberedParagraph (recur : jsval -> jsstring) (para : jsval) : list jsstring :=
  match para with
  | JArr _ | JObj _ =>
      let paraNum := extractText (getProp para "num") in
      let paraContent := recur para in
      if nonEmpty (trim paraContent)
      then [(if truthy paraNum then showOpt paraNum ++ str " " else [])
            ++ trim paraContent]
      else []
  | _ => []
  end.

(** The properties of an array are its indices: none of the names read
    below is one, so an array contributes no part. *)
Fixpoint extractContentText (node : jsval) : jsstring :=
  match node with
  | JObj fs =>
      joinParts
        ((* direct text *)
         match lookupField (str "#text") fs with
         | JStr text => [text]
         | _ => []
         end
         (* content elements *)
         ++ withField fs "content"
              (fun v => forItems v (textOrRecur extractContentText)) []
         (* paragraph elements *)
         ++ forItems (lookupField (str "p") fs) (textOrRecur extractAllText)
         (* block elements *)
         ++ forItems (lookupField (str "block") fs) (textOrRecur extractAllText)
         (* intro element *)
         ++ withField fs "intro" (objectOnly extractContentText) []
         (* wrap-up element *)
         ++ withField fs "wrapUp" (objectOnly extractContentText) []
         (* numbered paragraphs *)
         ++ withField fs "paragraph"
              (fun v => forItems v (numberedParagraph extractContentText)) [])
  | _ => []
  end.

Definition orEmpty (v : option jsstring) : jsstring :=
  match v with
  | Some s => s
  | None => []
  end.

(** [if (!elements) return; for (const element of list) body(element)],
    with the array of provisions threaded through. *)
Definition eachElement (elements : jsval)
    (body : jsval -> list ParsedProvision -> list ParsedProvision)
    (provisions : list ParsedProvision) : list ParsedProvision :=
  if negb (isTruthy elements) then provisions
  else
    match elements with
    | JArr l => fold_left (fun provisions element => body element provisions) l provisions
    | _ => body elements provisions
    end.

Definition elementId (el : jsval) : jsstring :=
  attrString (nullish (getProp el "@_eId") (JStr [])).

(** The part of [processElements] that does not recurse: the record pushed
    for a section-like element. *)
Definition pushOwnRecord (el : jsval) (elementName : string)
    (provisions : list ParsedProvision) : list ParsedProvision :=
  let eId := elementId el in
  let num := extractText (getProp el "num") in
  let heading := extractText (getProp el "heading") in
  let provisionRef := buildProvisionRef eId elementName num in
  let content := extractContentText el in
  if nonEmpty (trim content) then
    provisions ++ [{| provision_ref := provisionRef;
                      prov_section := match num with Some n => n | None => provisionRef end;
                      prov_title := orEmpty heading;
                      content := trim content |}]
  else provisions.

Definition processElements
    (extractProvisions : jsval -> list ParsedProvision -> jsstring -> list ParsedProvision)
    (node : jsval) (elementName : string)
    (provisions : list ParsedProvision) (parentContext : jsstring)
    : list ParsedProvision :=
  match node with
  | JObj fs =>
      withField fs elementName
        (fun elements =>
           eachElement elements
             (fun element provisions =>
                if negb (isObject element) then provisions
                else
                  let num := extractText (getProp element "num") in
                  let context :=
                    if nonEmpty parentContext
                    then parentContext ++ str " > " ++ str elementName ++ str " "
                         ++ orEmpty num
                    else str elementName ++ str " " ++ orEmpty num in
                  let provisions :=
                    if String.eqb elementName "section"
                       || String.eqb elementName "hcontainer"
                    then pushOwnRecord element elementName provisions
                    else provisions in
                  extractProvisions element provisions context)
             provisions)
        provisions
  | _ => provisions
  end.

Definition processSubsection (num heading : option jsstring) (sub : jsval)
    (provisions : list ParsedProvision) : list ParsedProvision :=
  if negb (isObject sub) then provisions
  else
    let subEId := elementId sub in
    let subNum := extractText (getProp sub "num") in
    let subContent := extractContentText sub in
    if nonEmpty (trim subContent) then
      let subRef := buildProvisionRef subEId "subsection" subNum in
      provisions ++ [{| provision_ref := subRef;
                        prov_section := orEmpty num ++ str "(" ++ orEmpty subNum ++ str ")";
                        prov_title := orEmpty heading;
                        content := trim subContent |}]
    else provisions.

Definition processSection (section : jsval)
    (provisions : list ParsedProvision) : list ParsedProvision :=
  if negb (isObject section) then provisions
  else
    let num := extractText (getProp section "num") in
    let heading := extractText (getProp section "heading") in
    let provisions := pushOwnRecord section "section" provisions in
    eachElement (getProp section "subsection") (processSubsection num heading) provisions.

Definition processSections (node : jsval)
    (provisions : list ParsedProvision) (parentContext : jsstring)
    : list ParsedProvision :=
  eachElement (getProp node "section") processSection provisions.

Fixpoint extractProvisions (node : jsval) (provisions : list ParsedProvision)
    (parentContext : jsstring) {struct node} : list ParsedProvision :=
  let provisions := processElements extractProvisions node "part" provisions parentContext in
  let provisions := processElements extractProvisions node "chapter" provisions parentContext in
  let provisions := processSections node provisions parentContext in
  processElements extractProvisions node "hcontainer" provisions parentContext.

Section AknParser.

Variable xmlParse : jsstring -> jsval.

(** The [provisions] field of the result of [parseAknXml]. *)
Definition parseAknXml_provisions (xml : jsstring) : list ParsedProvision :=
  let parsed := xmlParse (flattenInlineElements xml) in
  let akomaNtoso := nullish (getProp parsed "akomaNtoso") parsed in
  let act := nullish (getProp akomaNtoso "act") akomaNtoso in
  let body := getProp act "body" in
  if isTruthy body then extractProvisions body [] [] else [].

End AknParser.

(** ** Notions used to state the properties *)

(** The alternatives a greedy (resp. lazy) star over a single character set
    tries, in priority order: the longest run first (resp. the empty run
    first). *)
Fixpoint greedy_try (p : char -> bool) (k : cont)
    (pre rst : jsstring) (cs : list (nat * jsstring)) : option mstate :=
  match rst with
  | c :: tl =>
      if p c
      then orelse (greedy_try p k (c :: pre) tl cs) (fun _ => k (MState pre rst cs))
      else k (MState pre rst cs)
  | [] => k (MState pre [] cs)
  end.

Fixpoint lazy_try (p : char -> bool) (k : cont)
    (pre rst : jsstring) (cs : list (nat * jsstring)) : option mstate :=
  orelse (k (MState pre rst cs))
    (fun _ => match rst with
              | c :: tl => if p c then lazy_try p k (c :: pre) tl cs else None
              | [] => None
              end).

(** *** Search-query normaliser *)

(** The tokenisation as the specification words it: split on white space,
    then strip the characters outside word characters, white space and
    hyphen from every piece. *)
Definition specTokens (query : jsstring) : list jsstring :=
  map (fun t => replaceAll (Chr notWordSpaceHyphen) (fun _ => []) t)
      (split (Plus ws) (trim query)).

Definition noNonEmptyToken (query : jsstring) : bool :=
  forallb (fun t => negb (nonEmpty t)) (specTokens query).

(** *** Flattener *)

(** A self-closing element of the listed kinds occurs in the text, as the
    first pass of the flattener recognises one. *)
Definition hasSelfClosing (s : jsstring) : bool :=
  test (selfClosing ["noteRef"; "marker"]%string) s.

(** *** Tree walker *)

(** The elements a loop of the walker iterates over. *)
Definition childList (v : jsval) : list jsval :=
  if isTruthy v then asList v else [].

(** What the walker gathers, read off the tree without an accumulator:
    for every node, what its part children contribute, then its chapter
    children, then its section children, then its hcontainer children; an
    hcontainer contributes [own] before what lies below it, a section
    contributes [sect]. *)
Fixpoint inWalkOrder {A : Type} (own : jsval -> list A) (sect : jsval -> list A)
    (node : jsval) {struct node} : list A :=
  match node with
  | JObj fs =>
      withField fs "part"
        (fun v => forItems v (fun el =>
           if isObject el then inWalkOrder own sect el else [])) []
      ++ withField fs "chapter"
        (fun v => forItems v (fun el =>
           if isObject el then inWalkOrder own sect el else [])) []
      ++ flat_map sect (childList (lookupField (str "section") fs))
      ++ withField fs "hcontainer"
        (fun v => forItems v (fun el =>
           if isObject el then own el ++ inWalkOrder own sect el else [])) []
  | _ => []
  end.

(** The record of a section-like element, if its text is not blank. *)
Definition ownRecord (elementName : string) (el : jsval) : list ParsedProvision :=
  pushOwnRecord el elementName [].

(** The records of the numbered sub-units of a section. *)
Definition subsectionRecords (section : jsval) : list ParsedProvision :=
  flat_map (fun sub =>
              processSubsection (extractText (getProp section "num"))
                                (extractText (getProp section "heading")) sub [])
           (childList (getProp section "subsection")).

(** The records of one section: its own, then those of its sub-units. *)
Definition sectionRecords (section : jsval) : list ParsedProvision :=
  if isObject section
  then ownRecord "section" section ++ subsectionRecords section
  else [].

Definition walkOrder (node : jsval) : list ParsedProvision :=
  inWalkOrder (ownRecord "hcontainer") sectionRecords node.

(** Document order as far as the parsed tree retains it: the properties of
    a node in insertion order (the order in which the element names first
    occur among its children), the elements of one property in array
    order, a node before what lies below it. *)
Fixpoint documentOrder (node : jsval) : list ParsedProvision :=
  match node with
  | JObj fs =>
      flat_map
        (fun kv =>
           if streq (fst kv) (str "part") || streq (fst kv) (str "chapter") then
             forItems (snd kv) (fun el =>
               if isObject el then documentOrder el else [])
           else if streq (fst kv) (str "section") then
             flat_map sectionRecords (childList (snd kv))
           else if streq (fst kv) (str "hcontainer") then
             forItems (snd kv) (fun el =>
               if isObject el then ownRecord "hcontainer" el ++ documentOrder el
               else [])
           else [])
        fs
  | _ => []
  end.

(** A node that emits a record, as [buildProvisionRef] sees it. *)
Record RefSource := {
  src_eId : jsstring;
  src_kind : string;
  src_num : option jsstring
}.

Definition refOf (x : RefSource) : jsstring :=
  buildProvisionRef (src_eId x) (src_kind x) (src_num x).

Definition hasText (el : jsval) : bool :=
  nonEmpty (trim (extractContentText el)).

Definition ownSource (elementName : string) (el : jsval) : list RefSource :=
  if hasText el
  then [{| src_eId := elementId el; src_kind := elementName;
           src_num := extractText (getProp el "num") |}]
  else [].

Definition sectionSources (section : jsval) : list RefSource :=
  if isObject section
  then ownSource "section" section
       ++ flat_map (fun sub => if isObject sub then ownSource "subsection" sub else [])
                   (childList (getProp section "subsection"))
  else [].

(** The nodes that emit a record, in the order of the walk. *)
Definition refSources (node : jsval) : list RefSource :=
  inWalkOrder (ownSource "hcontainer") sectionSources node.

(** The identifier pattern of the markup dialect for sections and their
    sub-units: "section-", a number and possibly "-" and a second number.
    The result holds the number(s). *)
Definition sectionEidParts (eId : jsstring) : option (jsstring * option jsstring) :=
  if startsWith (str "section-") eId then
    let r := skipn 8 eId in
    let n := takeWhile isDigit r in
    match n, skipn (length n) r with
    | [], _ => None
    | _ :: _, [] => Some (n, None)
    | _ :: _, c :: r' =>
        if N.eqb c (chr "-") && nonEmpty r' && forallb isDigit r'
        then Some (n, Some r') else None
    end
  else None.

Definition hasSectionEid (x : RefSource) : bool :=
  match sectionEidParts (src_eId x) with
  | Some _ => true
  | None => false
  end.

(** *** Citations *)

Definition isDigits (s : jsstring) : bool := nonEmpty s && forallb isDigit s.

Definition optional (p : jsstring -> bool) (v : option jsstring) : bool :=
  match v with
  | Some s => p s
  | None => true
  end.

Definition isLetter (s : jsstring) : bool :=
  match s with
  | [c] => isLowerAZ c
  | _ => false
  end.

(** A title the two surface forms can carry: not empty, on one line, with
    no white space at either end and no comma at the start. *)
Definition plainTitle (t : jsstring) : bool :=
  match t with
  | [] => false
  | c :: _ =>
      negb (isWhiteSpace c) && negb (N.eqb c (chr ","))
      && negb (isWhiteSpace (last t c))
      && forallb (fun x => negb (isLineTerminator x)) t
  end.

(** A citation of the shape the grammar decomposes: a numeric section, an
    optional numeric subsection, an optional one-letter paragraph, a plain
    title and a four-digit year. *)
Definition canonical (c : ParsedCitation) : bool :=
  valid c
  && match section c with Some s => isDigits s | None => false end
  && optional isDigits (subsection c)
  && optional isLetter (paragraph c)
  && match title c with Some t => plainTitle t | None => false end
  && match year c with
     | Some (Num y) => Z.leb 1000 y && Z.leb y 9999
     | _ => false
     end.

(** *** Flattener *)

(** Every opening angle bracket starts a tag: it is followed by code units
    other than angle brackets and then by a closing angle bracket. *)
Fixpoint tagsDelimited (inTag : bool) (s : jsstring) : bool :=
  match s with
  | [] => negb inTag
  | c :: tl =>
      if inTag then
        if N.eqb c (chr "<") then false
        else if N.eqb c (chr ">") then tagsDelimited false tl
        else tagsDelimited true tl
      else
        if N.eqb c (chr "<") then tagsDelimited true tl
        else tagsDelimited false tl
  end.

(** *** Concrete stores, pages and documents of the examples *)

Definition emptyStore : Database :=
  {| selectDocument := fun _ => None; selectProvision := fun _ _ => false |}.

Definition oneActStore : Database :=
  {| selectDocument := fun _ =>
       Some {| doc_id := str "ukpga-2018-12";
               doc_title := str "Data Protection Act 2018";
               doc_status := str "in_force" |};
     selectProvision := fun _ s => streq s (str "1") |}.

(** A page without entries that still carries a next-page link. *)
Definition staleNextPage : jsval :=
  JObj [(str "feed",
         JObj [(str "link",
                JArr [JObj [(str "@_rel", JStr (str "self"));
                            (str "@_href", JStr (str "https://www.legislation.gov.uk/ukpga/data.feed?page=9"))];
                      JObj [(str "@_rel", JStr (str "next"));
                            (str "@_href", JStr (str "https://www.legislation.gov.uk/ukpga/data.feed?page=10"))]])])].

(** The citation of the Data Protection Act 2018, section 1(1)(a). *)
Definition dpa_1_1_a : ParsedCitation :=
  {| valid := true; type := statute;
     title := Some (str "Data Protection Act"); year := Some (Num 2018);
     section := Some (str "1"); subsection := Some (str "1");
     paragraph := Some (str "a"); error := None |}.

(** An object with the given properties. *)
Definition object (l : list (string * jsval)) : jsval :=
  JObj (map (fun kv => (str (fst kv), snd kv)) l).

(** A section without identifier, with a number and one paragraph of text. *)
Definition plainSection (num text : string) : jsval :=
  object [("num", JStr (str num));
          ("content", JArr [object [("p", JArr [JStr (str text)])]])]%string.

(** A section with an identifier and one paragraph of text. *)
Definition idSection (eId num text : string) : jsval :=
  object [("@_eId", JStr (str eId)); ("num", JStr (str num));
          ("content", JArr [object [("p", JArr [JStr (str text)])]])]%string.

(** A body with two sections numbered "1", neither with an identifier. *)
Definition twoSectionsNumberedOne : jsval :=
  object [("section", JArr [plainSection "1" "first"; plainSection "1" "second"])]%string.

(** A body with two sections with distinct identifiers, the first with one
    sub-unit. *)
Definition twoIdentifiedSections : jsval :=
  object [("section",
           JArr [object [("@_eId", JStr (str "section-1")); ("num", JStr (str "1"));
                         ("intro", object [("p", JArr [JStr (str "intro")])]);
                         ("subsection", JArr [idSection "section-1-1" "(1)" "sub"])];
                 idSection "section-2" "2" "second"])]%string.

(** A body whose first child is a section and whose second child is a part
    with a section of its own: the property of the sections comes first. *)
Definition sectionBeforePart : jsval :=
  object [("section", JArr [idSection "section-1" "1" "first"]);
          ("part", JArr [object [("section", JArr [idSection "section-2" "2" "second"])]])]%string.

(** A property of the nodes below a value: of the value itself, and of its
    items when it is an array. *)
Definition onElements (P : jsval -> Prop) (v : jsval) : Prop :=
  P v /\ match v with JArr l => Forall P l | _ => True end.


Definition walked (v : jsval) : Prop :=
  forall acc ctx, extractProvisions v acc ctx = acc ++ walkOrder v.


(** *** Matcher *)

(** The run of a character set cannot be extended into [v]. *)
Definition boundary (p : char -> bool) (v : jsstring) : Prop :=
  match v with
  | c :: _ => p c = false
  | [] => True
  end.


(** *** Citations, continued *)

(** A parenthesised part of a pinpoint, empty when the field is absent. *)
Definition parenPart (o : option jsstring) : jsstring :=
  match o with
  | Some x => str "(" ++ x ++ str ")"
  | None => []
  end.

(** The year [n] prints as four digits that [parseInt] reads back. *)
Definition fourDigitYear (n : N) : bool :=
  match natToString n with
  | [d1; d2; d3; d4] =>
      isDigit d1 && isDigit d2 && isDigit d3 && isDigit d4
      && match parseInt [d1; d2; d3; d4] with
         | Num z => Z.eqb z (Z.of_N n)
         | NaN => false
         end
  | _ => false
  end.

(** A text that cannot start a parenthesised number. *)
Definition noNumberPart (w : jsstring) : bool :=
  match w with
  | c1 :: c2 :: _ => negb (N.eqb (chr "(") c1) || negb (isDigit c2)
  | _ => true
  end.

(** A text that does not start with an opening parenthesis. *)
Definition noParen (w : jsstring) : bool :=
  match w with
  | c :: _ => negb (N.eqb (chr "(") c)
  | [] => true
  end.

(** The match succeeds at the end of the input with the captures [cs]. *)
Definition ends (o : option mstate) (cs : list (nat * jsstring)) : Prop :=
  exists x, o = Some x /\ rest x = [] /\ caps x = cs.

(** The captures of an optional group. *)
Definition optCapture (i : nat) (o : option jsstring) (cs : list (nat * jsstring))
    : list (nat * jsstring) :=
  match o with
  | Some x => (i, x) :: cs
  | None => cs
  end.

(** *** Flattener, continued: texts whose tags are delimited *)

(** A text whose tags are delimited is a sequence of code units other than
    the opening angle bracket and of tags. *)
Inductive token :=
| Txt (c : char)
| Tag (body : jsstring).

Definition render (t : token) : jsstring :=
  match t with
  | Txt c => [c]
  | Tag b => chr "<" :: b ++ [chr ">"]
  end.

Definition renderAll (ts : list token) : jsstring := flat_map render ts.

Definition notLt (c : char) : bool := negb (N.eqb (chr "<") c).

Definition noAngle (c : char) : bool := notLt c && notGt c.

Definition wfToken (t : token) : bool :=
  match t with
  | Txt c => notLt c
  | Tag b => forallb noAngle b
  end.

(** The match stops before [r] with the captures [cs]. *)
Definition stopsAt (o : option mstate) (r : jsstring) (cs : list (nat * jsstring)) : Prop :=
  exists x, o = Some x /\ rest x = r /\ caps x = cs.

Definition wordAtBody (b : jsstring) : bool :=
  match b with
  | c :: _ => isWordChar c
  | [] => false
  end.

Definition endsWithSlash (b : jsstring) : bool :=
  match rev b with
  | c :: _ => N.eqb (chr "/") c
  | [] => false
  end.

(** The body of a tag is that of a self-closing element with one of the
    given names: the name, a word boundary, and a slash at the end. *)
Definition selfClosingBody (names : list string) (b : jsstring) : bool :=
  existsb (fun nm =>
             startsWith (str nm) b
             && xorb (isWordAt (rev (str nm) ++ [chr "<"]))
                     (wordAtBody (skipn (length (str nm)) b))
             && endsWithSlash (skipn (length (str nm)) b))
          names.

Definition selfClosingToken (names : list string) (t : token) : bool :=
  match t with
  | Txt _ => false
  | Tag b => selfClosingBody names b
  end.

(** [l1] is [l2] with some of its elements left out. *)
Inductive sublist {A : Type} : list A -> list A -> Prop :=
| sublist_nil : sublist [] []
| sublist_keep x l1 l2 : sublist l1 l2 -> sublist (x :: l1) (x :: l2)
| sublist_drop x l1 l2 : sublist l1 l2 -> sublist l1 (x :: l2).

(** The alternatives of a group of literal names, in priority order. *)
Fixpoint tryNames (names : list string) (s : mstate) (k : cont) : option mstate :=
  match names with
  | [] => None
  | nm :: tl => orelse (m (Lit nm) s k) (fun _ => tryNames tl s k)
  end.

Definition plainName (nm : string) : bool := forallb noAngle (str nm).

(** *** Flattener, continued: paired inline elements *)

(** The tokens of a text, read off from left to right: outside a tag a
    code unit is a token of its own, inside a tag the code units up to the
    closing angle bracket form its body.  [cur] is the body read so far,
    most recent first. *)
Fixpoint tokenize (cur : option jsstring) (s : jsstring) : list token :=
  match s with
  | [] => []
  | c :: tl =>
      match cur with
      | None => if N.eqb c (chr "<") then tokenize (Some []) tl
                else Txt c :: tokenize None tl
      | Some b => if N.eqb c (chr ">") then Tag (rev b) :: tokenize None tl
                  else tokenize (Some (c :: b)) tl
      end
  end.

(** The body of a tag opens a paired inline element, as the second pass
    recognises one: one of the four names, then the end of the body or a
    code unit that is not a word character. *)
Definition openBody (b : jsstring) : bool :=
  existsb (fun nm => startsWith (str nm) b
                     && negb (wordAtBody (skipn (length (str nm)) b)))
          pairedNames.

(** The body of a tag closes a paired inline element: a slash and one of
    the four names. *)
Definition closeBody (b : jsstring) : bool :=
  existsb (fun nm => streq b (chr "/" :: str nm)) pairedNames.

Inductive tagKind := Opening | Closing | Other.

Definition kindOf (t : token) : tagKind :=
  match t with
  | Txt _ => Other
  | Tag b => if openBody b then Opening
             else if closeBody b then Closing
             else Other
  end.

Definition notClosing (t : token) : bool :=
  match kindOf t with Closing => false | _ => true end.

Definition isOther (t : token) : bool :=
  match kindOf t with Other => true | _ => false end.

(** No opening tag of a paired inline element occurs between an opening
    tag and the next closing tag: the elements are not nested.  [inside]
    tells whether an opening tag is waiting for its closing tag. *)
Fixpoint unnestedIn (inside : bool) (ts : list token) : bool :=
  match ts with
  | [] => true
  | t :: tl =>
      match kindOf t with
      | Opening => negb inside && unnestedIn true tl
      | Closing => unnestedIn false tl
      | Other => unnestedIn inside tl
      end
  end.

(** No opening tag of a paired inline element is followed, anywhere
    later, by a closing tag.  [seen] tells whether an opening tag has
    occurred. *)
Fixpoint noPair (seen : bool) (ts : list token) : bool :=
  match ts with
  | [] => true
  | t :: tl =>
      match kindOf t with
      | Opening => noPair true tl
      | Closing => negb seen && noPair false tl
      | Other => noPair seen tl
      end
  end.

(** The tokens the first pass keeps. *)
Definition keptByFirstPass (t : token) : bool :=
  negb (selfClosingToken ["noteRef"; "marker"; "ref"]%string t).

(** The paired inline elements of a text are not nested, its self-closing
    inline elements left aside. *)
Definition unnested (xml : jsstring) : bool :=
  unnestedIn false (filter keptByFirstPass (tokenize None xml)).

(** What follows the content of a paired element in its pattern: a
    closing tag of one of the four names. *)
Definition closingTag : regex :=
  SeqL [ Lit "</"; AltL (map Lit pairedNames); Lit1 ">" ].

(** ** The matcher, declaratively *)

(** [matches r s s']: the pattern [r] can take the state [s] to the state
    [s'], consuming input and recording captures as the matcher does.  An
    iteration of a star consumes at least one code unit. *)
Inductive matches : regex -> mstate -> mstate -> Prop :=
| M_Eps s : matches Eps s s
| M_Chr p c pre tl cs :
    p c = true -> matches (Chr p) (MState pre (c :: tl) cs) (MState (c :: pre) tl cs)
| M_Seq a b s s1 s2 : matches a s s1 -> matches b s1 s2 -> matches (Seq a b) s s2
| M_AltL a b s s' : matches a s s' -> matches (Alt a b) s s'
| M_AltR a b s s' : matches b s s' -> matches (Alt a b) s s'
| M_Star0 g a s : matches (Star g a) s s
| M_StarS g a s s1 s2 :
    matches a s s1 -> length (rest s1) < length (rest s) ->
    matches (Star g a) s1 s2 -> matches (Star g a) s s2
| M_Group i a s s' :
    matches a s s' ->
    matches (Group i a) s
      (MState (before s') (rest s')
         ((i, firstn (length (rest s) - length (rest s')) (rest s)) :: caps s'))
| M_Bol s : before s = [] -> matches Bol s s
| M_Eol s : rest s = [] -> matches Eol s s
| M_WordB s :
    xorb (isWordAt (before s)) (isWordAt (rest s)) = true -> matches WordB s s.

(** A pattern without capture groups. *)
Fixpoint groupFree (r : regex) : bool :=
  match r with
  | Group _ _ => false
  | Seq a b | Alt a b => groupFree a && groupFree b
  | Star _ a => groupFree a
  | _ => true
  end.

(** *** Search-query normaliser, continued *)

(** The code units a token keeps: word characters and the hyphen. *)
Definition tokenChar (c : char) : bool := isWordChar c || N.eqb c (chr "-").

(** [`"${t}"*`] and [`${t}*`]. *)
Definition quotedPrefix (t : jsstring) : jsstring := [dquote] ++ t ++ [dquote] ++ str "*".
Definition barePrefix (t : jsstring) : jsstring := t ++ str "*".

(** *** White space in normalised text *)

(** Every white-space code unit of the text is a space that is followed
    by no white space. *)
Fixpoint singleSpaced (s : jsstring) : bool :=
  match s with
  | [] => true
  | c :: tl =>
      (if isWhiteSpace c
       then N.eqb c (chr " ")
            && match tl with
               | d :: _ => negb (isWhiteSpace d)
               | [] => true
               end
       else true)
      && singleSpaced tl
  end.

(** *** Tree walker, continued *)


(** *** Flattener, continued: what is stripped *)

(** The tags the flattener strips from a text whose tags are delimited:
    the self-closing noteRef, marker and ref elements and the opening and
    closing tags of the paired inline elements. *)
Definition inlineTag (t : token) : bool :=
  match t with
  | Txt _ => false
  | Tag b =>
      selfClosingBody ["noteRef"; "marker"; "ref"]%string b
      || openBody b || closeBody b
  end.

(** ** Ingestion pipeline: discovery of the acts (scripts/ingest.ts) *)

(** What [fetchAtomFeed] resolves to. *)
Record FetchResult := {
  fetch_status : Z;
  fetch_body : jsstring;
  fetch_contentType : jsstring
}.

(** [`${entry.year}-${entry.number}`] *)
Definition entryKey (entry : ActIndexEntry) : jsstring :=
  numberToString (entry_year entry) ++ str "-" ++ numberToString (entry_number entry).

(** One turn of the loop that removes duplicates; the state is the set
    [seen], as the list of its keys, and the array [deduped]. *)
Definition dedupStep (st : list jsstring * list ActIndexEntry) (entry : ActIndexEntry)
    : list jsstring * list ActIndexEntry :=
  let key := entryKey entry in
  if existsb (streq key) (fst st) then st
  else (key :: fst st, snd st ++ [entry]).

Section Discovery.

Variable xmlParse : jsstring -> jsval.

(** The response to the request for a page of the feed.  One run of the
    discovery requests every page at most once, so the responses of a run
    are a function of the page number. *)
Variable fetchAtomFeed : Z -> FetchResult.

(** The loop of [discoverActs] from the request for [page] on; it returns
    the entries gathered and the page counter.  The loop is left when the
    counter exceeds 1000, so its body runs at most 1000 times, which is
    what [fuel] is set to. *)
Fixpoint discoverPages (fuel : nat) (page : Z) (allEntries : list ActIndexEntry)
    : list ActIndexEntry * Z :=
  match fuel with
  | O => (allEntries, page)
  | S fuel' =>
      let result := fetchAtomFeed page in
      if negb (Z.eqb (fetch_status result) 200) then (allEntries, page)
      else
        let feedResult := parseAtomFeed xmlParse (fetch_body result) in
        let allEntries := allEntries ++ entries feedResult in
        let hasMore := hasNextPage feedResult in
        let page := (page + 1)%Z in
        if Z.ltb 1000 page then (allEntries, page)
        else if hasMore then discoverPages fuel' page allEntries
        else (allEntries, page)
  end.

(** The array [discoverActs] resolves to (and writes to the index). *)
Definition discoverActs : list ActIndexEntry :=
  let allEntries := fst (discoverPages 1000 1 []) in
  snd (fold_left dedupStep allEntries ([], [])).

(** The entries of a page of the feed. *)
Definition pageEntries (page : Z) : list ActIndexEntry :=
  entries (parseAtomFeed xmlParse (fetch_body (fetchAtomFeed page))).

Definition pageHasNext (page : Z) : bool :=
  hasNextPage (parseAtomFeed xmlParse (fetch_body (fetchAtomFeed page))).

End Discovery.

(** A feed page with one entry, and the responses of a feed that serves
    it as its first page and nothing else. *)
Definition oneEntryFeed : jsval :=
  object [("feed",
           object [("entry",
                    JArr [object [("title", JStr (str "Data Protection Act 2018"));
                                  ("id", JStr (str "http://www.legislation.gov.uk/id/ukpga/2018/12"));
                                  ("updated", JStr (str "2018-05-23"))]])])]%string.

Definition onePageFeed (page : Z) : FetchResult :=
  if Z.eqb page 1
  then {| fetch_status := 200; fetch_body := []; fetch_contentType := [] |}
  else {| fetch_status := 404; fetch_body := []; fetch_contentType := [] |}.

(** * Properties *)

(** ** The matcher *)

Lemma star_loop_ext (ma : mstate -> cont -> option mstate) :
  (forall s k k', (forall x, k x = k' x) -> ma s k = ma s k') ->
  forall g k k', (forall x, k x = k' x) ->
  forall n s, star_loop ma g k n s = star_loop ma g k' n s.
Proof.
  intros Hma g k k' Hk n. induction n as [|n IH]; intros s; simpl.
  - apply Hk.
  - rewrite (Hk s).
    assert (E : ma s (fun s' => if length (rest s') <? length (rest s)
                                then star_loop ma g k n s' else None)
              = ma s (fun s' => if length (rest s') <? length (rest s)
                                then star_loop ma g k' n s' else None)).
    { apply Hma. intros x. destruct (_ <? _); auto. }
    rewrite E. reflexivity.
Qed.

Lemma m_ext (r : regex) :
  forall s k k', (forall x, k x = k' x) -> m r s k = m r s k'.
Proof.
  induction r; intros s k k' Hk; cbn [m].
  - apply Hk.
  - destruct (rest s); auto. destruct (p c); auto.
  - apply IHr1. intros x. apply IHr2. assumption.
  - rewrite (IHr1 s k k' Hk), (IHr2 s k k' Hk). reflexivity.
  - apply star_loop_ext; assumption.
  - apply IHr. intros x. apply Hk.
  - destruct (before s); auto.
  - destruct (rest s); auto.
  - destruct (xorb _ _); auto.
Qed.

Lemma star_loop_fuel (a : regex) (g : bool) (k : cont) :
  forall n s, length (rest s) < n ->
  star_loop (m a) g k n s = star_loop (m a) g k (S (length (rest s))) s.
Proof.
  induction n as [n IH] using lt_wf_ind. intros s Hn.
  destruct n as [|n]; [lia|]. simpl.
  assert (E : forall x,
             (if length (rest x) <? length (rest s)
              then star_loop (m a) g k n x else None)
             = (if length (rest x) <? length (rest s)
                then star_loop (m a) g k (length (rest s)) x else None)).
  { intros x. destruct (length (rest x) <? length (rest s)) eqn:L; auto.
    apply Nat.ltb_lt in L.
    rewrite (IH n) by lia.
    rewrite (IH (length (rest s))) by lia. reflexivity. }
  rewrite (m_ext a s _ _ E). reflexivity.
Qed.

(** The unfolding of a star, free of the iteration bound. *)
Lemma m_Star (g : bool) (a : regex) (s : mstate) (k : cont) :
  m (Star g a) s k =
  let again s' :=
    if length (rest s') <? length (rest s) then m (Star g a) s' k else None in
  if g then orelse (m a s again) (fun _ => k s)
  else orelse (k s) (fun _ => m a s again).
Proof.
  cbv zeta. change (m (Star g a) s k)
    with (star_loop (m a) g k (S (length (rest s))) s).
  simpl.
  assert (E : forall x,
             (if length (rest x) <? length (rest s)
              then star_loop (m a) g k (length (rest s)) x else None)
             = (if length (rest x) <? length (rest s)
                then m (Star g a) x k else None)).
  { intros x. destruct (length (rest x) <? length (rest s)) eqn:L; auto.
    apply Nat.ltb_lt in L. apply star_loop_fuel. assumption. }
  rewrite (m_ext a s _ _ E). reflexivity.
Qed.

Lemma m_Chr_cons (p : char -> bool) c tl pre cs (k : cont) :
  m (Chr p) (MState pre (c :: tl) cs) k =
  if p c then k (MState (c :: pre) tl cs) else None.
Proof. reflexivity. Qed.

Lemma m_Chr_nil (p : char -> bool) pre cs (k : cont) :
  m (Chr p) (MState pre [] cs) k = None.
Proof. reflexivity. Qed.

Lemma m_Seq (a b : regex) s (k : cont) :
  m (Seq a b) s k = m a s (fun s' => m b s' k).
Proof. reflexivity. Qed.

Lemma m_Alt (a b : regex) s (k : cont) :
  m (Alt a b) s k = orelse (m a s k) (fun _ => m b s k).
Proof. reflexivity. Qed.

Lemma m_Eps s (k : cont) : m Eps s k = k s.
Proof. reflexivity. Qed.

Lemma m_Group (i : nat) (a : regex) s (k : cont) :
  m (Group i a) s k =
  m a s (fun s' =>
    k (MState (before s') (rest s')
         ((i, firstn (length (rest s) - length (rest s')) (rest s)) :: caps s'))).
Proof. reflexivity. Qed.

Lemma m_star_greedy (p : char -> bool) (k : cont) (cs : list (nat * jsstring)) :
  forall rst pre,
  m (Star true (Chr p)) (MState pre rst cs) k = greedy_try p k pre rst cs.
Proof.
  induction rst as [|c tl IH]; intros pre; rewrite m_Star; cbv zeta.
  - rewrite m_Chr_nil. reflexivity.
  - rewrite m_Chr_cons. cbn [greedy_try rest length].
    destruct (p c); [|reflexivity].
    rewrite (proj2 (Nat.ltb_lt _ _) (Nat.lt_succ_diag_r _)).
    rewrite IH. reflexivity.
Qed.

Lemma m_star_lazy (p : char -> bool) (k : cont) (cs : list (nat * jsstring)) :
  forall rst pre,
  m (Star false (Chr p)) (MState pre rst cs) k = lazy_try p k pre rst cs.
Proof.
  induction rst as [|c tl IH]; intros pre; rewrite m_Star; cbv zeta.
  - rewrite m_Chr_nil. reflexivity.
  - rewrite m_Chr_cons. cbn [lazy_try rest length].
    destruct (p c); [|reflexivity].
    rewrite (proj2 (Nat.ltb_lt _ _) (Nat.lt_succ_diag_r _)).
    rewrite IH. reflexivity.
Qed.
(** ** Citation grammar: scenarios *)

(** C9.  Parsing "s. 1(1)(a) Data Protection Act 2018" yields a valid
    citation with section "1", subsection "1" and paragraph "a", and the
    pinpoint format of that citation is exactly "s. 1(1)(a)". *)
Theorem parse_then_pinpoint_scenario :
  let c := parseCitation (str "s. 1(1)(a) Data Protection Act 2018") in
  valid c = true
  /\ section c = Some (str "1")
  /\ subsection c = Some (str "1")
  /\ paragraph c = Some (str "a")
  /\ formatCitation c pinpoint = str "s. 1(1)(a)".
Proof. vm_compute. repeat split; reflexivity. Qed.

(** ** Citation validator *)

Lemma parseSection_fields (sectionStr t : jsstring) (y : number) (ty : CitationType) :
  let c := parseSection sectionStr t y ty in
  valid c = true /\ title c = Some (trim t) /\ year c = Some y.
Proof.
  unfold parseSection. destruct (exec SECTION_REF sectionStr); simpl; auto.
Qed.

Lemma parseCitation_valid_fields (cit : jsstring) :
  valid (parseCitation cit) = true ->
  exists t y, title (parseCitation cit) = Some t /\ year (parseCitation cit) = Some y.
Proof.
  unfold parseCitation.
  destruct (exec FULL_CITATION (trim cit)) as [mt|].
  - intros _. destruct (parseSection_fields (capture 1 mt) (capture 2 mt)
                          (parseInt (capture 3 mt)) statute) as (_ & Ht & Hy).
    eauto.
  - destruct (exec SHORT_CITATION (trim cit)) as [mt|].
    + intros _. destruct (parseSection_fields (capture 1 mt) (capture 2 mt)
                            (parseInt (capture 3 mt)) statute) as (_ & Ht & Hy).
      eauto.
    + simpl. discriminate.
Qed.

(** C3.  A citation that parses as valid but whose title and year select
    no document yields a result (the function is total: nothing is thrown)
    with [document_exists = false], [provision_exists = false] and the one
    warning that names the title and the year. *)
Theorem validateCitation_missing_document (db : Database) (cit : jsstring) :
  valid (parseCitation cit) = true ->
  selectDocument db (titleLikePattern (parseCitation cit)) = None ->
  exists t y,
    title (parseCitation cit) = Some t
    /\ year (parseCitation cit) = Some y
    /\ document_exists (validateCitation db cit) = false
    /\ provision_exists (validateCitation db cit) = false
    /\ warnings (validateCitation db cit)
       = [str "Document " ++ [dquote] ++ t ++ str " " ++ numberToString y
          ++ [dquote] ++ str " not found in database"].
Proof.
  intros Hv Hdoc.
  destruct (parseCitation_valid_fields cit Hv) as (t & y & Ht & Hy).
  exists t, y. unfold validateCitation. rewrite Hv, Hdoc. simpl.
  unfold notFoundWarning. rewrite Ht, Hy. simpl. auto.
Qed.

Lemma validateCitation_missing_document_witness :
  exists t y,
    title (parseCitation (str "Section 3, Data Protection Act 2018")) = Some t
    /\ year (parseCitation (str "Section 3, Data Protection Act 2018")) = Some y
    /\ document_exists
         (validateCitation emptyStore (str "Section 3, Data Protection Act 2018")) = false
    /\ provision_exists
         (validateCitation emptyStore (str "Section 3, Data Protection Act 2018")) = false
    /\ warnings
         (validateCitation emptyStore (str "Section 3, Data Protection Act 2018"))
       = [str "Document " ++ [dquote] ++ t ++ str " " ++ numberToString y
          ++ [dquote] ++ str " not found in database"].
Proof.
  apply (validateCitation_missing_document emptyStore
           (str "Section 3, Data Protection Act 2018")).
  - vm_compute. reflexivity.
  - reflexivity.
Defined.

(** C10.  Validation reads the title, the year and the section of the
    parsed citation only: two valid citations that agree on these three
    get the same [document_exists], [provision_exists], [status],
    [document_title] and [warnings] from the same store, whatever their
    subsections and paragraphs. *)
Theorem validateCitation_ignores_subsection (db : Database) (c1 c2 : jsstring) :
  valid (parseCitation c1) = true ->
  valid (parseCitation c2) = true ->
  title (parseCitation c1) = title (parseCitation c2) ->
  year (parseCitation c1) = year (parseCitation c2) ->
  section (parseCitation c1) = section (parseCitation c2) ->
  document_exists (validateCitation db c1) = document_exists (validateCitation db c2)
  /\ provision_exists (validateCitation db c1) = provision_exists (validateCitation db c2)
  /\ status (validateCitation db c1) = status (validateCitation db c2)
  /\ document_title (validateCitation db c1) = document_title (validateCitation db c2)
  /\ warnings (validateCitation db c1) = warnings (validateCitation db c2).
Proof.
  intros V1 V2 Ht Hy Hs. unfold validateCitation.
  rewrite V1, V2. cbn [negb].
  unfold titleLikePattern, notFoundWarning, yearOrEmpty.
  rewrite Ht, Hy, Hs.
  destruct (selectDocument db _) as [doc|]; [|simpl; auto].
  destruct (truthy (section (parseCitation c2)));
    destruct (streq (doc_status doc) (str "repealed")); simpl; auto.
Qed.

Lemma validateCitation_ignores_subsection_witness :
  let c1 := str "s. 1(1)(a) Data Protection Act 2018" in
  let c2 := str "s. 1(2) Data Protection Act 2018" in
  subsection (parseCitation c1) <> subsection (parseCitation c2)
  /\ document_exists (validateCitation oneActStore c1)
     = document_exists (validateCitation oneActStore c2)
  /\ provision_exists (validateCitation oneActStore c1)
     = provision_exists (validateCitation oneActStore c2)
  /\ status (validateCitation oneActStore c1) = status (validateCitation oneActStore c2)
  /\ document_title (validateCitation oneActStore c1)
     = document_title (validateCitation oneActStore c2)
  /\ warnings (validateCitation oneActStore c1) = warnings (validateCitation oneActStore c2).
Proof.
  split.
  - vm_compute. discriminate.
  - apply (validateCitation_ignores_subsection oneActStore
             (str "s. 1(1)(a) Data Protection Act 2018")
             (str "s. 1(2) Data Protection Act 2018"));
      vm_compute; reflexivity.
Defined.

(** ** Feed-index reader *)

(** C7.  When [parseAtomFeed] returns no entries it returns
    [hasNextPage = false], whatever the links of the page. *)
Theorem parseAtomFeed_no_entries_no_next (xmlParse : jsstring -> jsval) (xml : jsstring) :
  entries (parseAtomFeed xmlParse xml) = [] ->
  hasNextPage (parseAtomFeed xmlParse xml) = false.
Proof.
  unfold parseAtomFeed. cbn [entries hasNextPage].
  intros E. rewrite E. reflexivity.
Qed.

Lemma parseAtomFeed_no_entries_no_next_witness :
  entries (parseAtomFeed (fun _ => staleNextPage) []) = []
  /\ hasNextPage (parseAtomFeed (fun _ => staleNextPage) []) = false.
Proof.
  split.
  - reflexivity.
  - apply (parseAtomFeed_no_entries_no_next (fun _ => staleNextPage) []).
    reflexivity.
Defined.

(** ** Search-query normaliser *)

(** C8, as stated, fails on a blank query: it has no explicit syntax and
    its tokenisation has no non-empty token, yet the primary variant
    returned is the empty expression. *)
Lemma fts_blank_query_empty_expression :
  test EXPLICIT_FTS_SYNTAX (trim (str "   ")) = false
  /\ noNonEmptyToken (str "   ") = true
  /\ ~ (buildFtsQueryVariants (str "   ")
          = {| primary := trim (str "   "); fallback := None |}
        /\ primary (buildFtsQueryVariants (str "   ")) <> []).
Proof.
  split; [reflexivity|]. split; [reflexivity|].
  intros [_ H]. apply H. reflexivity.
Qed.

(** C8, amended.  For a query that is blank (empty after trimming) the
    normaliser returns the trimmed original, which is the empty string, as
    the sole variant, with no fallback. *)
Theorem fts_blank_query_sole_variant (query : jsstring) :
  trim query = [] ->
  buildFtsQueryVariants query = {| primary := trim query; fallback := None |}.
Proof.
  intros E. unfold buildFtsQueryVariants. rewrite E. reflexivity.
Qed.

Lemma fts_blank_query_sole_variant_witness :
  trim (str "   ") = []
  /\ buildFtsQueryVariants (str "   ")
     = {| primary := trim (str "   "); fallback := None |}.
Proof.
  split.
  - reflexivity.
  - apply (fts_blank_query_sole_variant (str "   ")). reflexivity.
Defined.

(** What the normaliser returns for a query whose only token loses all its
    characters in the clean-up. *)
Lemma fts_punctuation_query :
  buildFtsQueryVariants (str "!!!")
  = {| primary := [dquote; dquote] ++ str "*"; fallback := Some (str "*") |}.
Proof. reflexivity. Qed.

Lemma trimStart_suffix (s : jsstring) : exists w, s = w ++ trimStart s.
Proof.
  induction s as [|c s (w & IH)]; [exists []; reflexivity|].
  cbn [trimStart]. destruct (isWhiteSpace c).
  - exists (c :: w). cbn [app]. rewrite <- IH. reflexivity.
  - exists []. reflexivity.
Qed.

Lemma trimStart_head (s : jsstring) (c : char) (tl : jsstring) :
  trimStart s = c :: tl -> isWhiteSpace c = false.
Proof.
  induction s as [|d s IH]; [discriminate|].
  cbn [trimStart]. destruct (isWhiteSpace d) eqn:E; [exact IH|].
  intros H. injection H as <- _. exact E.
Qed.

Lemma trim_head (s : jsstring) (c : char) (tl : jsstring) :
  trim s = c :: tl -> isWhiteSpace c = false.
Proof.
  unfold trim, trimEnd. intros H.
  destruct (trimStart_suffix (rev (trimStart s))) as (w & E).
  apply (f_equal (@rev char)) in E. rewrite rev_involutive, rev_app_distr, H in E.
  cbn [app] in E. apply (trimStart_head s E).
Qed.

(** The piece being collected, once it holds a code unit, becomes a
    non-empty piece of the result. *)
Lemma split_from_nonempty_piece (r : regex) :
  forall rst pre cur,
  cur <> [] -> filter nonEmpty (split_from r pre rst cur 0) <> [].
Proof.
  assert (Hrev : forall cur : jsstring, cur <> [] -> nonEmpty (rev cur) = true).
  { intros [|x cur] H; [contradiction|]. cbn [rev].
    destruct (rev cur); reflexivity. }
  induction rst as [|c tl IH]; intros pre cur Hcur.
  - cbn [split_from filter]. rewrite (Hrev cur Hcur). discriminate.
  - cbn [split_from]. destruct (matchAt r pre (c :: tl)) as [x|].
    + destruct (length (matched x)); destruct cur as [|y cur];
        try contradiction; cbn [filter]; rewrite (Hrev (y :: cur) Hcur);
        discriminate.
    + apply IH. discriminate.
Qed.

(** The white-space split of a query that is not blank has a non-empty
    piece: the guard of the normaliser fires for blank queries only. *)
Lemma fts_pieces_of_nonblank (query : jsstring) :
  trim query <> [] -> filter nonEmpty (split (Plus ws) (trim query)) <> [].
Proof.
  intros H. destruct (trim query) as [|c tl] eqn:E; [contradiction|].
  pose proof (trim_head query E) as Hc.
  unfold split. cbn [split_from].
  assert (M : matchAt (Plus ws) [] (c :: tl) = None).
  { unfold matchAt, Plus, ws. rewrite m_Seq, m_Chr_cons, Hc. reflexivity. }
  rewrite M. apply split_from_nonempty_piece. discriminate.
Qed.

(** A query that is not blank and has no explicit syntax gets both
    variants. *)
Lemma fts_nonblank_two_variants (query : jsstring) :
  test EXPLICIT_FTS_SYNTAX (trim query) = false -> trim query <> [] ->
  fallback (buildFtsQueryVariants query) <> None.
Proof.
  intros Hx Hq. unfold buildFtsQueryVariants. rewrite Hx.
  pose proof (fts_pieces_of_nonblank query Hq) as Hp.
  destruct (filter nonEmpty (split (Plus ws) (trim query))) as [|p ps];
    [contradiction|].
  cbn [map fallback]. discriminate.
Qed.

(** ** Mixed-content flattener *)

(** C5, as stated, fails on markup that the second pass reassembles: the
    first application strips an empty paired element that sits inside
    another opening tag and so puts a paired element together, which a
    second application strips in turn. *)
Lemma flatten_reassembled_not_idempotent :
  flattenInlineElements (str "<<ins></ins>ins>y</ins>") = str "<ins>y</ins>"
  /\ flattenInlineElements (flattenInlineElements (str "<<ins></ins>ins>y</ins>"))
     = str "y".
Proof. split; vm_compute; reflexivity. Qed.

(** On a cross-reference nested in inserted text the first application
    pairs the opening tag of the outer element with the closing tag of the
    inner one and leaves inline markup behind, which a second application
    removes. *)
Lemma flatten_nested_not_idempotent :
  flattenInlineElements (str "<ins><ref href='x'>GDPR</ref></ins>")
  = str "<ref href='x'>GDPR</ins>"
  /\ flattenInlineElements
       (flattenInlineElements (str "<ins><ref href='x'>GDPR</ref></ins>"))
     = str "GDPR".
Proof. split; vm_compute; reflexivity. Qed.

(** C6, as stated, fails when the second pass assembles a self-closing
    element: a marker whose tag holds a paired element survives one
    application. *)
Lemma flatten_leaves_assembled_marker :
  flattenInlineElements (str "<marker <ins>x</ins>/>") = str "<marker x/>"
  /\ hasSelfClosing (flattenInlineElements (str "<marker <ins>x</ins>/>")) = true.
Proof. split; vm_compute; reflexivity. Qed.

(** A self-closing element whose attribute value holds a closing angle
    bracket is not one the patterns recognise: it is returned as it is. *)
Lemma flatten_keeps_unrecognised_noteRef :
  flattenInlineElements (str "<noteRef href='a>b'/>") = str "<noteRef href='a>b'/>"
  /\ hasSelfClosing (str "<noteRef href='a>b'/>") = false.
Proof. split; vm_compute; reflexivity. Qed.

(** ** Citation grammar: round trip *)

(** C2, as stated, fails for the pinpoint format: the formatted string
    carries neither title nor year, and the parser rejects it. *)
Lemma pinpoint_does_not_parse :
  canonical dpa_1_1_a = true
  /\ formatCitation dpa_1_1_a pinpoint = str "s. 1(1)(a)"
  /\ valid (parseCitation (formatCitation dpa_1_1_a pinpoint)) = false.
Proof. repeat split; vm_compute; reflexivity. Qed.

(** ** Tree walker *)

(** C1, as stated, fails: two sections with the same number and no
    identifier both emit a record with the reference "s1". *)
Lemma duplicate_provision_ref :
  map provision_ref (extractProvisions twoSectionsNumberedOne [] [])
  = [str "s1"; str "s1"]
  /\ ~ NoDup (map provision_ref (extractProvisions twoSectionsNumberedOne [] [])).
Proof.
  assert (E : map provision_ref (extractProvisions twoSectionsNumberedOne [] [])
              = [str "s1"; str "s1"]) by (vm_compute; reflexivity).
  split; [exact E|]. rewrite E. intros H. inversion H as [|? ? Hin _].
  apply Hin. left. reflexivity.
Qed.

(** C4, as stated, fails: the section that comes first in the document
    yields the last record, because parts are walked before sections. *)
Lemma part_records_before_earlier_section :
  map provision_ref (documentOrder sectionBeforePart) = [str "s1"; str "s2"]
  /\ map provision_ref (extractProvisions sectionBeforePart [] []) = [str "s2"; str "s1"]
  /\ extractProvisions sectionBeforePart [] [] <> documentOrder sectionBeforePart.
Proof.
  assert (E1 : map provision_ref (documentOrder sectionBeforePart)
               = [str "s1"; str "s2"]) by (vm_compute; reflexivity).
  assert (E2 : map provision_ref (extractProvisions sectionBeforePart [] [])
               = [str "s2"; str "s1"]) by (vm_compute; reflexivity).
  repeat split; auto.
  intros H. rewrite H, E1 in E2. discriminate.
Qed.

(** ** Tree walker: the order of the records *)

Lemma jsval_ind2 (P : jsval -> Prop) :
  P JUndefined -> P JNull -> (forall b, P (JBool b)) -> (forall n, P (JNum n)) ->
  (forall s, P (JStr s)) ->
  (forall l, Forall P l -> P (JArr l)) ->
  (forall fs, Forall (fun kv => P (snd kv)) fs -> P (JObj fs)) ->
  forall v, P v.
Proof.
  intros HU HN HB HNum HS HA HO.
  refine (fix F (v : jsval) : P v :=
            match v with
            | JUndefined => HU
            | JNull => HN
            | JBool b => HB b
            | JNum n => HNum n
            | JStr s => HS s
            | JArr l =>
                HA l ((fix G (l : list jsval) : Forall P l :=
                         match l with
                         | [] => Forall_nil _
                         | x :: tl => Forall_cons x (F x) (G tl)
                         end) l)
            | JObj fs =>
                HO fs ((fix G (fs : list (jsstring * jsval))
                          : Forall (fun kv => P (snd kv)) fs :=
                          match fs with
                          | [] => Forall_nil _
                          | kv :: tl => Forall_cons kv (F (snd kv)) (G tl)
                          end) fs)
            end).
Qed.

Lemma onElements_all (P : jsval -> Prop) :
  (forall l, P (JArr l)) ->
  (forall v, (match v with JObj fs => Forall (fun kv => onElements P (snd kv)) fs
                         | _ => True end) -> P v) ->
  forall v, P v.
Proof.
  intros HA H v.
  assert (Q : onElements P v).
  { induction v using jsval_ind2; unfold onElements; try (split; [apply H|]; exact I).
    - split; [apply HA|]. rewrite Forall_forall in *. intros x Hx.
      apply (H0 x Hx).
    - split; [|exact I]. apply H. assumption. }
  apply Q.
Qed.

Lemma onElements_childList (P : jsval -> Prop) (v : jsval) :
  onElements P v -> Forall P (childList v).
Proof.
  intros [Hv Hl]. unfold childList. destruct (isTruthy v); [|constructor].
  destruct v; simpl; auto.
Qed.

Lemma fold_left_push (A B : Type) (body : B -> list A -> list A) (g : B -> list A) :
  forall l acc,
  Forall (fun el => forall acc, body el acc = acc ++ g el) l ->
  fold_left (fun acc el => body el acc) l acc = acc ++ flat_map g l.
Proof.
  induction l as [|x tl IH]; intros acc H; simpl.
  - rewrite app_nil_r. reflexivity.
  - inversion H as [|? ? Hx Htl]; subst. rewrite Hx, IH by assumption.
    rewrite app_assoc. reflexivity.
Qed.

Lemma eachElement_push (body : jsval -> list ParsedProvision -> list ParsedProvision)
    (g : jsval -> list ParsedProvision) (v : jsval) (acc : list ParsedProvision) :
  Forall (fun el => forall acc, body el acc = acc ++ g el) (childList v) ->
  eachElement v body acc = acc ++ flat_map g (childList v).
Proof.
  unfold eachElement, childList. destruct (isTruthy v); simpl.
  - intros H. destruct v; simpl in *;
      try (inversion H as [|? ? Hx _]; subst; rewrite Hx, app_nil_r; reflexivity).
    apply fold_left_push. assumption.
  - intros _. rewrite app_nil_r. reflexivity.
Qed.

Lemma forItems_childList (A : Type) (v : jsval) (f : jsval -> list A) :
  forItems v f = flat_map f (childList v).
Proof.
  unfold forItems, childList. destruct (isTruthy v); simpl; [|reflexivity].
  destruct v; simpl; rewrite ?app_nil_r; reflexivity.
Qed.

Lemma pushOwnRecord_push (el : jsval) (name : string) (acc : list ParsedProvision) :
  pushOwnRecord el name acc = acc ++ ownRecord name el.
Proof.
  unfold ownRecord, pushOwnRecord.
  destruct (nonEmpty (trim (extractContentText el))); simpl.
  - reflexivity.
  - rewrite app_nil_r. reflexivity.
Qed.

Lemma processSubsection_push num heading (sub : jsval) (acc : list ParsedProvision) :
  processSubsection num heading sub acc = acc ++ processSubsection num heading sub [].
Proof.
  unfold processSubsection. destruct (isObject sub); simpl.
  - destruct (nonEmpty (trim (extractContentText sub))); simpl.
    + reflexivity.
    + rewrite app_nil_r. reflexivity.
  - rewrite app_nil_r. reflexivity.
Qed.

Lemma processSection_push (section : jsval) (acc : list ParsedProvision) :
  processSection section acc = acc ++ sectionRecords section.
Proof.
  unfold processSection, sectionRecords. destruct (isObject section); simpl.
  - rewrite eachElement_push
      with (g := fun sub => processSubsection (extractText (getProp section "num"))
                              (extractText (getProp section "heading")) sub []).
    + rewrite pushOwnRecord_push, <- app_assoc. reflexivity.
    + apply Forall_forall. intros sub _ acc'. apply processSubsection_push.
  - rewrite app_nil_r. reflexivity.
Qed.

Lemma processSections_push (node : jsval) (acc : list ParsedProvision) ctx :
  processSections node acc ctx
  = acc ++ flat_map sectionRecords (childList (getProp node "section")).
Proof.
  unfold processSections. apply eachElement_push.
  apply Forall_forall. intros s _ acc'. apply processSection_push.
Qed.

Lemma extractProvisions_eq (node : jsval) (acc : list ParsedProvision) ctx :
  extractProvisions node acc ctx
  = processElements extractProvisions node "hcontainer"
      (processSections node
         (processElements extractProvisions node "chapter"
            (processElements extractProvisions node "part" acc ctx) ctx) ctx) ctx.
Proof. destruct node; reflexivity. Qed.

Lemma inWalkOrder_eq (A : Type) (own sect : jsval -> list A) fs :
  inWalkOrder own sect (JObj fs)
  = withField fs "part"
      (fun v => forItems v (fun el =>
         if isObject el then inWalkOrder own sect el else [])) []
    ++ withField fs "chapter"
      (fun v => forItems v (fun el =>
         if isObject el then inWalkOrder own sect el else [])) []
    ++ flat_map sect (childList (lookupField (str "section") fs))
    ++ withField fs "hcontainer"
      (fun v => forItems v (fun el =>
         if isObject el then own el ++ inWalkOrder own sect el else [])) [].
Proof. reflexivity. Qed.

Lemma processElements_push fs (name : string) (acc : list ParsedProvision) ctx :
  Forall (fun kv => onElements walked (snd kv)) fs ->
  processElements extractProvisions (JObj fs) name acc ctx
  = acc ++ withField fs name
             (fun v => forItems v (fun el =>
                if isObject el
                then (if String.eqb name "section" || String.eqb name "hcontainer"
                      then ownRecord name el else [])
                     ++ walkOrder el
                else [])) [].
Proof.
  unfold processElements. induction fs as [|[k v] tl IH]; intros H; simpl.
  - rewrite app_nil_r. reflexivity.
  - inversion H as [|? ? Hv Htl]; subst. destruct (streq k (str name)).
    + rewrite forItems_childList. apply eachElement_push.
      apply onElements_childList in Hv. simpl in Hv.
      rewrite Forall_forall in *. intros el Hel acc'.
      destruct (isObject el); simpl; [|rewrite app_nil_r; reflexivity].
      rewrite (Hv el Hel).
      destruct (String.eqb name "section" || String.eqb name "hcontainer").
      * rewrite pushOwnRecord_push, <- app_assoc. reflexivity.
      * reflexivity.
    + apply IH. assumption.
Qed.

Lemma extractProvisions_walkOrder (node : jsval) : walked node.
Proof.
  induction node using onElements_all.
  - intros acc ctx. rewrite extractProvisions_eq. simpl.
    rewrite app_nil_r. reflexivity.
  - intros acc ctx. rewrite extractProvisions_eq.
    destruct node; try (simpl; rewrite app_nil_r; reflexivity).
    rewrite processSections_push.
    rewrite !processElements_push by assumption.
    unfold walkOrder at 4. rewrite inWalkOrder_eq. simpl.
    rewrite <- !app_assoc. reflexivity.
Qed.

(** C4, amended.  The walker appends to the records it is given the
    records of the tree in a fixed order: for every node first what lies
    below its part children, then below its chapter children, then its
    section children, then its hcontainer children, the children of one
    name in array order; a section contributes its own record and then the
    records of its sub-units in array order, an hcontainer its own record
    and then what lies below it. *)
Theorem extractProvisions_order (node : jsval) (acc : list ParsedProvision)
    (ctx : jsstring) :
  extractProvisions node acc ctx
  = acc ++ inWalkOrder (ownRecord "hcontainer") sectionRecords node
  /\ (forall section acc',
        processSection section acc'
        = acc' ++ (if isObject section
                   then ownRecord "section" section ++ subsectionRecords section
                   else [])).
Proof.
  split.
  - apply extractProvisions_walkOrder.
  - intros section acc'. apply processSection_push.
Qed.

(** ** Tree walker: provision references *)

Lemma map_flat_map (A B C : Type) (f : B -> C) (g : A -> list B) (g' : A -> list C) l :
  Forall (fun x => map f (g x) = g' x) l ->
  map f (flat_map g l) = flat_map g' l.
Proof.
  induction 1 as [|x tl Hx _ IH]; simpl; [reflexivity|].
  rewrite map_app, Hx, IH. reflexivity.
Qed.

Lemma map_withField_items (A B : Type) (f : A -> B)
    (g : jsval -> list A) (g' : jsval -> list B) (P : jsval -> Prop) fs (name : string) :
  (forall el, P el -> map f (g el) = g' el) ->
  Forall (fun kv => onElements P (snd kv)) fs ->
  map f (withField fs name (fun v => forItems v g) [])
  = withField fs name (fun v => forItems v g') [].
Proof.
  intros Hg. induction 1 as [|[k v] tl Hv _ IH]; simpl; [reflexivity|].
  destruct (streq k (str name)); [|exact IH].
  rewrite !forItems_childList. apply map_flat_map.
  apply onElements_childList in Hv. simpl in Hv.
  rewrite Forall_forall in *. intros el Hel. apply Hg. apply Hv. assumption.
Qed.

Lemma inWalkOrder_map (A B : Type) (f : A -> B)
    (own sect : jsval -> list A) (own' sect' : jsval -> list B) :
  (forall el, map f (own el) = own' el) ->
  (forall el, map f (sect el) = sect' el) ->
  forall node, map f (inWalkOrder own sect node) = inWalkOrder own' sect' node.
Proof.
  intros Hown Hsect node. induction node using onElements_all; [reflexivity|].
  destruct node; try reflexivity.
  rewrite !inWalkOrder_eq, !map_app.
  rewrite (map_withField_items (fs := fields)
             (P := fun el => map f (inWalkOrder own sect el) = inWalkOrder own' sect' el)
             f _ (fun el => if isObject el then inWalkOrder own' sect' el else []) "part"%string)
    by (try assumption; intros el Hel; destruct (isObject el); auto).
  rewrite (map_withField_items (fs := fields)
             (P := fun el => map f (inWalkOrder own sect el) = inWalkOrder own' sect' el)
             f _ (fun el => if isObject el then inWalkOrder own' sect' el else []) "chapter"%string)
    by (try assumption; intros el Hel; destruct (isObject el); auto).
  rewrite (map_withField_items (fs := fields)
             (P := fun el => map f (inWalkOrder own sect el) = inWalkOrder own' sect' el)
             f _ (fun el => if isObject el
                              then own' el ++ inWalkOrder own' sect' el else []) "hcontainer"%string)
    by (try assumption; intros el Hel; destruct (isObject el); auto;
        rewrite map_app, Hown, Hel; reflexivity).
  rewrite (map_flat_map f sect sect') by (apply Forall_forall; intros; apply Hsect).
  reflexivity.
Qed.

Lemma ownRecord_ref (name : string) (el : jsval) :
  map provision_ref (ownRecord name el) = map refOf (ownSource name el).
Proof.
  unfold ownRecord, pushOwnRecord, ownSource, hasText.
  destruct (nonEmpty (trim (extractContentText el))); reflexivity.
Qed.

Lemma sectionRecords_ref (section : jsval) :
  map provision_ref (sectionRecords section) = map refOf (sectionSources section).
Proof.
  unfold sectionRecords, sectionSources, subsectionRecords.
  destruct (isObject section); [|reflexivity].
  rewrite !map_app, ownRecord_ref. f_equal.
  rewrite (map_flat_map provision_ref _
             (fun sub => map refOf (if isObject sub then ownSource "subsection" sub else []))).
  - symmetry. apply map_flat_map. apply Forall_forall. reflexivity.
  - apply Forall_forall. intros sub _. unfold processSubsection, ownSource, hasText.
    destruct (isObject sub); [|reflexivity]. simpl.
    destruct (nonEmpty (trim (extractContentText sub))); reflexivity.
Qed.

(** The references of the records are those of the nodes that emit one,
    in the same order: no record is dropped or merged. *)
Lemma extractProvisions_refs (node : jsval) ctx :
  map provision_ref (extractProvisions node [] ctx) = map refOf (refSources node).
Proof.
  rewrite extractProvisions_walkOrder. simpl. unfold walkOrder, refSources.
  rewrite (inWalkOrder_map provision_ref _ _
             (fun el => map refOf (ownSource "hcontainer" el))
             (fun el => map refOf (sectionSources el)))
    by (intros; auto using ownRecord_ref, sectionRecords_ref).
  symmetry. apply inWalkOrder_map; reflexivity.
Qed.

(** ** The matcher on literals and on runs of one character set *)

Lemma str_String (c : ascii) (w : string) : str (String c w) = chr c :: str w.
Proof. reflexivity. Qed.

Lemma m_Lit1 (c : ascii) pre rst cs (k : cont) :
  m (Lit1 c) (MState pre (chr c :: rst) cs) k = k (MState (chr c :: pre) rst cs).
Proof. unfold Lit1. rewrite m_Chr_cons, N.eqb_refl. reflexivity. Qed.

Lemma m_Lit_prefix (w : string) :
  forall pre rst cs (k : cont),
  m (Lit w) (MState pre (str w ++ rst) cs) k = k (MState (rev (str w) ++ pre) rst cs).
Proof.
  induction w as [|c w IH]; intros pre rst cs k.
  - reflexivity.
  - rewrite str_String. cbn [app rev]. rewrite <- app_assoc. cbn [app].
    destruct w as [|c' w'].
    + apply m_Lit1.
    + change (Lit (String c (String c' w')))
        with (Seq (Lit1 c) (Lit (String c' w'))).
      rewrite m_Seq, m_Lit1. apply IH.
Qed.

Lemma m_Lit_mismatch (c : ascii) (w : string) pre rst cs (k : cont) :
  match rst with x :: _ => N.eqb (chr c) x = false | [] => True end ->
  m (Lit (String c w)) (MState pre rst cs) k = None.
Proof.
  intros H. destruct w as [|c' w'].
  - unfold Lit, LitWith, Lit1. destruct rst as [|x tl]; [reflexivity|].
    rewrite m_Chr_cons, H. reflexivity.
  - change (Lit (String c (String c' w'))) with (Seq (Lit1 c) (Lit (String c' w'))).
    rewrite m_Seq. unfold Lit1. destruct rst as [|x tl]; [reflexivity|].
    rewrite m_Chr_cons, H. reflexivity.
Qed.

Lemma greedy_try_boundary (p : char -> bool) (k : cont) pre v cs :
  boundary p v -> greedy_try p k pre v cs = k (MState pre v cs).
Proof. destruct v as [|c tl]; simpl; [reflexivity|]. intros ->. reflexivity. Qed.

(** A greedy run takes the whole run when what follows then succeeds. *)
Lemma greedy_try_max (p : char -> bool) (k : cont) cs v x :
  boundary p v ->
  forall u pre,
  forallb p u = true ->
  k (MState (rev u ++ pre) v cs) = Some x ->
  greedy_try p k pre (u ++ v) cs = Some x.
Proof.
  intros Hv. induction u as [|c u IH]; intros pre Hu Hk.
  - simpl in *. rewrite greedy_try_boundary; assumption.
  - simpl in Hu. apply andb_true_iff in Hu as [Hc Hu].
    cbn [app greedy_try]. rewrite Hc.
    rewrite (IH (c :: pre) Hu); [reflexivity|].
    cbn [rev] in Hk. rewrite <- app_assoc in Hk. exact Hk.
Qed.

(** A greedy run fails when what follows fails after every prefix of it. *)
Lemma greedy_try_none (p : char -> bool) (k : cont) cs v :
  boundary p v ->
  forall u pre,
  forallb p u = true ->
  (forall u1 u2, u = u1 ++ u2 -> k (MState (rev u1 ++ pre) (u2 ++ v) cs) = None) ->
  greedy_try p k pre (u ++ v) cs = None.
Proof.
  intros Hv. induction u as [|c u IH]; intros pre Hu Hk.
  - simpl. rewrite greedy_try_boundary by assumption. apply (Hk [] []). reflexivity.
  - simpl in Hu. apply andb_true_iff in Hu as [Hc Hu].
    cbn [app greedy_try]. rewrite Hc.
    rewrite (IH (c :: pre) Hu).
    + simpl. apply (Hk [] (c :: u)). reflexivity.
    + intros u1 u2 E. specialize (Hk (c :: u1) u2). cbn [rev app] in Hk.
      rewrite <- app_assoc in Hk. apply Hk. rewrite E. reflexivity.
Qed.

Lemma firstn_consumed (A : Type) (u v : list A) :
  firstn (length (u ++ v) - length v) (u ++ v) = u.
Proof.
  rewrite length_app, Nat.add_sub.
  rewrite firstn_app, Nat.sub_diag, firstn_all. simpl. apply app_nil_r.
Qed.

Lemma search_eq (r : regex) pre rst :
  search r pre rst
  = match matchAt r pre rst with
    | Some x => Some x
    | None => match rst with
              | [] => None
              | c :: tl => search r (c :: pre) tl
              end
    end.
Proof. destruct rst; reflexivity. Qed.

Lemma orelse_l a b x : a = Some x -> orelse a b = Some x.
Proof. intros ->. reflexivity. Qed.

Lemma orelse_r a b : a = None -> orelse a b = b tt.
Proof. intros ->. reflexivity. Qed.

Lemma m_Eol_nil pre cs (k : cont) : m Eol (MState pre [] cs) k = k (MState pre [] cs).
Proof. reflexivity. Qed.

Lemma m_Eol_cons pre c tl cs (k : cont) : m Eol (MState pre (c :: tl) cs) k = None.
Proof. reflexivity. Qed.

Lemma m_star_run (p : char -> bool) (k : cont) cs u v pre x :
  forallb p u = true -> boundary p v ->
  k (MState (rev u ++ pre) v cs) = Some x ->
  m (Star true (Chr p)) (MState pre (u ++ v) cs) k = Some x.
Proof. intros. rewrite m_star_greedy. apply greedy_try_max; assumption. Qed.

Lemma isDigits_forallb (n : jsstring) : isDigits n = true -> forallb isDigit n = true.
Proof. unfold isDigits. intros H. apply andb_true_iff in H. apply H. Qed.

Lemma isDigits_nonEmpty (n : jsstring) : isDigits n = true -> nonEmpty n = true.
Proof. unfold isDigits. intros H. apply andb_true_iff in H. apply H. Qed.

Lemma m_plus_run (p : char -> bool) (k : cont) cs u v pre x :
  nonEmpty u = true -> forallb p u = true ->
  boundary p v ->
  k (MState (rev u ++ pre) v cs) = Some x ->
  m (Plus (Chr p)) (MState pre (u ++ v) cs) k = Some x.
Proof.
  intros Hne Hall Hv Hk. destruct u as [|c u]; [discriminate|].
  simpl in Hall. apply andb_true_iff in Hall as [Hc Hall].
  unfold Plus. rewrite m_Seq. cbn [app]. rewrite m_Chr_cons, Hc.
  apply m_star_run; try assumption.
  cbn [rev] in Hk. rewrite <- app_assoc in Hk. exact Hk.
Qed.

Lemma m_plus_run_end (p : char -> bool) (k : cont) cs u pre x :
  nonEmpty u = true -> forallb p u = true ->
  k (MState (rev u ++ pre) [] cs) = Some x ->
  m (Plus (Chr p)) (MState pre u cs) k = Some x.
Proof.
  intros Hne Hu Hk. rewrite <- (app_nil_r u).
  apply m_plus_run; rewrite ?app_nil_r; try assumption; exact I.
Qed.

Lemma m_plus_none (p : char -> bool) (k : cont) cs u v pre :
  forallb p u = true -> boundary p v ->
  (forall u1 u2, u = u1 ++ u2 -> k (MState (rev u1 ++ pre) (u2 ++ v) cs) = None) ->
  m (Plus (Chr p)) (MState pre (u ++ v) cs) k = None.
Proof.
  intros Hu Hv Hk. unfold Plus. rewrite m_Seq.
  destruct u as [|c u].
  - cbn [app]. destruct v as [|c v]; [rewrite m_Chr_nil; reflexivity|].
    rewrite m_Chr_cons. simpl in Hv. rewrite Hv. reflexivity.
  - simpl in Hu. apply andb_true_iff in Hu as [Hc Hu].
    cbn [app]. rewrite m_Chr_cons, Hc, m_star_greedy.
    apply greedy_try_none; try assumption.
    intros u1 u2 E. specialize (Hk (c :: u1) u2). cbn [rev app] in Hk.
    rewrite <- app_assoc in Hk. apply Hk. rewrite E. reflexivity.
Qed.

Lemma search_no_start (c : ascii) (w : string) (r : regex) :
  forall rst pre,
  forallb (fun x => negb (N.eqb (chr c) x)) rst = true ->
  search (Seq (Lit (String c w)) r) pre rst = None.
Proof.
  induction rst as [|x tl IH]; intros pre H; rewrite search_eq; unfold matchAt;
    rewrite m_Seq.
  - rewrite m_Lit_mismatch by exact I. reflexivity.
  - simpl in H. apply andb_true_iff in H as [Hx Htl].
    rewrite m_Lit_mismatch by (cbv iota; apply negb_true_iff; exact Hx).
    apply IH. assumption.
Qed.

(** ** Provision references from identifiers *)


Lemma digits_not (c : ascii) (n : jsstring) :
  isDigit (chr c) = false ->
  forallb isDigit n = true ->
  forallb (fun x => negb (N.eqb (chr c) x)) n = true.
Proof.
  intros Hc Hn. rewrite forallb_forall in *. intros x Hx.
  specialize (Hn x Hx). destruct (N.eqb_spec (chr c) x) as [E|]; [|reflexivity].
  rewrite E in Hc. congruence.
Qed.

Lemma section_eid_match (n : jsstring) :
  isDigits n = true ->
  exists x, exec SECTION_EID (str "section-" ++ n) = Some x /\ capture 1 x = n.
Proof.
  intros Hn. unfold exec. rewrite search_eq. unfold matchAt, SECTION_EID, SeqL, digit.
  rewrite m_Seq, m_Lit_prefix, m_Seq, m_Group.
  erewrite m_plus_run_end;
    [| apply isDigits_nonEmpty; exact Hn | apply isDigits_forallb; exact Hn | reflexivity ].
  eexists. split; [reflexivity|].
  unfold capture, group. cbn [m_end caps lookupCap find fst snd Nat.eqb rest length].
  rewrite Nat.sub_0_r. apply firstn_all.
Qed.

Lemma subsection_eid_no_section_match (n n' : jsstring) :
  isDigits n = true -> isDigits n' = true ->
  exec SECTION_EID (str "section-" ++ n ++ str "-" ++ n') = None.
Proof.
  intros Hn Hn'. unfold exec. rewrite search_eq. unfold matchAt, SECTION_EID, SeqL, digit.
  rewrite m_Seq, m_Lit_prefix, m_Seq, m_Group.
  rewrite m_plus_none.
  - cbn [app str map list_ascii_of_string].
    apply (search_no_start "s" "ection-").
    cbn [forallb]. rewrite forallb_app. cbn [forallb].
    rewrite !(digits_not "s") by auto using isDigits_forallb. reflexivity.
  - apply isDigits_forallb. assumption.
  - reflexivity.
  - intros u1 u2 _. cbn [rest]. destruct u2; reflexivity.
Qed.

Lemma subsection_eid_match (n n' : jsstring) :
  isDigits n = true -> isDigits n' = true ->
  exists x, exec SUBSECTION_EID (str "section-" ++ n ++ str "-" ++ n') = Some x
            /\ capture 1 x = n /\ capture 2 x = n'.
Proof.
  intros Hn Hn'. unfold exec. rewrite search_eq. unfold matchAt, SUBSECTION_EID, SeqL, digit.
  rewrite m_Seq, m_Lit_prefix, m_Seq, m_Group.
  erewrite m_plus_run;
    [| apply isDigits_nonEmpty; exact Hn | apply isDigits_forallb; exact Hn | reflexivity | ].
  2:{ cbv beta. cbn [rest before caps]. rewrite m_Seq.
      change (str "-" ++ n') with (chr "-" :: n'). rewrite m_Lit1, m_Seq, m_Group.
      apply m_plus_run_end;
        [apply isDigits_nonEmpty; exact Hn' | apply isDigits_forallb; exact Hn'
        | reflexivity]. }
  eexists. split; [reflexivity|].
  unfold capture, group. cbn [m_end caps lookupCap find fst snd Nat.eqb rest length].
  rewrite Nat.sub_0_r, firstn_all. split; [|reflexivity].
  apply (firstn_consumed n (str "-" ++ n')).
Qed.

Lemma startsWith_app (p s : jsstring) :
  startsWith p s = true -> s = p ++ skipn (length p) s.
Proof.
  revert s. induction p as [|x p IH]; intros s H; simpl in *; [reflexivity|].
  destruct s as [|y s]; [discriminate|].
  apply andb_true_iff in H as [Hxy Hp]. apply N.eqb_eq in Hxy. subst y.
  simpl. f_equal. apply IH. assumption.
Qed.

Lemma takeWhile_app (p : char -> bool) (s : jsstring) :
  s = takeWhile p s ++ skipn (length (takeWhile p s)) s.
Proof.
  induction s as [|c s IH]; simpl; [reflexivity|].
  destruct (p c); simpl; [f_equal; apply IH | reflexivity].
Qed.

Lemma takeWhile_all (p : char -> bool) (s : jsstring) :
  forallb p (takeWhile p s) = true.
Proof.
  induction s as [|c s IH]; simpl; [reflexivity|].
  destruct (p c) eqn:E; simpl; [rewrite E; exact IH | reflexivity].
Qed.

Lemma sectionEidParts_shape (e n : jsstring) (o : option jsstring) :
  sectionEidParts e = Some (n, o) ->
  isDigits n = true
  /\ match o with
     | None => e = str "section-" ++ n
     | Some n' => isDigits n' = true /\ e = str "section-" ++ n ++ str "-" ++ n'
     end.
Proof.
  unfold sectionEidParts.
  destruct (startsWith (str "section-") e) eqn:Hs; [|discriminate].
  apply startsWith_app in Hs. change (length (str "section-")) with 8 in Hs.
  pose proof (takeWhile_app isDigit (skipn 8 e)) as Ht.
  pose proof (takeWhile_all isDigit (skipn 8 e)) as Hd.
  destruct (takeWhile isDigit (skipn 8 e)) as [|d ds] eqn:En; [discriminate|].
  destruct (skipn (length (d :: ds)) (skipn 8 e)) as [|c r'] eqn:Er.
  - intros H. injection H as <- <-. split.
    + unfold isDigits. rewrite Hd. reflexivity.
    + rewrite Hs at 1. rewrite Ht, app_nil_r. reflexivity.
  - destruct (N.eqb c (chr "-") && nonEmpty r' && forallb isDigit r') eqn:Ec;
      [|discriminate].
    apply andb_true_iff in Ec as [Ec Hr']. apply andb_true_iff in Ec as [Ec Hne].
    apply N.eqb_eq in Ec. subst c.
    intros H. injection H as <- <-. split; [|split].
    + unfold isDigits. rewrite Hd. reflexivity.
    + unfold isDigits. rewrite Hne, Hr'. reflexivity.
    + rewrite Hs at 1. rewrite Ht. reflexivity.
Qed.

Lemma nonEmpty_app_l (a b : jsstring) : nonEmpty a = true -> nonEmpty (a ++ b) = true.
Proof. destruct a; [discriminate|reflexivity]. Qed.

Lemma buildProvisionRef_eid (e n : jsstring) (o : option jsstring)
    (kind : string) (num : option jsstring) :
  sectionEidParts e = Some (n, o) ->
  buildProvisionRef e kind num
  = match o with
    | None => str "s" ++ n
    | Some n' => str "s" ++ n ++ str "(" ++ n' ++ str ")"
    end.
Proof.
  intros H. apply sectionEidParts_shape in H as [Hn Ho].
  unfold buildProvisionRef. destruct o as [n'|].
  - destruct Ho as [Hn' ->]. rewrite nonEmpty_app_l by reflexivity.
    rewrite subsection_eid_no_section_match by assumption.
    destruct (subsection_eid_match n n' Hn Hn') as (x & -> & -> & ->).
    reflexivity.
  - subst e. rewrite nonEmpty_app_l by reflexivity.
    destruct (section_eid_match n Hn) as (x & -> & ->). reflexivity.
Qed.

Lemma digit_run_unique (n n' r r' : jsstring) (c c' : char) :
  forallb isDigit n = true -> forallb isDigit n' = true ->
  isDigit c = false -> isDigit c' = false ->
  n ++ c :: r = n' ++ c' :: r' -> n = n' /\ r = r'.
Proof.
  revert n'. induction n as [|d n IH]; intros [|d' n'] Hn Hn' Hc Hc' E; simpl in *.
  - injection E as _ E. auto.
  - injection E as E _. subst d'. apply andb_true_iff in Hn' as [Hd _]. congruence.
  - injection E as E _. subst d. apply andb_true_iff in Hn as [Hd _]. congruence.
  - injection E as E1 E2. subst d'.
    apply andb_true_iff in Hn as [_ Hn]. apply andb_true_iff in Hn' as [_ Hn'].
    destruct (IH n' Hn Hn' Hc Hc' E2) as [-> ->]. auto.
Qed.

Lemma digit_run_no_paren (n n' r : jsstring) :
  forallb isDigit n = true -> forallb isDigit n' = true ->
  n = n' ++ str "(" ++ r -> False.
Proof.
  intros Hn Hn' E. rewrite E, forallb_app in Hn.
  apply andb_true_iff in Hn as [_ Hn]. discriminate.
Qed.

(** On identifiers of the pattern the reference determines the
    identifier. *)
Lemma refOf_injective (x y : RefSource) :
  hasSectionEid x = true -> hasSectionEid y = true ->
  refOf x = refOf y -> src_eId x = src_eId y.
Proof.
  unfold hasSectionEid, refOf. intros Hx Hy.
  destruct (sectionEidParts (src_eId x)) as [[n o]|] eqn:Ex; [|discriminate].
  destruct (sectionEidParts (src_eId y)) as [[n' o']|] eqn:Ey; [|discriminate].
  rewrite (@buildProvisionRef_eid _ _ _ (src_kind x) (src_num x) Ex).
  rewrite (@buildProvisionRef_eid _ _ _ (src_kind y) (src_num y) Ey).
  apply sectionEidParts_shape in Ex as [Hn Ho].
  apply sectionEidParts_shape in Ey as [Hn' Ho'].
  apply isDigits_forallb in Hn. apply isDigits_forallb in Hn'.
  destruct o as [a|], o' as [a'|].
  - destruct Ho as [Ha ->], Ho' as [Ha' ->]. intros E. injection E as E.
    apply (digit_run_unique n n') in E as [-> E]; try assumption; try reflexivity.
    apply app_inv_tail in E. subst a'. reflexivity.
  - intros E. injection E as E. symmetry in E.
    destruct (@digit_run_no_paren _ _ _ Hn' Hn E).
  - intros E. injection E as E.
    destruct (@digit_run_no_paren _ _ _ Hn Hn' E).
  - intros E. injection E as ->. rewrite Ho, Ho'. reflexivity.
Qed.

Lemma NoDup_map_transfer (A B C : Type) (f : A -> B) (g : A -> C) (l : list A) :
  (forall x y, In x l -> In y l -> f x = f y -> g x = g y) ->
  NoDup (map g l) -> NoDup (map f l).
Proof.
  induction l as [|a l IH]; intros Hinj Hg; simpl in *; [constructor|].
  inversion Hg as [|? ? Hnotin Hnd]; subst. constructor.
  - intros Hin. apply in_map_iff in Hin as (y & Hy & Hyl).
    apply Hnotin. apply in_map_iff. exists y. split; [|assumption].
    apply Hinj; auto.
  - apply IH; [|assumption]. intros x y Hx Hy. apply Hinj; auto.
Qed.

(** C1, amended.  The walker keeps one record for every node that emits
    one, in the order of the walk, also when two of them derive the same
    reference: the references of the output are those of the emitting
    nodes.  They are pairwise distinct when the emitting nodes carry
    pairwise distinct identifiers of the pattern of the markup dialect
    (section-N, section-N-M). *)
Theorem provision_refs_of_emitting_nodes (node : jsval) (ctx : jsstring) :
  map provision_ref (extractProvisions node [] ctx) = map refOf (refSources node)
  /\ (forallb hasSectionEid (refSources node) = true ->
      NoDup (map src_eId (refSources node)) ->
      NoDup (map provision_ref (extractProvisions node [] ctx))).
Proof.
  split; [apply extractProvisions_refs|].
  intros Hall Hnd. rewrite extractProvisions_refs.
  apply (NoDup_map_transfer refOf src_eId); [|assumption].
  rewrite forallb_forall in Hall. intros x y Hx Hy.
  apply refOf_injective; auto.
Qed.

Lemma provision_refs_of_emitting_nodes_witness :
  forallb hasSectionEid (refSources twoIdentifiedSections) = true
  /\ NoDup (map src_eId (refSources twoIdentifiedSections))
  /\ NoDup (map provision_ref (extractProvisions twoIdentifiedSections [] [])).
Proof.
  assert (H1 : forallb hasSectionEid (refSources twoIdentifiedSections) = true)
    by (vm_compute; reflexivity).
  assert (H2 : NoDup (map src_eId (refSources twoIdentifiedSections))).
  { assert (E : map src_eId (refSources twoIdentifiedSections)
                = [str "section-1"; str "section-1-1"; str "section-2"])
      by (vm_compute; reflexivity).
    rewrite E. repeat constructor; simpl; intuition discriminate. }
  split; [exact H1|]. split; [exact H2|].
  exact (proj2 (provision_refs_of_emitting_nodes twoIdentifiedSections []) H1 H2).
Defined.

(** ** Citation grammar: the round trip *)

Lemma fourDigitYear_range :
  forallb fourDigitYear (map N.of_nat (seq 1000 (90 * 100))) = true.
Proof. vm_compute. reflexivity. Qed.

Lemma year_string (y : Z) :
  (1000 <= y <= 9999)%Z ->
  exists d1 d2 d3 d4,
    numberToString (Num y) = [d1; d2; d3; d4]
    /\ isDigit d1 = true /\ isDigit d2 = true /\ isDigit d3 = true /\ isDigit d4 = true
    /\ parseInt [d1; d2; d3; d4] = Num y.
Proof.
  intros Hy.
  assert (H : fourDigitYear (Z.to_N y) = true).
  { pose proof fourDigitYear_range as R. rewrite forallb_forall in R. apply R.
    apply in_map_iff. exists (Z.to_nat y). split.
    - rewrite <- Z_N_nat, N2Nat.id. reflexivity.
    - apply in_seq. lia. }
  unfold fourDigitYear in H.
  assert (E : numberToString (Num y) = natToString (Z.to_N y)).
  { unfold numberToString. destruct y; try reflexivity. lia. }
  rewrite E. destruct (natToString (Z.to_N y)) as [|d1 [|d2 [|d3 [|d4 [|? ?]]]]];
    try discriminate.
  apply andb_true_iff in H as [H H5]. apply andb_true_iff in H as [H H4].
  apply andb_true_iff in H as [H H3]. apply andb_true_iff in H as [H1 H2].
  exists d1, d2, d3, d4. repeat split; auto.
  destruct (parseInt [d1; d2; d3; d4]) as [|z]; [discriminate|].
  apply Z.eqb_eq in H5. rewrite H5. f_equal. lia.
Qed.

Lemma trimStart_id (c : char) (s : jsstring) :
  isWhiteSpace c = false -> trimStart (c :: s) = c :: s.
Proof. intros H. simpl. rewrite H. reflexivity. Qed.

Lemma trim_id (c z : char) (s : jsstring) :
  isWhiteSpace c = false -> isWhiteSpace z = false ->
  trim (c :: s ++ [z]) = c :: s ++ [z].
Proof.
  intros Hc Hz. unfold trim, trimEnd. rewrite trimStart_id by assumption.
  change (c :: s ++ [z]) with ((c :: s) ++ [z]). rewrite rev_app_distr.
  cbn [rev app]. rewrite trimStart_id by assumption.
  change (z :: rev s ++ [c]) with ([z] ++ rev (c :: s)).
  rewrite rev_app_distr, rev_involutive. reflexivity.
Qed.

Lemma plainTitle_shape (t : jsstring) :
  plainTitle t = true ->
  exists c, exists a z,
    t = c :: List.tl t /\ t = a ++ [z]
    /\ isWhiteSpace c = false /\ N.eqb c (chr ",") = false
    /\ isWhiteSpace z = false
    /\ forallb (fun x => negb (isLineTerminator x)) t = true.
Proof.
  unfold plainTitle. destruct t as [|c t']; [discriminate|].
  intros H. apply andb_true_iff in H as [H H4]. apply andb_true_iff in H as [H H3].
  apply andb_true_iff in H as [H1 H2].
  apply negb_true_iff in H1, H2, H3.
  exists c.
  destruct (@exists_last _ (c :: t')) as (a & z & E); [discriminate|].
  exists a, z. rewrite E in H3. rewrite last_last in H3.
  repeat split; auto.
Qed.

(** A lazy run stops at the first length after which what follows
    succeeds. *)
Lemma lazy_try_first (p : char -> bool) (k : cont) cs v x :
  forall u pre,
  forallb p u = true ->
  (forall u1 u2, u = u1 ++ u2 -> u2 <> [] ->
     k (MState (rev u1 ++ pre) (u2 ++ v) cs) = None) ->
  k (MState (rev u ++ pre) v cs) = Some x ->
  lazy_try p k pre (u ++ v) cs = Some x.
Proof.
  induction u as [|c u IH]; intros pre Hu Hnone Hk.
  - simpl in *. destruct v; simpl; rewrite Hk; reflexivity.
  - simpl in Hu. apply andb_true_iff in Hu as [Hc Hu].
    cbn [app lazy_try].
    assert (H0 : k (MState pre (c :: u ++ v) cs) = None)
      by (apply (Hnone [] (c :: u)); [reflexivity|discriminate]).
    rewrite H0. cbn [orelse]. rewrite Hc. apply IH; try assumption.
    + intros u1 u2 E Hne. specialize (Hnone (c :: u1) u2). cbn [rev app] in Hnone.
      rewrite <- app_assoc in Hnone. apply Hnone; [rewrite E; reflexivity|assumption].
    + cbn [rev] in Hk. rewrite <- app_assoc in Hk. exact Hk.
Qed.

Lemma takeWhile_boundary (p : char -> bool) (s : jsstring) :
  boundary p (skipn (length (takeWhile p s)) s).
Proof.
  induction s as [|c s IH]; simpl; [exact I|].
  destruct (p c) eqn:E; simpl; [exact IH | exact E].
Qed.

Lemma takeWhile_length_le (p : char -> bool) (a b : jsstring) (z : char) :
  p z = false -> length (takeWhile p (a ++ z :: b)) <= length a.
Proof.
  intros Hz. induction a as [|c a IH]; simpl.
  - rewrite Hz. simpl. lia.
  - destruct (p c); simpl; lia.
Qed.

Ltac char_cases :=
  repeat match goal with
         | |- context [N.leb ?a ?b] => destruct (N.leb_spec a b); try lia
         | |- context [N.eqb ?a ?b] => destruct (N.eqb_spec a b); try lia
         end.

Lemma isDigit_range (c : char) : isDigit c = true -> (48 <= c <= 57)%N.
Proof.
  unfold isDigit, in_range. intros H. apply andb_true_iff in H as [Ha Hb].
  apply N.leb_le in Ha, Hb. lia.
Qed.

Lemma isLowerAZ_range (c : char) : isLowerAZ c = true -> (97 <= c <= 122)%N.
Proof.
  unfold isLowerAZ, in_range. intros H. apply andb_true_iff in H as [Ha Hb].
  apply N.leb_le in Ha, Hb. lia.
Qed.

Lemma digit_not_space (c : char) : isDigit c = true -> isWhiteSpace c = false.
Proof.
  intros H. apply isDigit_range in H. unfold isWhiteSpace, in_range.
  char_cases; reflexivity.
Qed.

Lemma four_digits_eol d1 d2 d3 d4 pre cs (k : cont) :
  isDigit d1 = true -> isDigit d2 = true -> isDigit d3 = true -> isDigit d4 = true ->
  m (Seq (Group 3 (Rep4 digit)) Eol) (MState pre [d1; d2; d3; d4] cs) k
  = k (MState (rev [d1; d2; d3; d4] ++ pre) [] ((3, [d1; d2; d3; d4]) :: cs)).
Proof.
  intros H1 H2 H3 H4. cbn [m Rep4 digit rest before caps].
  rewrite H1, H2, H3, H4. reflexivity.
Qed.

Lemma four_digits_eol_none rst pre cs (k : cont) :
  5 <= length rst ->
  m (Seq (Group 3 (Rep4 digit)) Eol) (MState pre rst cs) k = None.
Proof.
  intros H. destruct rst as [|c1 [|c2 [|c3 [|c4 [|c5 r]]]]]; simpl in H; try lia.
  cbn [m Rep4 digit rest before caps].
  destruct (isDigit c1), (isDigit c2), (isDigit c3), (isDigit c4); reflexivity.
Qed.

(** White space and a year cannot end the input while a character that is
    not white space is still ahead of the last five. *)
Lemma year_tail_none (a b : jsstring) (z : char) pre cs (k : cont) :
  isWhiteSpace z = false -> 5 <= length b ->
  m (Seq (Plus ws) (Seq (Group 3 (Rep4 digit)) Eol)) (MState pre (a ++ z :: b) cs) k
  = None.
Proof.
  intros Hz Hb. rewrite m_Seq. unfold ws.
  pose proof (takeWhile_app isWhiteSpace (a ++ z :: b)) as E.
  pose proof (takeWhile_boundary isWhiteSpace (a ++ z :: b)) as B.
  pose proof (takeWhile_all isWhiteSpace (a ++ z :: b)) as A.
  pose proof (@takeWhile_length_le isWhiteSpace a b z Hz) as L.
  set (w := takeWhile isWhiteSpace (a ++ z :: b)) in *.
  set (v := skipn (length w) (a ++ z :: b)) in *.
  assert (Lv : 6 <= length v).
  { assert (T : length (a ++ z :: b) = length w + length v)
      by (rewrite E at 1; apply length_app).
    rewrite length_app in T. simpl in T. lia. }
  rewrite E. apply m_plus_none; try assumption.
  intros u1 u2 _. apply four_digits_eol_none.
  cbn [rest]. rewrite length_app. lia.
Qed.

Lemma nonempty_suffix_last (A : Type) (u1 u2 a : list A) (z : A) :
  u1 ++ u2 = a ++ [z] -> u2 <> [] -> exists a', u2 = a' ++ [z].
Proof.
  intros E Hne. destruct (@exists_last _ u2 Hne) as (a' & z' & ->).
  rewrite app_assoc in E. apply app_inj_tail in E as [_ ->]. eauto.
Qed.

(** The title and the year at the end of a citation: the lazy title group
    takes the whole title. *)
Lemma title_year_tail (t : jsstring) d1 d2 d3 d4 pre cs (k : cont) x :
  plainTitle t = true ->
  isDigit d1 = true -> isDigit d2 = true -> isDigit d3 = true -> isDigit d4 = true ->
  k (MState (rev [d1; d2; d3; d4] ++ 32%N :: rev t ++ pre) []
       ((3, [d1; d2; d3; d4]) :: (2, t) :: cs)) = Some x ->
  m (SeqL [Group 2 (Seq dot (Star false dot)); Plus ws; Group 3 (Rep4 digit); Eol])
    (MState pre (t ++ 32%N :: [d1; d2; d3; d4]) cs) k = Some x.
Proof.
  intros Ht H1 H2 H3 H4 Hk.
  destruct (plainTitle_shape t Ht) as (c & a & z & Ec & Ea & Hc & _ & Hz & Hdot).
  set (Y := [d1; d2; d3; d4]) in *.
  cbn [SeqL]. rewrite m_Seq, m_Group. unfold dot at 1. rewrite m_Seq.
  rewrite Ec in Hdot |- * at 1. cbn [app]. simpl in Hdot.
  apply andb_true_iff in Hdot as [Hdc Hdt].
  rewrite m_Chr_cons, Hdc. unfold dot. rewrite m_star_lazy.
  apply lazy_try_first.
  - exact Hdt.
  - intros u1 u2 E Hne. cbv beta. cbn [rest before caps].
    assert (exists a', u2 = a' ++ [z]) as (a' & ->).
    { assert (E' : (c :: u1) ++ u2 = a ++ [z])
        by (cbn [app]; rewrite <- E, <- Ec; exact Ea).
      apply (@nonempty_suffix_last _ (c :: u1) u2 _ _ E' Hne). }
    rewrite <- app_assoc. cbn [app].
    apply year_tail_none; [assumption|]. simpl. lia.
  - cbv beta. cbn [rest before caps].
    rewrite m_Seq. change (32%N :: Y) with ([32%N] ++ Y).
    apply m_plus_run;
      [reflexivity | reflexivity | exact (digit_not_space d1 H1) |].
    cbv beta. unfold Y. rewrite four_digits_eol by assumption.
    rewrite (@firstn_consumed _ t ([32%N] ++ [d1; d2; d3; d4])).
    match goal with
    | |- k {| before := _ ++ ?b; rest := _; caps := _ |} = _ =>
        assert (Eb : b = 32%N :: rev t ++ pre)
    end.
    { rewrite Ec at 2. cbn [rev app]. rewrite <- app_assoc. reflexivity. }
    rewrite Eb. exact Hk.
Qed.

(** The steps of a match that ends the input, whatever lies before the
    current index. *)

Lemma ends_final pre cs : ends (Some (MState pre [] cs)) cs.
Proof. exists (MState pre [] cs). auto. Qed.

Lemma ends_orelse_l a b cs : ends a cs -> ends (orelse a b) cs.
Proof. intros (x & -> & H). exists x. auto. Qed.

Lemma ends_orelse_r a b cs : a = None -> ends (b tt) cs -> ends (orelse a b) cs.
Proof. intros -> H. exact H. Qed.

Lemma ends_chr (p : char -> bool) c tl pre cs (k : cont) CS :
  p c = true ->
  (forall pre', ends (k (MState pre' tl cs)) CS) ->
  ends (m (Chr p) (MState pre (c :: tl) cs) k) CS.
Proof. intros Hc H. rewrite m_Chr_cons, Hc. apply H. Qed.

Lemma ends_lit1 (c : ascii) tl pre cs (k : cont) CS :
  (forall pre', ends (k (MState pre' tl cs)) CS) ->
  ends (m (Lit1 c) (MState pre (chr c :: tl) cs) k) CS.
Proof. intros H. rewrite m_Lit1. apply H. Qed.

Lemma ends_plus (p : char -> bool) u v pre cs (k : cont) CS :
  nonEmpty u = true -> forallb p u = true -> boundary p v ->
  (forall pre', ends (k (MState pre' v cs)) CS) ->
  ends (m (Plus (Chr p)) (MState pre (u ++ v) cs) k) CS.
Proof.
  intros Hne Hu Hv H. destruct (H (rev u ++ pre)) as (x & Hx & Hr).
  exists x. split; [|exact Hr].
  apply m_plus_run; auto.
Qed.

Lemma ends_star_run (p : char -> bool) u v pre cs (k : cont) CS :
  forallb p u = true -> boundary p v ->
  (forall pre', ends (k (MState pre' v cs)) CS) ->
  ends (m (Star true (Chr p)) (MState pre (u ++ v) cs) k) CS.
Proof.
  intros Hu Hv H. destruct (H (rev u ++ pre)) as (x & Hx & Hr).
  exists x. split; [|exact Hr]. apply m_star_run; auto.
Qed.

Lemma ends_star_zero (a : regex) s (k : cont) CS :
  (forall K, m a s K = None) -> ends (k s) CS -> ends (m (Star true a) s k) CS.
Proof. intros Ha H. rewrite m_Star. cbv zeta. rewrite Ha. exact H. Qed.

(** ** The pieces of the citation patterns *)

Lemma lower_not_digit (l : char) : isLowerAZ l = true -> isDigit l = false.
Proof.
  intros H. apply isLowerAZ_range in H. unfold isDigit, in_range.
  char_cases; reflexivity.
Qed.

Lemma number_part_none (w : jsstring) pre cs (K : cont) :
  noNumberPart w = true ->
  m (SeqL [Lit1 "("; Plus digit; Lit1 ")"]) (MState pre w cs) K = None.
Proof.
  intros H. cbn [SeqL]. rewrite m_Seq. unfold Lit1 at 1.
  destruct w as [|c1 [|c2 w']].
  - apply m_Chr_nil.
  - rewrite m_Chr_cons. destruct (N.eqb (chr "(") c1); [|reflexivity].
    rewrite m_Seq. unfold Plus, digit. rewrite m_Seq, m_Chr_nil. reflexivity.
  - rewrite m_Chr_cons. unfold noNumberPart in H.
    destruct (N.eqb (chr "(") c1); [|reflexivity].
    cbn [negb orb] in H. apply negb_true_iff in H.
    rewrite m_Seq. unfold Plus, digit. rewrite m_Seq, m_Chr_cons, H. reflexivity.
Qed.

Lemma paren_part_none (body : regex) (w : jsstring) pre cs (K : cont) :
  noParen w = true ->
  m (Seq (Lit1 "(") body) (MState pre w cs) K = None.
Proof.
  intros H. rewrite m_Seq. unfold Lit1. destruct w as [|c w'].
  - apply m_Chr_nil.
  - rewrite m_Chr_cons. unfold noParen in H. apply negb_true_iff in H.
    rewrite H. reflexivity.
Qed.

Lemma noParen_noNumberPart (w : jsstring) : noParen w = true -> noNumberPart w = true.
Proof.
  destruct w as [|c1 [|c2 w']]; unfold noParen, noNumberPart; auto.
  intros ->. reflexivity.
Qed.

Lemma letter_part_noNumberPart (par : option jsstring) (v : jsstring) :
  optional isLetter par = true -> noParen v = true ->
  noNumberPart (parenPart par ++ v) = true.
Proof.
  intros Hp Hv. destruct par as [[|l [|? ?]]|]; simpl in Hp; try discriminate.
  - simpl. rewrite (lower_not_digit l Hp). reflexivity.
  - apply noParen_noNumberPart. exact Hv.
Qed.

Lemma parenPart_some (x w : jsstring) :
  parenPart (Some x) ++ w = chr "(" :: x ++ chr ")" :: w.
Proof. unfold parenPart. simpl. rewrite <- app_assoc. reflexivity. Qed.

(** The iteration of a star has consumed input. *)
Ltac progress_check :=
  match goal with
  | |- context [?a <? ?b] =>
      replace (a <? b) with true
        by (symmetry; apply Nat.ltb_lt; simpl; rewrite ?length_app; simpl; lia)
  end.

(** The greedy group of parenthesised numbers of the section token. *)
Lemma ends_number_parts (sub : option jsstring) (w : jsstring) pre cs (k : cont) CS :
  optional isDigits sub = true -> noNumberPart w = true ->
  (forall pre', ends (k (MState pre' w cs)) CS) ->
  ends (m (Star true (SeqL [Lit1 "("; Plus digit; Lit1 ")"]))
          (MState pre (parenPart sub ++ w) cs) k) CS.
Proof.
  intros Hs Hw H. destruct sub as [sub|].
  - rewrite parenPart_some. rewrite m_Star. cbv zeta. apply ends_orelse_l.
    cbn [SeqL]. rewrite m_Seq. apply ends_lit1. intros pre1. rewrite m_Seq.
    unfold digit. apply ends_plus.
    + apply isDigits_nonEmpty. exact Hs.
    + apply isDigits_forallb. exact Hs.
    + reflexivity.
    + intros pre2. apply ends_lit1. intros pre3. cbn [rest]. progress_check. apply ends_star_zero; [|apply H].
      intros K. apply number_part_none. exact Hw.
  - apply ends_star_zero; [|apply H].
    intros K. apply number_part_none. exact Hw.
Qed.

(** The greedy group of parenthesised letters of the section token. *)
Lemma ends_letter_parts (az : char -> bool) (par : option jsstring) (w : jsstring)
    pre cs (k : cont) CS :
  (forall l, isLowerAZ l = true -> az l = true) ->
  optional isLetter par = true -> noParen w = true ->
  (forall pre', ends (k (MState pre' w cs)) CS) ->
  ends (m (Star true (SeqL [Lit1 "("; Chr az; Lit1 ")"]))
          (MState pre (parenPart par ++ w) cs) k) CS.
Proof.
  intros Haz Hp Hw H. destruct par as [[|l [|? ?]]|]; simpl in Hp; try discriminate.
  - rewrite parenPart_some. rewrite m_Star. cbv zeta. apply ends_orelse_l.
    cbn [SeqL app]. rewrite m_Seq. apply ends_lit1. intros pre1. rewrite m_Seq.
    apply ends_chr; [apply Haz; exact Hp|].
    intros pre2. apply ends_lit1. intros pre3. cbn [rest].
    progress_check.
    apply ends_star_zero; [|apply H].
    intros K. apply paren_part_none. exact Hw.
  - apply ends_star_zero; [|apply H].
    intros K. apply paren_part_none. exact Hw.
Qed.

Lemma boundary_parts (sub par : option jsstring) (v : jsstring) :
  boundary isDigit v -> boundary isDigit (parenPart sub ++ parenPart par ++ v).
Proof.
  intros Hv. destruct sub as [sub|]; [reflexivity|].
  destruct par as [par|]; [reflexivity|]. exact Hv.
Qed.

(** The section token, captured as group 1. *)
Lemma ends_section_token (az : char -> bool) (s : jsstring) (sub par : option jsstring)
    (v : jsstring) pre cs (k : cont) CS :
  (forall l, isLowerAZ l = true -> az l = true) ->
  isDigits s = true -> optional isDigits sub = true -> optional isLetter par = true ->
  noParen v = true -> boundary isDigit v ->
  (forall pre',
     ends (k (MState pre' v ((1, s ++ parenPart sub ++ parenPart par) :: cs))) CS) ->
  ends (m (Group 1 (sectionToken az))
          (MState pre (s ++ parenPart sub ++ parenPart par ++ v) cs) k) CS.
Proof.
  intros Haz Hs Hsub Hpar Hv Bv H. rewrite m_Group. unfold sectionToken.
  cbn [SeqL]. rewrite m_Seq. unfold digit at 1. apply ends_plus.
  - apply isDigits_nonEmpty. exact Hs.
  - apply isDigits_forallb. exact Hs.
  - apply boundary_parts. exact Bv.
  - intros pre1. rewrite m_Seq. apply ends_number_parts.
    + exact Hsub.
    + apply letter_part_noNumberPart; assumption.
    + intros pre2. apply ends_letter_parts; try assumption.
      intros pre3. cbn [rest before caps].
      replace (firstn _ _) with (s ++ parenPart sub ++ parenPart par); [apply H|].
      symmetry.
      assert (E : s ++ parenPart sub ++ parenPart par ++ v
                  = (s ++ parenPart sub ++ parenPart par) ++ v)
        by (rewrite <- !app_assoc; reflexivity).
      rewrite E. apply firstn_consumed.
Qed.

Lemma m_Bol_nil rst cs (k : cont) : m Bol (MState [] rst cs) k = k (MState [] rst cs).
Proof. reflexivity. Qed.

Lemma exec_of_ends (r : regex) (F : jsstring) CS :
  ends (m r (MState [] F []) (fun e => Some e)) CS ->
  exists x, exec r F = Some x /\ caps (m_end x) = CS.
Proof.
  intros (e & He & _ & Hc). unfold exec. rewrite search_eq. unfold matchAt.
  rewrite He. eexists. split; [reflexivity|exact Hc].
Qed.

Lemma isDigits_cons (n : jsstring) :
  isDigits n = true ->
  exists d n', n = d :: n' /\ isDigit d = true /\ forallb isDigit n' = true.
Proof.
  unfold isDigits. destruct n as [|d n']; simpl; [discriminate|].
  intros H. apply andb_true_iff in H as [Hd Hn]. eauto.
Qed.

Lemma boundary_digits (p : char -> bool) (s w : jsstring) :
  (forall c, isDigit c = true -> p c = false) ->
  isDigits s = true -> boundary p (s ++ w).
Proof.
  intros Hp Hs. destruct (isDigits_cons s Hs) as (d & n' & -> & Hd & _).
  simpl. apply Hp. exact Hd.
Qed.

Lemma plainTitle_boundary (t w : jsstring) :
  plainTitle t = true -> boundary isWhiteSpace (t ++ w).
Proof.
  intros Ht. destruct (plainTitle_shape t Ht) as (c & a & z & Ec & _ & Hc & _).
  rewrite Ec. exact Hc.
Qed.

Lemma ends_title_year (t : jsstring) d1 d2 d3 d4 pre cs :
  plainTitle t = true ->
  isDigit d1 = true -> isDigit d2 = true -> isDigit d3 = true -> isDigit d4 = true ->
  ends (m (SeqL [Group 2 (Seq dot (Star false dot)); Plus ws;
                 Group 3 (Rep4 digit); Eol])
          (MState pre (t ++ 32%N :: [d1; d2; d3; d4]) cs) (fun e => Some e))
       ((3, [d1; d2; d3; d4]) :: (2, t) :: cs).
Proof.
  intros. eexists. split; [|split].
  - apply title_year_tail; try assumption. reflexivity.
  - reflexivity.
  - reflexivity.
Qed.

(** What follows the section token in the full format: a comma and a
    space. *)
Lemma ends_after_token_full (t : jsstring) d1 d2 d3 d4 pre cs :
  plainTitle t = true ->
  isDigit d1 = true -> isDigit d2 = true -> isDigit d3 = true -> isDigit d4 = true ->
  ends (m (SeqL [Star true ws; Opt (Lit1 ","); Plus ws;
                 Group 2 (Seq dot (Star false dot)); Plus ws;
                 Group 3 (Rep4 digit); Eol])
          (MState pre (str ", " ++ t ++ 32%N :: [d1; d2; d3; d4]) cs)
          (fun e => Some e))
       ((3, [d1; d2; d3; d4]) :: (2, t) :: cs).
Proof.
  intros Ht H1 H2 H3 H4.
  change (SeqL [Star true ws; Opt (Lit1 ","); Plus ws;
                Group 2 (Seq dot (Star false dot)); Plus ws;
                Group 3 (Rep4 digit); Eol])
    with (Seq (Star true ws) (Seq (Opt (Lit1 ",")) (Seq (Plus ws)
            (SeqL [Group 2 (Seq dot (Star false dot)); Plus ws;
                   Group 3 (Rep4 digit); Eol])))).
  rewrite m_Seq. unfold ws at 1.
  apply (ends_star_run isWhiteSpace [] (str ", " ++ t ++ 32%N :: [d1; d2; d3; d4]));
    [reflexivity | reflexivity |].
  intros pre1. rewrite m_Seq. unfold Opt. rewrite m_Alt. apply ends_orelse_l.
  apply (ends_lit1 ","). intros pre2. rewrite m_Seq. unfold ws at 1.
  apply (ends_plus isWhiteSpace [32%N] (t ++ 32%N :: [d1; d2; d3; d4]));
    [reflexivity | reflexivity | apply plainTitle_boundary; exact Ht |].
  intros pre3. apply ends_title_year; assumption.
Qed.

(** What follows the section token in the short format: a space.  The
    greedy white space first takes it and has to give it back. *)
Lemma ends_after_token_short (t : jsstring) d1 d2 d3 d4 pre cs :
  plainTitle t = true ->
  isDigit d1 = true -> isDigit d2 = true -> isDigit d3 = true -> isDigit d4 = true ->
  ends (m (SeqL [Star true ws; Opt (Lit1 ","); Plus ws;
                 Group 2 (Seq dot (Star false dot)); Plus ws;
                 Group 3 (Rep4 digit); Eol])
          (MState pre (str " " ++ t ++ 32%N :: [d1; d2; d3; d4]) cs)
          (fun e => Some e))
       ((3, [d1; d2; d3; d4]) :: (2, t) :: cs).
Proof.
  intros Ht H1 H2 H3 H4.
  change (SeqL [Star true ws; Opt (Lit1 ","); Plus ws;
                Group 2 (Seq dot (Star false dot)); Plus ws;
                Group 3 (Rep4 digit); Eol])
    with (Seq (Star true ws) (Seq (Opt (Lit1 ",")) (Seq (Plus ws)
            (SeqL [Group 2 (Seq dot (Star false dot)); Plus ws;
                   Group 3 (Rep4 digit); Eol])))).
  destruct (plainTitle_shape t Ht) as (c & a & z & Ec & _ & Hc & Hcomma & _).
  rewrite m_Seq. unfold ws at 1. rewrite m_star_greedy.
  change (str " " ++ t ++ 32%N :: [d1; d2; d3; d4])
    with (32%N :: t ++ 32%N :: [d1; d2; d3; d4]).
  cbn [greedy_try].
  change (isWhiteSpace 32%N) with true. cbv iota.
  apply ends_orelse_r.
  - rewrite Ec. cbn [app greedy_try]. rewrite Hc.
    rewrite m_Seq. unfold Opt. rewrite m_Alt. unfold Lit1 at 1.
    rewrite m_Chr_cons.
    replace (N.eqb (chr ",") c) with false by (symmetry; rewrite N.eqb_sym; exact Hcomma).
    cbn [orelse]. rewrite m_Eps, m_Seq. unfold Plus, ws. rewrite m_Seq, m_Chr_cons, Hc.
    reflexivity.
  - rewrite m_Seq. unfold Opt. rewrite m_Alt. apply ends_orelse_r; [reflexivity|].
    rewrite m_Eps, m_Seq. unfold ws at 1.
    apply (ends_plus isWhiteSpace [32%N] (t ++ 32%N :: [d1; d2; d3; d4]));
      [reflexivity | reflexivity | apply plainTitle_boundary; exact Ht |].
    intros pre3. apply ends_title_year; assumption.
Qed.

Lemma numbered_group_none (w : jsstring) pre cs (K : cont) :
  noNumberPart w = true ->
  m (SeqL [Lit1 "("; Group 2 (Plus digit); Lit1 ")"]) (MState pre w cs) K = None.
Proof.
  intros H. cbn [SeqL]. rewrite m_Seq. unfold Lit1 at 1.
  destruct w as [|c1 [|c2 w']].
  - apply m_Chr_nil.
  - rewrite m_Chr_cons. destruct (N.eqb (chr "(") c1); [|reflexivity].
    rewrite m_Seq, m_Group. unfold Plus, digit. rewrite m_Seq, m_Chr_nil. reflexivity.
  - rewrite m_Chr_cons. unfold noNumberPart in H.
    destruct (N.eqb (chr "(") c1); [|reflexivity].
    cbn [negb orb] in H. apply negb_true_iff in H.
    rewrite m_Seq, m_Group. unfold Plus, digit. rewrite m_Seq, m_Chr_cons, H.
    reflexivity.
Qed.

(** The finer pattern decomposes a pinpoint into its fields. *)
Lemma ends_section_ref (s : jsstring) (sub par : option jsstring) :
  isDigits s = true -> optional isDigits sub = true -> optional isLetter par = true ->
  ends (m SECTION_REF (MState [] (s ++ parenPart sub ++ parenPart par) [])
          (fun e => Some e))
       (optCapture 3 par (optCapture 2 sub [(1, s)])).
Proof.
  intros Hs Hsub Hpar. unfold SECTION_REF. cbn [SeqL].
  rewrite m_Seq, m_Bol_nil, m_Seq, m_Group. unfold digit at 1.
  apply ends_plus.
  - apply isDigits_nonEmpty. exact Hs.
  - apply isDigits_forallb. exact Hs.
  - destruct sub; [reflexivity|]. destruct par; [reflexivity|exact I].
  - intros pre1. cbn [rest before caps]. rewrite firstn_consumed.
    rewrite m_Seq.
    assert (Tail : forall pre' cs',
              ends (m (Seq (Opt (Seq (Lit1 "(")
                                   (Seq (Group 3 (Chr isLowerAZ)) (Lit1 ")")))) Eol)
                      (MState pre' (parenPart par) cs') (fun e => Some e))
                   (optCapture 3 par cs')).
    { intros pre' cs'. rewrite m_Seq. unfold Opt. rewrite m_Alt.
      destruct par as [[|l [|? ?]]|]; simpl in Hpar; try discriminate.
      - apply ends_orelse_l. rewrite m_Seq.
        apply (ends_lit1 "("). intros pre2. rewrite m_Seq, m_Group.
        apply ends_chr; [exact Hpar|]. intros pre3. cbn [rest before caps].
        apply (ends_lit1 ")"). intros pre4. rewrite m_Eol_nil.
        apply ends_final.
      - apply ends_orelse_r; [reflexivity|]. rewrite m_Eps, m_Eol_nil.
        apply ends_final. }
    unfold Opt at 1. rewrite m_Alt. destruct sub as [sub|].
    + apply ends_orelse_l. rewrite parenPart_some.
      cbn [SeqL]. rewrite m_Seq. apply ends_lit1. intros pre2.
      rewrite m_Seq, m_Group. unfold digit. apply ends_plus.
      * apply isDigits_nonEmpty. exact Hsub.
      * apply isDigits_forallb. exact Hsub.
      * reflexivity.
      * intros pre3. cbn [rest before caps]. rewrite firstn_consumed.
        apply ends_lit1. intros pre4. apply Tail.
    + apply ends_orelse_r.
      * apply numbered_group_none.
        destruct par as [[|l [|? ?]]|]; simpl in Hpar; try discriminate.
        -- simpl. unfold noNumberPart.
           rewrite (lower_not_digit l Hpar). reflexivity.
        -- reflexivity.
      * rewrite m_Eps. apply Tail.
Qed.

Lemma parseSection_fields_of (s t : jsstring) (sub par : option jsstring)
    (y : number) (ty : CitationType) :
  isDigits s = true -> optional isDigits sub = true -> optional isLetter par = true ->
  parseSection (s ++ parenPart sub ++ parenPart par) t y ty
  = {| valid := true; type := ty; title := Some (trim t); year := Some y;
       section := Some s; subsection := sub; paragraph := par; error := None |}.
Proof.
  intros Hs Hsub Hpar.
  destruct (@exec_of_ends _ _ _ (ends_section_ref s sub par Hs Hsub Hpar))
    as (x & Ex & Cx).
  unfold parseSection. rewrite Ex. unfold capture, group. rewrite Cx.
  destruct (isDigits_cons s Hs) as (d & s' & -> & _).
  destruct sub as [sub|], par as [[|l [|? ?]]|]; simpl in Hpar; try discriminate;
    try (destruct (isDigits_cons sub Hsub) as (d2 & sub' & -> & _));
    reflexivity.
Qed.

Lemma full_citation_token_and_rest (head sep s t : jsstring) (sub par : option jsstring)
    d1 d2 d3 d4 :
  (forall k,
     (forall pre', ends (k (MState pre' (s ++ parenPart sub ++ parenPart par ++ sep
                                          ++ t ++ 32%N :: [d1; d2; d3; d4]) [])) 
                        [(3, [d1; d2; d3; d4]); (2, t);
                         (1, s ++ parenPart sub ++ parenPart par)]) ->
     ends (m (Seq Bol (Seq (Alt (Liti "Section") (Seq (Lit1i "s") (Opt (Lit1 "."))))
                           (Plus ws)))
             (MState [] (head ++ s ++ parenPart sub ++ parenPart par ++ sep
                         ++ t ++ 32%N :: [d1; d2; d3; d4]) []) k)
          [(3, [d1; d2; d3; d4]); (2, t); (1, s ++ parenPart sub ++ parenPart par)]) ->
  (forall pre cs,
     ends (m (SeqL [Star true ws; Opt (Lit1 ","); Plus ws;
                    Group 2 (Seq dot (Star false dot)); Plus ws;
                    Group 3 (Rep4 digit); Eol])
             (MState pre (sep ++ t ++ 32%N :: [d1; d2; d3; d4]) cs)
             (fun e => Some e))
          ((3, [d1; d2; d3; d4]) :: (2, t) :: cs)) ->
  noParen (sep ++ t ++ 32%N :: [d1; d2; d3; d4]) = true ->
  boundary isDigit (sep ++ t ++ 32%N :: [d1; d2; d3; d4]) ->
  isDigits s = true -> optional isDigits sub = true -> optional isLetter par = true ->
  ends (m FULL_CITATION
          (MState [] (head ++ s ++ parenPart sub ++ parenPart par ++ sep
                      ++ t ++ 32%N :: [d1; d2; d3; d4]) [])
          (fun e => Some e))
       [(3, [d1; d2; d3; d4]); (2, t); (1, s ++ parenPart sub ++ parenPart par)].
Proof.
  intros Hhead Hsep Hnp Hbd Hs Hsub Hpar.
  change FULL_CITATION
    with (Seq Bol (Seq (Alt (Liti "Section") (Seq (Lit1i "s") (Opt (Lit1 "."))))
            (Seq (Plus ws)
               (Seq (Group 1 (sectionToken (fun c => isLowerAZ c || isUpperAZ c)))
                  (SeqL [Star true ws; Opt (Lit1 ","); Plus ws;
                         Group 2 (Seq dot (Star false dot)); Plus ws;
                         Group 3 (Rep4 digit); Eol]))))).
  assert (R : forall a b c s0 k0,
             m (Seq Bol (Seq a (Seq b c))) s0 k0
             = m (Seq Bol (Seq a b)) s0 (fun s' => m c s' k0)) by reflexivity.
  rewrite R. apply Hhead. intros pre1. rewrite m_Seq.
  apply ends_section_token; try assumption.
  - intros l Hl. rewrite Hl. reflexivity.
  - intros pre2. apply Hsep.
Qed.

Lemma full_citation_full_format (s t : jsstring) (sub par : option jsstring) d1 d2 d3 d4 :
  isDigits s = true -> optional isDigits sub = true -> optional isLetter par = true ->
  plainTitle t = true ->
  isDigit d1 = true -> isDigit d2 = true -> isDigit d3 = true -> isDigit d4 = true ->
  ends (m FULL_CITATION
          (MState [] (str "Section " ++ s ++ parenPart sub ++ parenPart par ++ str ", "
                      ++ t ++ 32%N :: [d1; d2; d3; d4]) [])
          (fun e => Some e))
       [(3, [d1; d2; d3; d4]); (2, t); (1, s ++ parenPart sub ++ parenPart par)].
Proof.
  intros Hs Hsub Hpar Ht H1 H2 H3 H4.
  apply full_citation_token_and_rest; try assumption; try reflexivity.
  - intros k Hk. rewrite m_Seq, m_Bol_nil, m_Seq, m_Alt. apply ends_orelse_l.
    change (str "Section " ++ s ++ parenPart sub ++ parenPart par ++ str ", "
            ++ t ++ 32%N :: [d1; d2; d3; d4])
      with (str "Section" ++ [32%N] ++ s ++ parenPart sub ++ parenPart par ++ str ", "
            ++ t ++ 32%N :: [d1; d2; d3; d4]).
    change (m (Liti "Section")
              (MState [] (str "Section" ++ [32%N] ++ s ++ parenPart sub ++ parenPart par
                          ++ str ", " ++ t ++ 32%N :: [d1; d2; d3; d4]) [])
              (fun s' => m (Plus ws) s' k))
      with (m (Plus ws)
              (MState (rev (str "Section"))
                 ([32%N] ++ s ++ parenPart sub ++ parenPart par
                  ++ str ", " ++ t ++ 32%N :: [d1; d2; d3; d4]) []) k).
    unfold ws. apply ends_plus; [reflexivity | reflexivity | | exact Hk].
    apply boundary_digits; [apply digit_not_space | exact Hs].
  - intros pre cs. apply ends_after_token_full; assumption.
Qed.

Lemma full_citation_short_format (s t : jsstring) (sub par : option jsstring) d1 d2 d3 d4 :
  isDigits s = true -> optional isDigits sub = true -> optional isLetter par = true ->
  plainTitle t = true ->
  isDigit d1 = true -> isDigit d2 = true -> isDigit d3 = true -> isDigit d4 = true ->
  ends (m FULL_CITATION
          (MState [] (str "s. " ++ s ++ parenPart sub ++ parenPart par ++ str " "
                      ++ t ++ 32%N :: [d1; d2; d3; d4]) [])
          (fun e => Some e))
       [(3, [d1; d2; d3; d4]); (2, t); (1, s ++ parenPart sub ++ parenPart par)].
Proof.
  intros Hs Hsub Hpar Ht H1 H2 H3 H4.
  apply full_citation_token_and_rest; try assumption; try reflexivity.
  - intros k Hk. rewrite m_Seq, m_Bol_nil, m_Seq, m_Alt.
    apply ends_orelse_r; [reflexivity|].
    rewrite m_Seq. unfold Lit1i.
    apply ends_chr; [reflexivity|]. intros pre1.
    unfold Opt. rewrite m_Alt. apply ends_orelse_l.
    apply (ends_lit1 "."). intros pre2.
    unfold ws.
    apply (ends_plus isWhiteSpace [32%N]
             (s ++ parenPart sub ++ parenPart par ++ str " "
              ++ t ++ 32%N :: [d1; d2; d3; d4]));
      [reflexivity | reflexivity | | exact Hk].
    apply boundary_digits; [apply digit_not_space | exact Hs].
  - intros pre cs. apply ends_after_token_short; assumption.
Qed.

Lemma trim_noop (s s1 s2 : jsstring) (c z : char) :
  s = c :: s1 -> s = s2 ++ [z] ->
  isWhiteSpace c = false -> isWhiteSpace z = false ->
  trim s = s.
Proof.
  intros E1 E2 Hc Hz. destruct s2 as [|c' s2'].
  - simpl in E2. subst s. injection E2 as -> ->.
    unfold trim, trimEnd. simpl. rewrite Hc. simpl. rewrite Hc. reflexivity.
  - rewrite E2 in E1. simpl in E1. injection E1 as -> _.
    rewrite E2. apply (@trim_id c z s2' Hc Hz).
Qed.

Lemma plainTitle_trim (t : jsstring) : plainTitle t = true -> trim t = t.
Proof.
  intros Ht. destruct (plainTitle_shape t Ht) as (c & a & z & Ec & Ea & Hc & _ & Hz & _).
  apply (@trim_noop t (List.tl t) a c z); assumption.
Qed.

Lemma buildPinpoint_shape (c : ParsedCitation) (s : jsstring) :
  section c = Some s ->
  optional isDigits (subsection c) = true -> optional isLetter (paragraph c) = true ->
  buildPinpoint c = s ++ parenPart (subsection c) ++ parenPart (paragraph c).
Proof.
  intros Es Hsub Hpar. unfold buildPinpoint. rewrite Es.
  destruct (subsection c) as [sub|], (paragraph c) as [[|l [|? ?]]|];
    simpl in Hpar; try discriminate;
    try (destruct (isDigits_cons sub Hsub) as (d & sub' & -> & _));
    cbn [truthy showOpt parenPart]; rewrite <- ?app_assoc, ?app_nil_r; reflexivity.
Qed.

(** The record the parser builds from a citation of either format. *)
Lemma parse_formatted (head sep s t : jsstring) (sub par : option jsstring)
    (y : Z) d1 d2 d3 d4 (c0 : char) (head' : jsstring) :
  head = c0 :: head' -> isWhiteSpace c0 = false ->
  ends (m FULL_CITATION
          (MState [] (head ++ s ++ parenPart sub ++ parenPart par ++ sep
                      ++ t ++ 32%N :: [d1; d2; d3; d4]) [])
          (fun e => Some e))
       [(3, [d1; d2; d3; d4]); (2, t); (1, s ++ parenPart sub ++ parenPart par)] ->
  isDigits s = true -> optional isDigits sub = true -> optional isLetter par = true ->
  plainTitle t = true ->
  isDigit d4 = true -> parseInt [d1; d2; d3; d4] = Num y ->
  parseCitation (trim (head ++ (s ++ parenPart sub ++ parenPart par) ++ sep
                       ++ t ++ str " " ++ [d1; d2; d3; d4]))
  = {| valid := true; type := statute; title := Some t; year := Some (Num y);
       section := Some s; subsection := sub; paragraph := par; error := None |}.
Proof.
  intros Ehead Hc0 Hends Hs Hsub Hpar Ht H4 Hy.
  assert (EF : head ++ (s ++ parenPart sub ++ parenPart par) ++ sep
               ++ t ++ str " " ++ [d1; d2; d3; d4]
               = head ++ s ++ parenPart sub ++ parenPart par ++ sep
                 ++ t ++ 32%N :: [d1; d2; d3; d4])
    by (rewrite <- !app_assoc; reflexivity).
  rewrite EF.
  assert (ET : trim (head ++ s ++ parenPart sub ++ parenPart par ++ sep
                     ++ t ++ 32%N :: [d1; d2; d3; d4])
               = head ++ s ++ parenPart sub ++ parenPart par ++ sep
                 ++ t ++ 32%N :: [d1; d2; d3; d4]).
  { apply (@trim_noop _ (head' ++ s ++ parenPart sub ++ parenPart par ++ sep
                          ++ t ++ 32%N :: [d1; d2; d3; d4])
                        (head ++ s ++ parenPart sub ++ parenPart par ++ sep
                          ++ t ++ [32%N; d1; d2; d3]) c0 d4).
    - rewrite Ehead. reflexivity.
    - rewrite <- !app_assoc. reflexivity.
    - exact Hc0.
    - apply digit_not_space. exact H4. }
  unfold parseCitation. rewrite !ET.
  destruct (@exec_of_ends _ _ _ Hends) as (x & Ex & Cx).
  rewrite Ex. unfold capture, group. rewrite Cx.
  cbn [lookupCap find fst snd Nat.eqb].
  rewrite parseSection_fields_of by assumption.
  rewrite Hy, (@plainTitle_trim t Ht). reflexivity.
Qed.

(** C2, amended.  For the full and the short format, and for a citation of
    the shape the grammar decomposes (numeric section, optional numeric
    subsection, optional one-letter paragraph, a one-line title without
    white space at its ends or a comma at its start, a four-digit year),
    parsing the formatted citation yields a valid citation with the same
    section, subsection, paragraph, title and year. *)
Theorem parse_format_round_trip (c : ParsedCitation) (f : CitationFormat) :
  canonical c = true -> f <> pinpoint ->
  valid (parseCitation (formatCitation c f)) = true
  /\ section (parseCitation (formatCitation c f)) = section c
  /\ subsection (parseCitation (formatCitation c f)) = subsection c
  /\ paragraph (parseCitation (formatCitation c f)) = paragraph c
  /\ title (parseCitation (formatCitation c f)) = title c
  /\ year (parseCitation (formatCitation c f)) = year c.
Proof.
  unfold canonical. intros H Hf.
  apply andb_true_iff in H as [H Hyear]. apply andb_true_iff in H as [H Htitle].
  apply andb_true_iff in H as [H Hpar]. apply andb_true_iff in H as [H Hsub].
  apply andb_true_iff in H as [Hvalid Hsec].
  destruct (section c) as [s|] eqn:Es; [|discriminate].
  destruct (title c) as [t|] eqn:Et; [|discriminate].
  destruct (year c) as [[|y]|] eqn:Ey; try discriminate.
  apply andb_true_iff in Hyear as [Hy1 Hy2].
  apply Z.leb_le in Hy1, Hy2.
  destruct (@year_string y (conj Hy1 Hy2))
    as (d1 & d2 & d3 & d4 & EY & H1 & H2 & H3 & H4 & Hparse).
  assert (Etr : truthy (Some s) = true).
  { destruct (isDigits_cons s Hsec) as (d & s' & -> & _). reflexivity. }
  assert (R : parseCitation (formatCitation c f)
              = {| valid := true; type := statute; title := Some t;
                   year := Some (Num y); section := Some s;
                   subsection := subsection c; paragraph := paragraph c;
                   error := None |}).
  { unfold formatCitation. rewrite Hvalid, Es, Etr. cbn [negb orb].
    rewrite (@buildPinpoint_shape c s Es Hsub Hpar).
    unfold titleOrEmpty, yearOrEmpty. rewrite Et, Ey, EY.
    destruct f; [| |contradiction].
    - apply (@parse_formatted (str "Section ") (str ", ") s t _ _ y d1 d2 d3 d4
               83%N (str "ection ")); try assumption; try reflexivity.
      apply full_citation_full_format; assumption.
    - apply (@parse_formatted (str "s. ") (str " ") s t _ _ y d1 d2 d3 d4
               115%N (str ". ")); try assumption; try reflexivity.
      apply full_citation_short_format; assumption. }
  rewrite R. cbn [valid section subsection paragraph title year].
  repeat split; reflexivity.
Qed.

Lemma parse_format_round_trip_witness :
  canonical dpa_1_1_a = true
  /\ valid (parseCitation (formatCitation dpa_1_1_a short)) = true
  /\ section (parseCitation (formatCitation dpa_1_1_a short)) = section dpa_1_1_a
  /\ subsection (parseCitation (formatCitation dpa_1_1_a short)) = subsection dpa_1_1_a
  /\ paragraph (parseCitation (formatCitation dpa_1_1_a short)) = paragraph dpa_1_1_a
  /\ title (parseCitation (formatCitation dpa_1_1_a short)) = title dpa_1_1_a
  /\ year (parseCitation (formatCitation dpa_1_1_a short)) = year dpa_1_1_a.
Proof.
  split.
  - reflexivity.
  - apply (@parse_format_round_trip dpa_1_1_a short); [reflexivity|discriminate].
Defined.

(** ** Flattener on texts whose tags are delimited *)

Lemma tokens_of_delimited (x : jsstring) :
  (tagsDelimited false x = true ->
   exists ts, forallb wfToken ts = true /\ x = renderAll ts)
  /\ (tagsDelimited true x = true ->
      exists b ts, forallb noAngle b = true /\ forallb wfToken ts = true
                   /\ x = b ++ chr ">" :: renderAll ts).
Proof.
  induction x as [|c x [IH0 IH1]]; split; intros H; cbn [tagsDelimited negb] in H.
  - exists []. auto.
  - discriminate.
  - destruct (N.eqb c (chr "<")) eqn:E.
    + apply N.eqb_eq in E. subst c.
      destruct (IH1 H) as (b & ts & Hb & Hts & ->).
      exists (Tag b :: ts). split.
      * cbn [forallb wfToken]. rewrite Hb, Hts. reflexivity.
      * unfold renderAll. cbn [flat_map render app]. rewrite <- app_assoc.
        reflexivity.
    + destruct (IH0 H) as (ts & Hts & ->).
      exists (Txt c :: ts). split; [|reflexivity].
      cbn [forallb wfToken]. rewrite Hts, andb_true_r. unfold notLt.
      rewrite (N.eqb_sym (chr "<") c), E. reflexivity.
  - destruct (N.eqb c (chr "<")) eqn:E; [discriminate|].
    destruct (N.eqb c (chr ">")) eqn:E'.
    + apply N.eqb_eq in E'. subst c.
      destruct (IH0 H) as (ts & Hts & ->).
      exists [], ts. auto.
    + destruct (IH1 H) as (b & ts & Hb & Hts & ->).
      exists (c :: b), ts. split; [|split; [exact Hts|reflexivity]].
      cbn [forallb]. rewrite Hb, andb_true_r. unfold noAngle, notLt, notGt.
      rewrite (N.eqb_sym (chr "<") c), E, E'. reflexivity.
Qed.

Lemma matchAt_not_lt (r : regex) (pre rst : jsstring) :
  match rst with c :: _ => notLt c = true | [] => True end ->
  matchAt (Seq (Lit1 "<") r) pre rst = None.
Proof.
  intros H. unfold matchAt. rewrite m_Seq. unfold Lit1.
  destruct rst as [|c tl]; [reflexivity|].
  rewrite m_Chr_cons. unfold notLt in H. apply negb_true_iff in H. rewrite H.
  reflexivity.
Qed.

Lemma replace_skip (r : regex) (f : mresult -> jsstring) :
  forall u v pre,
  replace_from r f pre (u ++ v) (length u) = replace_from r f (rev u ++ pre) v 0.
Proof.
  induction u as [|c u IH]; intros v pre; [reflexivity|].
  cbn [app length replace_from]. rewrite IH. cbn [rev]. rewrite <- app_assoc.
  reflexivity.
Qed.

Lemma replace_from_eq (r : regex) (f : mresult -> jsstring) (pre rst : jsstring) :
  replace_from r f pre rst 0
  = match matchAt r pre rst with
    | Some x =>
        f x ++
        match rst with
        | [] => []
        | c :: tl =>
            match length (matched x) with
            | O => c :: replace_from r f (c :: pre) tl 0
            | S k => replace_from r f (c :: pre) tl k
            end
        end
    | None =>
        match rst with
        | [] => []
        | c :: tl => c :: replace_from r f (c :: pre) tl 0
        end
    end.
Proof. destruct rst; reflexivity. Qed.

(** Code units at which the pattern cannot start are copied. *)
Lemma replace_copy (r : regex) (f : mresult -> jsstring) :
  forall u v pre,
  forallb notLt u = true ->
  replace_from (Seq (Lit1 "<") r) f pre (u ++ v) 0
  = u ++ replace_from (Seq (Lit1 "<") r) f (rev u ++ pre) v 0.
Proof.
  induction u as [|c u IH]; intros v pre H; [reflexivity|].
  simpl in H. apply andb_true_iff in H as [Hc Hu].
  rewrite replace_from_eq. cbn [app].
  rewrite matchAt_not_lt by exact Hc.
  rewrite IH by exact Hu. cbn [rev]. rewrite <- app_assoc. reflexivity.
Qed.

Lemma search_skip (r : regex) :
  forall u v pre,
  forallb notLt u = true ->
  search (Seq (Lit1 "<") r) pre (u ++ v) = search (Seq (Lit1 "<") r) (rev u ++ pre) v.
Proof.
  induction u as [|c u IH]; intros v pre H; [reflexivity|].
  simpl in H. apply andb_true_iff in H as [Hc Hu].
  rewrite search_eq. cbn [app]. rewrite matchAt_not_lt by exact Hc.
  rewrite IH by exact Hu. cbn [rev]. rewrite <- app_assoc. reflexivity.
Qed.

Lemma noAngle_notLt (b : jsstring) : forallb noAngle b = true -> forallb notLt b = true.
Proof.
  intros H. rewrite forallb_forall in *. intros c Hc. specialize (H c Hc).
  unfold noAngle in H. apply andb_true_iff in H. apply H.
Qed.

Lemma noAngle_notGt (b : jsstring) : forallb noAngle b = true -> forallb notGt b = true.
Proof.
  intros H. rewrite forallb_forall in *. intros c Hc. specialize (H c Hc).
  unfold noAngle in H. apply andb_true_iff in H. apply H.
Qed.

Lemma orelse_none (a : option mstate) : orelse a (fun _ => None) = a.
Proof. destruct a; reflexivity. Qed.

Lemma m_Lit (w : string) :
  forall pre rst cs (k : cont),
  m (Lit w) (MState pre rst cs) k
  = if startsWith (str w) rst
    then k (MState (rev (str w) ++ pre) (skipn (length (str w)) rst) cs)
    else None.
Proof.
  induction w as [|c w IH]; intros pre rst cs k; [reflexivity|].
  rewrite str_String. cbn [startsWith length skipn rev].
  destruct rst as [|x tl].
  - destruct w; [reflexivity|].
    change (Lit (String c (String a w))) with (Seq (Lit1 c) (Lit (String a w))).
    rewrite m_Seq. reflexivity.
  - destruct w as [|c' w'].
    + unfold Lit, LitWith, Lit1. rewrite m_Chr_cons.
      destruct (N.eqb_spec (chr c) x) as [<-|]; reflexivity.
    + change (Lit (String c (String c' w')))
        with (Seq (Lit1 c) (Lit (String c' w'))).
      rewrite m_Seq. unfold Lit1. rewrite m_Chr_cons.
      destruct (N.eqb_spec (chr c) x) as [<-|]; [|reflexivity].
      rewrite IH. cbn [andb]. rewrite <- app_assoc. reflexivity.
Qed.

Lemma m_AltL_names (names : list string) s (k : cont) :
  names <> [] -> m (AltL (map Lit names)) s k = tryNames names s k.
Proof.
  induction names as [|nm tl IH]; intros H; [contradiction|].
  destruct tl as [|nm' tl'].
  - cbn [map AltL tryNames]. rewrite orelse_none. reflexivity.
  - change (AltL (map Lit (nm :: nm' :: tl')))
      with (Alt (Lit nm) (AltL (map Lit (nm' :: tl')))).
    rewrite m_Alt. cbn [tryNames]. rewrite IH by discriminate. reflexivity.
Qed.

Lemma startsWith_before_gt (p b R : jsstring) :
  forallb noAngle p = true ->
  startsWith p (b ++ chr ">" :: R) = startsWith p b.
Proof.
  revert b. induction p as [|x p IH]; intros b Hp; [reflexivity|].
  simpl in Hp. apply andb_true_iff in Hp as [Hx Hp].
  destruct b as [|y b]; cbn [app startsWith].
  - unfold noAngle, notGt in Hx. apply andb_true_iff in Hx as [_ Hx].
    apply negb_true_iff in Hx. rewrite Hx. reflexivity.
  - rewrite IH by exact Hp. reflexivity.
Qed.

Lemma startsWith_skipn (p b R : jsstring) :
  startsWith p b = true ->
  skipn (length p) (b ++ R) = skipn (length p) b ++ R.
Proof.
  revert b. induction p as [|x p IH]; intros b H; [reflexivity|].
  destruct b as [|y b]; [discriminate|].
  cbn [startsWith] in H. apply andb_true_iff in H as [_ H].
  cbn [app length skipn]. apply IH. exact H.
Qed.

Lemma forallb_skipn (A : Type) (p : A -> bool) (n : nat) (l : list A) :
  forallb p l = true -> forallb p (skipn n l) = true.
Proof.
  revert l. induction n as [|n IH]; intros l H; [exact H|].
  destruct l as [|x l]; [reflexivity|].
  simpl in H. apply andb_true_iff in H as [_ H]. apply IH. exact H.
Qed.

Lemma isWordAt_app (a pre : jsstring) (c : char) :
  isWordAt (a ++ c :: pre) = isWordAt (a ++ [c]).
Proof. destruct a; reflexivity. Qed.

Lemma isWordAt_body (b R : jsstring) :
  isWordAt (b ++ chr ">" :: R) = wordAtBody b.
Proof. destruct b; reflexivity. Qed.

(** After a run without closing angle bracket, the two closing code units
    are found exactly when the run ends in a slash. *)
Lemma slash_gt_after_run (R : jsstring) cs :
  forall b pre,
  forallb notGt b = true ->
  (endsWithSlash b = true ->
   stopsAt (greedy_try notGt (fun s => m (Lit "/>") s (fun e => Some e))
              pre (b ++ chr ">" :: R) cs) R cs)
  /\ (endsWithSlash b = false ->
      greedy_try notGt (fun s => m (Lit "/>") s (fun e => Some e))
        pre (b ++ chr ">" :: R) cs = None).
Proof.
  induction b as [|c b IH]; intros pre Hb.
  - split; [discriminate|]. intros _. reflexivity.
  - simpl in Hb. apply andb_true_iff in Hb as [Hc Hb].
    cbn [app greedy_try]. rewrite Hc.
    destruct (IH (c :: pre) Hb) as [IHt IHf].
    destruct b as [|c' b'].
    + clear IHt. rewrite IHf by reflexivity. cbn [orelse app].
      unfold endsWithSlash. cbn [rev app].
      rewrite m_Lit. cbn [str map list_ascii_of_string startsWith].
      change (N_of_ascii "/") with (chr "/").
      change (N.eqb (N_of_ascii ">") (chr ">")) with true.
      rewrite !andb_true_r.
      destruct (N.eqb (chr "/") c); split; intros H; try discriminate.
      * eexists. split; [reflexivity|]. split; reflexivity.
      * reflexivity.
    + assert (E : endsWithSlash (c :: c' :: b') = endsWithSlash (c' :: b')).
      { unfold endsWithSlash. cbn [rev].
        destruct (rev b' ++ [c']) eqn:D.
        - destruct (rev b'); discriminate.
        - reflexivity. }
      rewrite E. split; intros H.
      * destruct (IHt H) as (x & Hx & Hr). rewrite Hx. exists x. auto.
      * rewrite (IHf H). cbn [orelse].
        rewrite m_Lit. cbn [str map list_ascii_of_string startsWith app].
        simpl in Hb. apply andb_true_iff in Hb as [Hc' _].
        unfold notGt in Hc'. apply negb_true_iff in Hc'.
        change (N_of_ascii ">") with (chr ">").
        rewrite (N.eqb_sym (chr ">") c'), Hc'. cbn [andb].
        rewrite andb_false_r. reflexivity.
Qed.

Lemma m_WordB s (k : cont) :
  m WordB s k = if xorb (isWordAt (before s)) (isWordAt (rest s)) then k s else None.
Proof. reflexivity. Qed.

Lemma self_closing_tail (b2 R pre2 : jsstring) cs :
  forallb notGt b2 = true ->
  (xorb (isWordAt pre2) (wordAtBody b2) && endsWithSlash b2 = true ->
   stopsAt (m (SeqL [WordB; Star true (Chr notGt); Lit "/>"])
              (MState pre2 (b2 ++ chr ">" :: R) cs) (fun e => Some e)) R cs)
  /\ (xorb (isWordAt pre2) (wordAtBody b2) && endsWithSlash b2 = false ->
      m (SeqL [WordB; Star true (Chr notGt); Lit "/>"])
        (MState pre2 (b2 ++ chr ">" :: R) cs) (fun e => Some e) = None).
Proof.
  intros Hb. cbn [SeqL]. rewrite m_Seq, m_WordB. cbn [before rest].
  rewrite isWordAt_body.
  destruct (xorb (isWordAt pre2) (wordAtBody b2)); cbn [andb].
  - rewrite m_Seq, m_star_greedy. apply slash_gt_after_run. exact Hb.
  - split; [discriminate|reflexivity].
Qed.

Lemma tryNames_tag (b R pre : jsstring) cs :
  forallb noAngle b = true ->
  forall names,
  forallb plainName names = true ->
  (selfClosingBody names b = true ->
   stopsAt (tryNames names (MState (chr "<" :: pre) (b ++ chr ">" :: R) cs)
              (fun s' => m (SeqL [WordB; Star true (Chr notGt); Lit "/>"]) s'
                           (fun e => Some e))) R cs)
  /\ (selfClosingBody names b = false ->
      tryNames names (MState (chr "<" :: pre) (b ++ chr ">" :: R) cs)
        (fun s' => m (SeqL [WordB; Star true (Chr notGt); Lit "/>"]) s'
                     (fun e => Some e)) = None).
Proof.
  intros Hb. induction names as [|nm tl IH]; intros Hn.
  - split; [discriminate|reflexivity].
  - cbn [forallb] in Hn. apply andb_true_iff in Hn as [Hnm Htl].
    specialize (IH Htl). unfold selfClosingBody in *. cbn [existsb tryNames].
    rewrite m_Lit. rewrite startsWith_before_gt by exact Hnm.
    destruct (startsWith (str nm) b) eqn:Es; cbn [andb orb orelse]; [|exact IH].
    rewrite startsWith_skipn by exact Es.
    destruct (@self_closing_tail (skipn (length (str nm)) b) R
                (rev (str nm) ++ chr "<" :: pre) cs) as [Tt Tf].
    { apply forallb_skipn. apply noAngle_notGt. exact Hb. }
    rewrite isWordAt_app in Tt, Tf.
    destruct (xorb (isWordAt (rev (str nm) ++ [chr "<"]))
                   (wordAtBody (skipn (length (str nm)) b))
              && endsWithSlash (skipn (length (str nm)) b)) eqn:Ec.
    + cbn [orb]. split; [|discriminate]. intros _.
      destruct (Tt eq_refl) as (x & Hx & Hr). rewrite Hx. exists x. auto.
    + cbn [orb]. rewrite (Tf eq_refl). exact IH.
Qed.

(** The pattern of a self-closing element on a tag: it matches the whole
    tag or nothing, as the body of the tag decides. *)
Lemma self_closing_tag (names : list string) (b R pre : jsstring) cs :
  names <> [] -> forallb plainName names = true -> forallb noAngle b = true ->
  (selfClosingBody names b = true ->
   stopsAt (m (selfClosing names) (MState pre (chr "<" :: b ++ chr ">" :: R) cs)
              (fun e => Some e)) R cs)
  /\ (selfClosingBody names b = false ->
      m (selfClosing names) (MState pre (chr "<" :: b ++ chr ">" :: R) cs)
        (fun e => Some e) = None).
Proof.
  intros Hne Hn Hb.
  change (selfClosing names)
    with (Seq (Lit1 "<") (Seq (AltL (map Lit names))
                              (SeqL [WordB; Star true (Chr notGt); Lit "/>"]))).
  rewrite m_Seq, m_Lit1, m_Seq, m_AltL_names by exact Hne.
  apply tryNames_tag; assumption.
Qed.

Lemma length_matched (x : mresult) :
  length (matched x) = length (m_input x) - length (rest (m_end x)).
Proof. unfold matched. apply firstn_length_le. lia. Qed.

(** A match of a nonempty text [M] is replaced and the scan resumes
    after it. *)
Lemma replace_matched (r : regex) (f : mresult -> jsstring) (c : char)
    (M R pre : jsstring) (e : mstate) :
  m r (MState pre (c :: M ++ R) []) (fun e => Some e) = Some e ->
  rest e = R ->
  replace_from r f pre (c :: M ++ R) 0
  = f (MResult pre (c :: M ++ R) e) ++ replace_from r f (rev M ++ c :: pre) R 0.
Proof.
  intros He Hr. rewrite replace_from_eq. unfold matchAt. rewrite He.
  rewrite length_matched. cbn [m_input m_end]. rewrite Hr.
  replace (length (c :: M ++ R) - length R) with (S (length M))
    by (cbn [length]; rewrite length_app; lia).
  rewrite replace_skip. reflexivity.
Qed.

Lemma renderAll_cons (t : token) (ts : list token) :
  renderAll (t :: ts) = render t ++ renderAll ts.
Proof. reflexivity. Qed.

Lemma render_tag (b R : jsstring) :
  render (Tag b) ++ R = chr "<" :: b ++ chr ">" :: R.
Proof. cbn [render app]. rewrite <- app_assoc. reflexivity. Qed.

Lemma notLt_gt : notLt (chr ">") = true.
Proof. reflexivity. Qed.

Lemma body_then_gt (b : jsstring) :
  forallb noAngle b = true -> forallb notLt (b ++ [chr ">"]) = true.
Proof.
  intros H. rewrite forallb_app, (noAngle_notLt _ H). reflexivity.
Qed.

(** A pass that strips self-closing elements removes exactly the tags
    whose body is that of such an element. *)
Lemma strip_self_closing (names : list string) :
  names <> [] -> forallb plainName names = true ->
  forall ts pre,
  forallb wfToken ts = true ->
  replace_from (selfClosing names) (fun _ => []) pre (renderAll ts) 0
  = renderAll (filter (fun t => negb (selfClosingToken names t)) ts).
Proof.
  intros Hne Hn.
  assert (Shape : selfClosing names
                  = Seq (Lit1 "<") (Seq (AltL (map Lit names))
                          (SeqL [WordB; Star true (Chr notGt); Lit "/>"])))
    by reflexivity.
  induction ts as [|t ts IH]; intros pre H; [reflexivity|].
  cbn [forallb] in H. apply andb_true_iff in H as [Ht Hts].
  rewrite renderAll_cons. destruct t as [c|b]; cbn [filter selfClosingToken negb].
  - rewrite renderAll_cons. cbn [wfToken] in Ht. rewrite Shape.
    rewrite replace_copy by (cbn [render forallb]; rewrite Ht; reflexivity).
    rewrite <- Shape, IH by exact Hts. reflexivity.
  - cbn [wfToken] in Ht. rewrite render_tag.
    destruct (@self_closing_tag names b (renderAll ts) pre [] Hne Hn Ht) as [St Sf].
    destruct (selfClosingBody names b) eqn:Eb; cbn [negb].
    + destruct (St eq_refl) as (e & He & Hr & _).
      assert (E : b ++ chr ">" :: renderAll ts = (b ++ [chr ">"]) ++ renderAll ts)
        by (rewrite <- app_assoc; reflexivity).
      rewrite E in He |- *.
      rewrite (@replace_matched _ _ _ _ _ _ _ He Hr). cbn [app].
      apply IH. exact Hts.
    + rewrite replace_from_eq. unfold matchAt. rewrite (Sf eq_refl).
      rewrite renderAll_cons, render_tag. f_equal.
      assert (E : b ++ chr ">" :: renderAll ts = (b ++ [chr ">"]) ++ renderAll ts)
        by (rewrite <- app_assoc; reflexivity).
      rewrite E, Shape, replace_copy by (apply body_then_gt; exact Ht).
      rewrite <- Shape, IH by exact Hts.
      rewrite <- app_assoc. reflexivity.
Qed.

Lemma search_tokens_none (names : list string) :
  names <> [] -> forallb plainName names = true ->
  forall ts pre,
  forallb wfToken ts = true ->
  forallb (fun t => negb (selfClosingToken names t)) ts = true ->
  search (selfClosing names) pre (renderAll ts) = None.
Proof.
  intros Hne Hn.
  assert (Shape : selfClosing names
                  = Seq (Lit1 "<") (Seq (AltL (map Lit names))
                          (SeqL [WordB; Star true (Chr notGt); Lit "/>"])))
    by reflexivity.
  induction ts as [|t ts IH]; intros pre H Hsc.
  - rewrite Shape. cbn [renderAll flat_map]. rewrite search_eq.
    rewrite matchAt_not_lt by exact I. reflexivity.
  - cbn [forallb] in H, Hsc. apply andb_true_iff in H as [Ht Hts].
    apply andb_true_iff in Hsc as [Hsct Hscts].
    rewrite renderAll_cons. destruct t as [c|b].
    + cbn [wfToken] in Ht. rewrite Shape.
      rewrite search_skip by (cbn [render forallb]; rewrite Ht; reflexivity).
      rewrite <- Shape. apply IH; assumption.
    + cbn [wfToken] in Ht. cbn [selfClosingToken] in Hsct.
      apply negb_true_iff in Hsct. rewrite render_tag.
      destruct (@self_closing_tag names b (renderAll ts) pre [] Hne Hn Ht) as [_ Sf].
      rewrite search_eq. unfold matchAt. rewrite (Sf Hsct).
      assert (E : b ++ chr ">" :: renderAll ts = (b ++ [chr ">"]) ++ renderAll ts)
        by (rewrite <- app_assoc; reflexivity).
      rewrite E, Shape, search_skip by (apply body_then_gt; exact Ht).
      rewrite <- Shape. apply IH; assumption.
Qed.

(** What a successful alternative, greedy run or lazy run has done. *)

Lemma tryNames_inv (names : list string) s (k : cont) e :
  tryNames names s k = Some e ->
  exists nm, In nm names /\ m (Lit nm) s k = Some e.
Proof.
  induction names as [|nm tl IH]; [discriminate|].
  cbn [tryNames]. destruct (m (Lit nm) s k) as [x|] eqn:E; cbn [orelse].
  - intros H. exists nm. split; [left; reflexivity|]. rewrite <- H. exact E.
  - intros H. destruct (IH H) as (nm' & Hin & Hm). exists nm'.
    split; [right; exact Hin|exact Hm].
Qed.

Lemma greedy_try_inv (p : char -> bool) (k : cont) cs e :
  forall rst pre,
  greedy_try p k pre rst cs = Some e ->
  exists u v, rst = u ++ v /\ forallb p u = true
              /\ k (MState (rev u ++ pre) v cs) = Some e.
Proof.
  induction rst as [|c tl IH]; intros pre H.
  - exists [], []. auto.
  - cbn [greedy_try] in H. destruct (p c) eqn:Ec.
    + destruct (greedy_try p k (c :: pre) tl cs) as [x|] eqn:E; cbn [orelse] in H.
      * injection H as ->.
        destruct (IH (c :: pre) E) as (u & v & -> & Hu & Hk).
        exists (c :: u), v. split; [reflexivity|]. split.
        -- cbn [forallb]. rewrite Ec, Hu. reflexivity.
        -- cbn [rev]. rewrite <- app_assoc. exact Hk.
      * exists [], (c :: tl). auto.
    + exists [], (c :: tl). auto.
Qed.

Lemma lazy_try_inv (p : char -> bool) (k : cont) cs e :
  forall rst pre,
  lazy_try p k pre rst cs = Some e ->
  exists u v, rst = u ++ v /\ k (MState (rev u ++ pre) v cs) = Some e.
Proof.
  induction rst as [|c tl IH]; intros pre H.
  - cbn [lazy_try] in H. destruct (k (MState pre [] cs)) as [x|] eqn:E;
      cbn [orelse] in H; [|discriminate].
    exists [], []. split; [reflexivity|]. rewrite <- H. exact E.
  - cbn [lazy_try] in H. destruct (k (MState pre (c :: tl) cs)) as [x|] eqn:E;
      cbn [orelse] in H.
    + exists [], (c :: tl). split; [reflexivity|]. rewrite <- H. exact E.
    + destruct (p c); [|discriminate].
      destruct (IH (c :: pre) H) as (u & v & -> & Hk).
      exists (c :: u), v. split; [reflexivity|].
      cbn [rev]. rewrite <- app_assoc. exact Hk.
Qed.

Lemma first_gt_unique (b u R v : jsstring) :
  forallb notGt b = true -> forallb notGt u = true ->
  b ++ chr ">" :: R = u ++ chr ">" :: v -> u = b /\ v = R.
Proof.
  revert u. induction b as [|c b IH]; intros [|d u] Hb Hu E; cbn [app] in E.
  - injection E as ->. auto.
  - injection E as E _. subst d. cbn [forallb] in Hu. discriminate.
  - injection E as E _. subst c. cbn [forallb] in Hb. discriminate.
  - injection E as -> E. cbn [forallb] in Hb, Hu.
    apply andb_true_iff in Hb as [_ Hb]. apply andb_true_iff in Hu as [_ Hu].
    destruct (IH u Hb Hu E) as [-> ->]. auto.
Qed.

Lemma body_before_lt (b R u W : jsstring) :
  forallb notLt b = true ->
  b ++ chr ">" :: R = u ++ chr "<" :: W ->
  exists u', u = b ++ chr ">" :: u' /\ R = u' ++ chr "<" :: W.
Proof.
  revert u. induction b as [|c b IH]; intros [|d u] Hb E; cbn [app] in E.
  - discriminate.
  - injection E as <- E. exists u. auto.
  - injection E as -> _. cbn [forallb] in Hb. discriminate.
  - injection E as <- E. cbn [forallb] in Hb. apply andb_true_iff in Hb as [_ Hb].
    destruct (IH u Hb E) as (u' & -> & ->). exists u'. auto.
Qed.

(** A tag found in a text whose tags are delimited is one of its
    tokens. *)
Lemma tokens_split (cl v2 : jsstring) :
  forallb noAngle cl = true ->
  forall ts u,
  forallb wfToken ts = true ->
  renderAll ts = u ++ chr "<" :: cl ++ chr ">" :: v2 ->
  exists mid rest',
    ts = mid ++ Tag cl :: rest' /\ u = renderAll mid /\ v2 = renderAll rest'.
Proof.
  intros Hcl. induction ts as [|t ts IH]; intros u H E.
  - destruct u; discriminate.
  - cbn [forallb] in H. apply andb_true_iff in H as [Ht Hts].
    rewrite renderAll_cons in E. destruct t as [c|b]; cbn [wfToken] in Ht.
    + cbn [render app] in E. destruct u as [|d u]; cbn [app] in E.
      * injection E as -> _. discriminate.
      * injection E as <- E. destruct (IH u Hts E) as (mid & rest' & -> & -> & ->).
        exists (Txt c :: mid), rest'. auto.
    + rewrite render_tag in E. destruct u as [|d u]; cbn [app] in E.
      * injection E as E.
        apply first_gt_unique in E as [E1 E2];
          [| apply noAngle_notGt; exact Ht | apply noAngle_notGt; exact Hcl].
        exists [], ts. rewrite E1, E2. auto.
      * injection E as <- E.
        apply body_before_lt in E as (u' & -> & E);
          [| apply noAngle_notLt; exact Ht].
        destruct (IH u' Hts E) as (mid & rest' & -> & -> & ->).
        exists (Tag b :: mid), rest'. split; [reflexivity|]. split; [|reflexivity].
        rewrite renderAll_cons, render_tag. reflexivity.
Qed.

Lemma pairedNames_plain : forallb plainName pairedNames = true.
Proof. reflexivity. Qed.

Lemma m_Lit_inv (w : string) pre rst cs (k : cont) e :
  m (Lit w) (MState pre rst cs) k = Some e ->
  rst = str w ++ skipn (length (str w)) rst
  /\ k (MState (rev (str w) ++ pre) (skipn (length (str w)) rst) cs) = Some e.
Proof.
  rewrite m_Lit. destruct (startsWith (str w) rst) eqn:E; [|discriminate].
  intros H. split; [apply startsWith_app; exact E|exact H].
Qed.


Lemma streq_eq (a b : jsstring) : streq a b = true -> a = b.
Proof.
  revert b. induction a as [|x a IH]; intros [|y b] H; try discriminate.
  - reflexivity.
  - cbn [streq] in H. apply andb_true_iff in H as [Hx H].
    apply N.eqb_eq in Hx. subst y. rewrite (IH b H). reflexivity.
Qed.

Lemma pairedNames_cases (P : string -> Prop) :
  P "ins"%string -> P "del"%string -> P "ref"%string -> P "authorialNote"%string ->
  forall nm, In nm pairedNames -> P nm.
Proof.
  intros H1 H2 H3 H4 nm [<-|[<-|[<-|[<-|[]]]]]; assumption.
Qed.

Lemma closeBody_shape (cl : jsstring) :
  closeBody cl = true -> exists nm, In nm pairedNames /\ cl = chr "/" :: str nm.
Proof.
  unfold closeBody. intros H. apply existsb_exists in H as (nm & Hin & H).
  exists nm. split; [exact Hin|]. apply streq_eq. exact H.
Qed.

Lemma openBody_shape (b : jsstring) :
  openBody b = true ->
  exists nm, In nm pairedNames /\ startsWith (str nm) b = true
             /\ wordAtBody (skipn (length (str nm)) b) = false.
Proof.
  unfold openBody. intros H. apply existsb_exists in H as (nm & Hin & H).
  apply andb_true_iff in H as [H1 H2]. apply negb_true_iff in H2.
  exists nm. auto.
Qed.

Lemma close_not_open (b : jsstring) : closeBody b = true -> openBody b = false.
Proof.
  intros H. apply closeBody_shape in H as (nm & _ & ->). reflexivity.
Qed.

Lemma kindOf_open (b : jsstring) : openBody b = true -> kindOf (Tag b) = Opening.
Proof. intros H. cbn [kindOf]. rewrite H. reflexivity. Qed.

Lemma kindOf_close (b : jsstring) : closeBody b = true -> kindOf (Tag b) = Closing.
Proof.
  intros H. cbn [kindOf]. rewrite (close_not_open b H), H. reflexivity.
Qed.

Lemma kindOf_not_open (b : jsstring) :
  openBody b = false -> kindOf (Tag b) <> Opening.
Proof. intros H. cbn [kindOf]. rewrite H. destruct (closeBody b); discriminate. Qed.

(** The closing tag of a paired element is matched where it stands. *)
Lemma closingTag_matches (cl R pre : jsstring) cs :
  closeBody cl = true ->
  exists e, m closingTag (MState pre (render (Tag cl) ++ R) cs) (fun e => Some e)
            = Some e.
Proof.
  intros H. apply closeBody_shape in H as (nm & Hin & ->). revert nm Hin.
  apply pairedNames_cases; eexists; vm_compute; reflexivity.
Qed.

Lemma renderAll_app (a b : list token) : renderAll (a ++ b) = renderAll a ++ renderAll b.
Proof. unfold renderAll. apply flat_map_app. Qed.

(** A lazy run stops at the first length after which what follows
    succeeds: it has failed after every shorter run. *)
Lemma lazy_try_inv_first (p : char -> bool) (k : cont) cs e :
  forall rst pre,
  lazy_try p k pre rst cs = Some e ->
  exists u v, rst = u ++ v /\ k (MState (rev u ++ pre) v cs) = Some e
              /\ forall u1 u2, u = u1 ++ u2 -> u2 <> [] ->
                   k (MState (rev u1 ++ pre) (u2 ++ v) cs) = None.
Proof.
  induction rst as [|c tl IH]; intros pre H.
  - cbn [lazy_try] in H. destruct (k (MState pre [] cs)) as [x|] eqn:E;
      cbn [orelse] in H; [|discriminate].
    exists [], []. split; [reflexivity|]. split; [rewrite <- H; exact E|].
    intros u1 u2 E12 Hne. destruct u1; destruct u2; try discriminate.
    contradiction.
  - cbn [lazy_try] in H. destruct (k (MState pre (c :: tl) cs)) as [x|] eqn:E;
      cbn [orelse] in H.
    + exists [], (c :: tl). split; [reflexivity|]. split; [rewrite <- H; exact E|].
      intros u1 u2 E12 Hne. destruct u1; destruct u2; try discriminate.
      contradiction.
    + destruct (p c); [|discriminate].
      destruct (IH (c :: pre) H) as (u & v & -> & Hk & Hmin).
      exists (c :: u), v. split; [reflexivity|]. split.
      * cbn [rev]. rewrite <- app_assoc. exact Hk.
      * intros u1 u2 E12 Hne. destruct u1 as [|d u1]; cbn [app] in E12.
        -- subst u2. exact E.
        -- injection E12 as <- E12. cbn [rev]. rewrite <- app_assoc.
           apply Hmin; assumption.
Qed.

Lemma notClosing_all (l : list token) :
  (forall m1 c0 m2, l = m1 ++ Tag c0 :: m2 -> closeBody c0 = true -> False) ->
  forallb notClosing l = true.
Proof.
  induction l as [|t l IH]; intros H; [reflexivity|].
  cbn [forallb]. rewrite IH.
  - rewrite andb_true_r. destruct t as [c|b0]; [reflexivity|].
    destruct (closeBody b0) eqn:E.
    + exfalso. exact (H [] b0 l eq_refl E).
    + unfold notClosing. cbn [kindOf]. rewrite E. destruct (openBody b0); reflexivity.
  - intros m1 c0 m2 -> Hc. exact (H (t :: m1) c0 m2 eq_refl Hc).
Qed.

Lemma pairedNames_word (nm : string) :
  In nm pairedNames -> isWordAt (rev (str nm) ++ [chr "<"]) = true.
Proof. revert nm. apply pairedNames_cases; reflexivity. Qed.

(** A match of the paired pattern at a tag starts at an opening tag of a
    paired element, ends with the first closing tag after it, which is a
    token of the text, and captures the tokens in between. *)
Lemma paired_inv (b pre : jsstring) (ts : list token) (e : mstate) :
  forallb noAngle b = true -> forallb wfToken ts = true ->
  m PAIRED (MState pre (chr "<" :: b ++ chr ">" :: renderAll ts) []) (fun e => Some e)
  = Some e ->
  exists mid cl rest',
    ts = mid ++ Tag cl :: rest' /\ rest e = renderAll rest'
    /\ caps e = [(1, renderAll mid)]
    /\ openBody b = true /\ closeBody cl = true /\ forallb notClosing mid = true.
Proof.
  intros Hb Hts.
  change PAIRED
    with (Seq (Lit1 "<") (Seq (AltL (map Lit pairedNames))
            (Seq WordB (Seq (Star true (Chr notGt)) (Seq (Lit1 ">")
               (Seq (Group 1 (Star false anyChar)) closingTag)))))).
  rewrite m_Seq, m_Lit1, m_Seq, m_AltL_names by discriminate.
  intros H. apply tryNames_inv in H as (nm & Hnm & H).
  assert (Pnm : plainName nm = true).
  { pose proof pairedNames_plain as P. rewrite forallb_forall in P. apply P, Hnm. }
  rewrite m_Lit in H. rewrite startsWith_before_gt in H by exact Pnm.
  destruct (startsWith (str nm) b) eqn:Es; [|discriminate].
  rewrite startsWith_skipn in H by exact Es.
  rewrite m_Seq, m_WordB in H. cbn [before rest] in H.
  rewrite isWordAt_app, isWordAt_body, (pairedNames_word Hnm) in H.
  destruct (wordAtBody (skipn (length (str nm)) b)) eqn:Ew; [discriminate|].
  cbn [xorb] in H.
  assert (Hopen : openBody b = true).
  { unfold openBody. apply existsb_exists. exists nm. split; [exact Hnm|].
    rewrite Es, Ew. reflexivity. }
  rewrite m_Seq, m_star_greedy in H.
  apply greedy_try_inv in H as (u & v & E & Hu & H).
  rewrite m_Seq in H. unfold Lit1 at 1 in H.
  destruct v as [|g v]; [discriminate|].
  rewrite m_Chr_cons in H.
  destruct (N.eqb_spec (chr ">") g) as [<-|]; [|discriminate].
  apply first_gt_unique in E as [-> ->];
    [| apply forallb_skipn, noAngle_notGt; exact Hb | exact Hu].
  rewrite m_Seq, m_Group in H. unfold anyChar in H. rewrite m_star_lazy in H.
  apply lazy_try_inv_first in H as (u & v & E & H & Hmin).
  cbn [rest before caps] in H, Hmin. rewrite E in H, Hmin.
  rewrite firstn_consumed in H.
  change closingTag
    with (Seq (Lit "</") (Seq (AltL (map Lit pairedNames)) (Lit1 ">"))) in H.
  rewrite m_Seq in H. apply m_Lit_inv in H as [Ev H].
  rewrite m_Seq, m_AltL_names in H by discriminate.
  apply tryNames_inv in H as (nm' & Hnm' & H).
  assert (Pnm' : plainName nm' = true).
  { pose proof pairedNames_plain as P. rewrite forallb_forall in P. apply P, Hnm'. }
  apply m_Lit_inv in H as [Ev' H].
  unfold Lit1 in H.
  destruct (skipn (length (str nm')) (skipn (length (str "</")) v)) as [|g v2] eqn:Ev2;
    [discriminate|].
  rewrite m_Chr_cons in H.
  destruct (N.eqb_spec (chr ">") g) as [<-|]; [|discriminate].
  injection H as <-. cbn [rest caps].
  assert (Ev3 : v = chr "<" :: (chr "/" :: str nm') ++ chr ">" :: v2).
  { etransitivity; [exact Ev|]. rewrite Ev'. reflexivity. }
  assert (Esplit : renderAll ts
                   = u ++ chr "<" :: (chr "/" :: str nm') ++ chr ">" :: v2).
  { rewrite E, Ev3. reflexivity. }
  assert (Hcl : forallb noAngle (chr "/" :: str nm') = true).
  { cbn [forallb]. unfold plainName in Pnm'. rewrite Pnm'. reflexivity. }
  destruct (@tokens_split _ v2 Hcl ts u Hts Esplit) as (mid & rest' & -> & -> & ->).
  exists mid, (chr "/" :: str nm'), rest'.
  split; [reflexivity|]. split; [reflexivity|]. split; [reflexivity|].
  split; [exact Hopen|]. split.
  - unfold closeBody. apply existsb_exists. exists nm'. split; [exact Hnm'|].
    clear. induction (chr "/" :: str nm') as [|x l IH]; [reflexivity|].
    cbn [streq]. rewrite N.eqb_refl. exact IH.
  - apply notClosing_all. intros m1 c0 m2 Em Hc0.
    assert (Hn := Hmin (renderAll m1) (render (Tag c0) ++ renderAll m2)).
    rewrite <- app_assoc in Hn. rewrite Em in Hn.
    match type of Hn with
    | _ -> _ -> m closingTag (MState ?p _ ?c) _ = None =>
        destruct (@closingTag_matches c0 (renderAll m2 ++ v) p c Hc0) as (e0 & He0)
    end.
    rewrite Hn in He0; [discriminate| |discriminate].
    rewrite renderAll_app, renderAll_cons. reflexivity.
Qed.

Lemma sublist_refl (A : Type) (l : list A) : sublist l l.
Proof. induction l; constructor; assumption. Qed.

Lemma sublist_app (A : Type) (a a' b b' : list A) :
  sublist a a' -> sublist b b' -> sublist (a ++ b) (a' ++ b').
Proof.
  intros Ha Hb. induction Ha; cbn [app]; try constructor; assumption.
Qed.

Lemma sublist_forallb (A : Type) (p : A -> bool) (l1 l2 : list A) :
  sublist l1 l2 -> forallb p l2 = true -> forallb p l1 = true.
Proof.
  induction 1 as [|x l1 l2 _ IH|x l1 l2 _ IH]; cbn [forallb]; intros H; auto.
  - apply andb_true_iff in H as [Hx H]. rewrite Hx, (IH H). reflexivity.
  - apply andb_true_iff in H as [_ H]. exact (IH H).
Qed.

Lemma sublist_filter (A : Type) (p : A -> bool) (l : list A) : sublist (filter p l) l.
Proof.
  induction l as [|x l IH]; cbn [filter]; [constructor|].
  destruct (p x); constructor; assumption.
Qed.

Lemma forallb_filter (A : Type) (p : A -> bool) (l : list A) :
  forallb p (filter p l) = true.
Proof.
  induction l as [|x l IH]; cbn [filter]; [reflexivity|].
  destruct (p x) eqn:E; cbn [forallb]; [rewrite E|]; exact IH.
Qed.

(** The pass over the paired elements leaves a text whose tokens are
    tokens of its input. *)
Lemma paired_pass :
  forall n ts pre,
  length ts <= n ->
  forallb wfToken ts = true ->
  exists ts', sublist ts' ts
              /\ replace_from PAIRED (fun x => capture 1 x) pre (renderAll ts) 0
                 = renderAll ts'.
Proof.
  assert (Shape : exists r, PAIRED = Seq (Lit1 "<") r) by (eexists; reflexivity).
  destruct Shape as (r & Shape).
  induction n as [|n IH]; intros ts pre Hlen Hwf.
  - destruct ts; [|simpl in Hlen; lia]. exists []. split; [constructor|].
    rewrite replace_from_eq, Shape, matchAt_not_lt by exact I. reflexivity.
  - destruct ts as [|t ts].
    + exists []. split; [constructor|].
      rewrite replace_from_eq, Shape, matchAt_not_lt by exact I. reflexivity.
    + cbn [length] in Hlen. cbn [forallb] in Hwf.
      apply andb_true_iff in Hwf as [Ht Hts].
      rewrite renderAll_cons. destruct t as [c|b]; cbn [wfToken] in Ht.
      * assert (EQ : replace_from PAIRED (fun x => capture 1 x) pre
                       (render (Txt c) ++ renderAll ts) 0
                     = [c] ++ replace_from PAIRED (fun x => capture 1 x)
                                (rev [c] ++ pre) (renderAll ts) 0).
        { rewrite Shape. apply (replace_copy r (fun x => capture 1 x) [c]).
          cbn [forallb]. rewrite Ht. reflexivity. }
        destruct (IH ts (rev [c] ++ pre)) as (ts' & Hsub & E); [lia|exact Hts|].
        exists (Txt c :: ts'). split; [constructor; exact Hsub|].
        rewrite EQ, E. reflexivity.
      * rewrite render_tag.
        destruct (m PAIRED (MState pre (chr "<" :: b ++ chr ">" :: renderAll ts) [])
                    (fun e => Some e)) as [e|] eqn:He.
        -- destruct (paired_inv b pre ts Ht Hts He)
             as (mid & cl & rest' & -> & Hr & Hc & _).
           assert (ER : b ++ chr ">" :: renderAll (mid ++ Tag cl :: rest')
                        = (b ++ chr ">" :: renderAll mid ++ render (Tag cl))
                          ++ renderAll rest').
           { rewrite renderAll_app, renderAll_cons.
             rewrite <- !app_assoc. cbn [app]. rewrite <- !app_assoc. reflexivity. }
           rewrite ER in He |- *.
           pose proof (@replace_matched PAIRED (fun x => capture 1 x) _ _ _ _ _ He Hr)
             as EQ.
           destruct (IH rest' (rev (b ++ chr ">" :: renderAll mid ++ render (Tag cl))
                               ++ chr "<" :: pre))
             as (ts' & Hsub & E).
           { rewrite length_app in Hlen. cbn [length] in Hlen. lia. }
           { rewrite forallb_app in Hts. apply andb_true_iff in Hts as [_ Hts].
             cbn [forallb] in Hts. apply andb_true_iff in Hts as [_ Hts]. exact Hts. }
           exists (mid ++ ts'). split.
           ++ constructor. apply sublist_app; [apply sublist_refl|].
              constructor. exact Hsub.
           ++ rewrite EQ, E. unfold capture, group. cbn [m_end]. rewrite Hc.
              cbn [lookupCap find fst snd Nat.eqb]. rewrite renderAll_app.
              reflexivity.
        -- assert (EB : b ++ chr ">" :: renderAll ts = (b ++ [chr ">"]) ++ renderAll ts)
             by (rewrite <- app_assoc; reflexivity).
           assert (EQ : replace_from PAIRED (fun x => capture 1 x) pre
                          (chr "<" :: b ++ chr ">" :: renderAll ts) 0
                        = chr "<" :: (b ++ [chr ">"])
                          ++ replace_from PAIRED (fun x => capture 1 x)
                               (rev (b ++ [chr ">"]) ++ chr "<" :: pre)
                               (renderAll ts) 0).
           { rewrite replace_from_eq. unfold matchAt. rewrite He. f_equal.
             rewrite EB, Shape.
             apply (replace_copy r (fun x => capture 1 x) (b ++ [chr ">"])).
             apply body_then_gt. exact Ht. }
           destruct (IH ts (rev (b ++ [chr ">"]) ++ chr "<" :: pre))
             as (ts' & Hsub & E); [lia|exact Hts|].
           exists (Tag b :: ts'). split; [constructor; exact Hsub|].
           rewrite EQ, E, renderAll_cons, render_tag, <- app_assoc. reflexivity.
Qed.

Lemma self_closing_names_subset (b : jsstring) :
  selfClosingBody ["noteRef"; "marker"; "ref"]%string b = false ->
  selfClosingBody ["noteRef"; "marker"]%string b = false.
Proof.
  unfold selfClosingBody. cbn [existsb].
  intros H. apply orb_false_iff in H as [H1 H]. apply orb_false_iff in H as [H2 _].
  rewrite H1, H2. reflexivity.
Qed.

(** C6, amended.  When every opening angle bracket of the input starts a
    tag (it is followed by code units other than angle brackets and then a
    closing angle bracket), one application of the flattener leaves no
    self-closing noteRef or marker element, wherever it was nested. *)
Theorem flatten_no_self_closing (xml : jsstring) :
  tagsDelimited false xml = true ->
  hasSelfClosing (flattenInlineElements xml) = false.
Proof.
  intros H. destruct (proj1 (tokens_of_delimited xml) H) as (ts & Hwf & ->).
  unfold flattenInlineElements, replaceAll.
  rewrite strip_self_closing by (try discriminate; auto).
  set (p3 := fun t => negb (selfClosingToken ["noteRef"; "marker"; "ref"]%string t)).
  assert (Hwf1 : forallb wfToken (filter p3 ts) = true)
    by (apply (sublist_forallb _ (sublist_filter p3 ts)); exact Hwf).
  destruct (@paired_pass (length (filter p3 ts)) (filter p3 ts) [] (le_n _) Hwf1)
    as (ts2 & Hsub2 & ->).
  assert (Hwf2 : forallb wfToken ts2 = true)
    by (apply (sublist_forallb _ Hsub2); exact Hwf1).
  assert (Hsc2 : forallb p3 ts2 = true)
    by (apply (sublist_forallb _ Hsub2); apply forallb_filter).
  rewrite strip_self_closing by (try discriminate; auto).
  set (p1 := fun t => negb (selfClosingToken ["noteRef"]%string t)).
  unfold hasSelfClosing, test, exec.
  rewrite search_tokens_none; try discriminate; auto.
  - apply (sublist_forallb _ (sublist_filter p1 ts2)). exact Hwf2.
  - apply (sublist_forallb _ (sublist_filter p1 ts2)).
    rewrite forallb_forall in *. intros t Ht. specialize (Hsc2 t Ht).
    unfold p3 in Hsc2. destruct t as [c|b]; [reflexivity|].
    cbn [selfClosingToken] in *. apply negb_true_iff in Hsc2.
    rewrite (self_closing_names_subset b Hsc2). reflexivity.
Qed.

Lemma flatten_no_self_closing_witness :
  tagsDelimited false (str "<p>Most <ins a='1'>UK <noteRef href='x'/>GDPR<marker n='2'/></ins>.</p>") = true
  /\ hasSelfClosing
       (flattenInlineElements
          (str "<p>Most <ins a='1'>UK <noteRef href='x'/>GDPR<marker n='2'/></ins>.</p>"))
     = false.
Proof.
  split.
  - vm_compute. reflexivity.
  - apply (@flatten_no_self_closing
             (str "<p>Most <ins a='1'>UK <noteRef href='x'/>GDPR<marker n='2'/></ins>.</p>")).
    vm_compute. reflexivity.
Defined.

(** ** Flattener: paired inline elements that are not nested *)

Lemma lazy_try_some (p : char -> bool) (k : cont) cs :
  forall u v pre,
  forallb p u = true ->
  (exists x, k (MState (rev u ++ pre) v cs) = Some x) ->
  exists x, lazy_try p k pre (u ++ v) cs = Some x.
Proof.
  induction u as [|c u IH]; intros v pre Hu (x & Hk).
  - cbn [app rev] in *. exists x. destruct v; cbn [lazy_try]; rewrite Hk; reflexivity.
  - cbn [forallb] in Hu. apply andb_true_iff in Hu as [Hc Hu].
    cbn [app lazy_try].
    destruct (k (MState pre (c :: u ++ v) cs)) as [y|]; cbn [orelse].
    + exists y. reflexivity.
    + rewrite Hc. apply IH; [exact Hu|]. exists x.
      cbn [rev] in Hk. rewrite <- app_assoc in Hk. exact Hk.
Qed.

Lemma tryNames_some (names : list string) s (k : cont) nm :
  In nm names -> (exists x, m (Lit nm) s k = Some x) ->
  exists x, tryNames names s k = Some x.
Proof.
  induction names as [|n tl IH]; intros Hin Hx; [contradiction|].
  cbn [tryNames]. destruct Hin as [->|Hin].
  - destruct Hx as (x & ->). exists x. reflexivity.
  - destruct (m (Lit n) s k) as [y|]; cbn [orelse]; [exists y; reflexivity|].
    apply IH; assumption.
Qed.

Lemma forallb_any (l : jsstring) : forallb (fun _ => true) l = true.
Proof. induction l; [reflexivity|exact IHl]. Qed.

(** The paired pattern matches at an opening tag that is followed,
    anywhere later, by a closing tag. *)
Lemma paired_some (b pre : jsstring) (mid rest' : list token) (cl : jsstring) :
  forallb noAngle b = true -> openBody b = true -> closeBody cl = true ->
  exists e,
    m PAIRED (MState pre (chr "<" :: b ++ chr ">" :: renderAll (mid ++ Tag cl :: rest')) [])
      (fun e => Some e) = Some e.
Proof.
  intros Hb Ho Hc.
  apply openBody_shape in Ho as (nm & Hnm & Es & Ew).
  assert (Pnm : plainName nm = true).
  { pose proof pairedNames_plain as P. rewrite forallb_forall in P. apply P, Hnm. }
  change PAIRED
    with (Seq (Lit1 "<") (Seq (AltL (map Lit pairedNames))
            (Seq WordB (Seq (Star true (Chr notGt)) (Seq (Lit1 ">")
               (Seq (Group 1 (Star false anyChar)) closingTag)))))).
  rewrite m_Seq, m_Lit1, m_Seq, m_AltL_names by discriminate.
  apply tryNames_some with (nm := nm); [exact Hnm|].
  rewrite m_Lit, startsWith_before_gt, Es by exact Pnm.
  rewrite startsWith_skipn by exact Es.
  rewrite m_Seq, m_WordB. cbn [before rest].
  rewrite isWordAt_app, isWordAt_body, (pairedNames_word Hnm), Ew. cbn [xorb].
  rewrite m_Seq, m_star_greedy.
  match goal with
  | |- exists x, greedy_try _ ?K ?pre2 (?b2 ++ ?v) _ = Some x =>
      assert (HK : exists x, K (MState (rev b2 ++ pre2) v []) = Some x)
  end.
  { cbn beta. rewrite m_Seq, m_Lit1, m_Seq, m_Group. unfold anyChar.
    rewrite m_star_lazy. cbn [rest].
    rewrite renderAll_app, renderAll_cons.
    apply lazy_try_some; [apply forallb_any|].
    cbn beta. cbn [before rest caps]. apply closingTag_matches. exact Hc. }
  destruct HK as (x & Hx). exists x.
  apply greedy_try_max; [reflexivity| |exact Hx].
  apply forallb_skipn, noAngle_notGt. exact Hb.
Qed.

(** *** Opening and closing tags along a text *)

Lemma noPair_mono (ts : list token) : noPair true ts = true -> noPair false ts = true.
Proof.
  induction ts as [|t ts IH]; [reflexivity|]. cbn [noPair].
  destruct (kindOf t); cbn [negb andb]; auto. discriminate.
Qed.

Lemma noPair_tail (s : bool) (t : token) (ts : list token) :
  noPair s (t :: ts) = true -> noPair false ts = true.
Proof.
  cbn [noPair]. destruct (kindOf t).
  - apply noPair_mono.
  - intros H. apply andb_true_iff in H. apply H.
  - destruct s; [apply noPair_mono|auto].
Qed.

Lemma noPair_sublist (l1 l2 : list token) :
  sublist l1 l2 -> forall s, noPair s l2 = true -> noPair s l1 = true.
Proof.
  induction 1 as [|x l1 l2 _ IH|x l1 l2 _ IH]; intros s H; [reflexivity| |].
  - cbn [noPair] in *. destruct (kindOf x).
    + apply IH. exact H.
    + apply andb_true_iff in H as [-> H]. apply IH. exact H.
    + apply IH. exact H.
  - cbn [noPair] in H. destruct (kindOf x).
    + destruct s; [apply IH; exact H|]. apply noPair_mono, IH. exact H.
    + apply andb_true_iff in H as [Hs H]. destruct s; [discriminate|].
      apply IH. exact H.
    + apply IH. exact H.
Qed.

Lemma noPair_other_app (mid l : list token) (s : bool) :
  forallb isOther mid = true -> noPair s (mid ++ l) = noPair s l.
Proof.
  induction mid as [|t mid IH]; intros H; [reflexivity|].
  cbn [forallb] in H. apply andb_true_iff in H as [Ht H].
  cbn [app noPair]. unfold isOther in Ht.
  destruct (kindOf t); try discriminate. apply IH. exact H.
Qed.

Lemma noPair_other (l : list token) (s : bool) :
  forallb isOther l = true -> noPair s l = true.
Proof.
  intros H. rewrite <- (app_nil_r l). rewrite noPair_other_app by exact H.
  reflexivity.
Qed.

Lemma noPair_seen_close (mid rest' : list token) (cl : jsstring) :
  closeBody cl = true -> noPair true (mid ++ Tag cl :: rest') = false.
Proof.
  intros Hc. induction mid as [|t mid IH]; cbn [app noPair].
  - rewrite (kindOf_close cl Hc). reflexivity.
  - destruct (kindOf t); auto.
Qed.

Lemma unnested_inside_split (mid rest' : list token) (cl : jsstring) :
  forallb notClosing mid = true -> closeBody cl = true ->
  unnestedIn true (mid ++ Tag cl :: rest') = true ->
  forallb isOther mid = true /\ unnestedIn false rest' = true.
Proof.
  intros Hm Hc. induction mid as [|t mid IH]; cbn [app unnestedIn forallb].
  - rewrite (kindOf_close cl Hc). auto.
  - cbn [forallb] in Hm. apply andb_true_iff in Hm as [Ht Hm].
    unfold notClosing in Ht. unfold isOther at 1.
    destruct (kindOf t); cbn [negb andb]; try discriminate.
    apply IH. exact Hm.
Qed.

Lemma inside_no_close (l : list token) :
  forallb notClosing l = true -> unnestedIn true l = true ->
  forallb isOther l = true.
Proof.
  induction l as [|t l IH]; intros Hm H; [reflexivity|].
  cbn [forallb] in Hm. apply andb_true_iff in Hm as [Ht Hm].
  cbn [unnestedIn] in H. cbn [forallb]. unfold notClosing in Ht.
  unfold isOther at 1.
  destruct (kindOf t); cbn [negb andb] in *; try discriminate.
  apply IH; assumption.
Qed.

Lemma filter_all (A : Type) (p : A -> bool) (l : list A) :
  forallb p l = true -> filter p l = l.
Proof.
  induction l as [|x l IH]; intros H; [reflexivity|].
  cbn [forallb] in H. apply andb_true_iff in H as [Hx H].
  cbn [filter]. rewrite Hx, (IH H). reflexivity.
Qed.

(** *** The pass over the paired elements *)

(** A tag at which the paired pattern does not match is copied. *)
Lemma paired_copy_tag (b pre : jsstring) (ts : list token) :
  forallb noAngle b = true ->
  m PAIRED (MState pre (chr "<" :: b ++ chr ">" :: renderAll ts) []) (fun e => Some e)
  = None ->
  replace_from PAIRED (fun x => capture 1 x) pre (render (Tag b) ++ renderAll ts) 0
  = render (Tag b)
    ++ replace_from PAIRED (fun x => capture 1 x)
         (rev (b ++ [chr ">"]) ++ chr "<" :: pre) (renderAll ts) 0.
Proof.
  intros Hb He.
  assert (Shape : exists r, PAIRED = Seq (Lit1 "<") r) by (eexists; reflexivity).
  destruct Shape as (r & Shape).
  rewrite render_tag.
  assert (EB : b ++ chr ">" :: renderAll ts = (b ++ [chr ">"]) ++ renderAll ts)
    by (rewrite <- app_assoc; reflexivity).
  rewrite replace_from_eq. unfold matchAt. rewrite He.
  cbn [render app]. f_equal. rewrite EB, Shape.
  rewrite (replace_copy r (fun x => capture 1 x) (b ++ [chr ">"]))
    by (apply body_then_gt; exact Hb).
  rewrite <- app_assoc. reflexivity.
Qed.

Lemma paired_copy_txt (c : char) (pre : jsstring) (ts : list token) :
  notLt c = true ->
  replace_from PAIRED (fun x => capture 1 x) pre (render (Txt c) ++ renderAll ts) 0
  = render (Txt c)
    ++ replace_from PAIRED (fun x => capture 1 x) (c :: pre) (renderAll ts) 0.
Proof.
  intros Hc.
  assert (Shape : exists r, PAIRED = Seq (Lit1 "<") r) by (eexists; reflexivity).
  destruct Shape as (r & Shape). rewrite Shape.
  apply (replace_copy r (fun x => capture 1 x) [c]).
  cbn [forallb]. rewrite Hc. reflexivity.
Qed.

(** The pass changes nothing where no opening tag is followed by a
    closing tag. *)
Lemma paired_pass_id :
  forall ts pre,
  forallb wfToken ts = true -> noPair false ts = true ->
  replace_from PAIRED (fun x => capture 1 x) pre (renderAll ts) 0 = renderAll ts.
Proof.
  induction ts as [|t ts IH]; intros pre Hwf Hnp.
  - reflexivity.
  - cbn [forallb] in Hwf. apply andb_true_iff in Hwf as [Ht Hts].
    pose proof (noPair_tail _ _ _ Hnp) as Hnp'.
    rewrite renderAll_cons. destruct t as [c|b]; cbn [wfToken] in Ht.
    + rewrite paired_copy_txt by exact Ht. rewrite IH by assumption. reflexivity.
    + destruct (m PAIRED (MState pre (chr "<" :: b ++ chr ">" :: renderAll ts) [])
                  (fun e => Some e)) as [e|] eqn:He.
      * exfalso.
        destruct (paired_inv b pre ts Ht Hts He)
          as (mid & cl & rest' & -> & _ & _ & Ho & Hc & _).
        cbn [noPair] in Hnp. rewrite (kindOf_open b Ho) in Hnp.
        rewrite (noPair_seen_close mid rest' cl Hc) in Hnp. discriminate.
      * rewrite paired_copy_tag by assumption. rewrite IH by assumption.
        reflexivity.
Qed.

(** On a text whose paired elements are not nested, the pass leaves a
    text in which no opening tag is followed by a closing tag. *)
Lemma paired_pass_unnested :
  forall n ts pre,
  length ts <= n ->
  forallb wfToken ts = true -> unnestedIn false ts = true ->
  exists ts', sublist ts' ts
              /\ replace_from PAIRED (fun x => capture 1 x) pre (renderAll ts) 0
                 = renderAll ts'
              /\ noPair false ts' = true.
Proof.
  induction n as [|n IH]; intros ts pre Hlen Hwf Hun.
  - destruct ts; [|simpl in Hlen; lia]. exists []. split; [constructor|].
    split; reflexivity.
  - destruct ts as [|t ts].
    + exists []. split; [constructor|]. split; reflexivity.
    + cbn [length] in Hlen. cbn [forallb] in Hwf.
      apply andb_true_iff in Hwf as [Ht Hts].
      rewrite renderAll_cons. destruct t as [c|b]; cbn [wfToken] in Ht.
      * cbn [unnestedIn kindOf] in Hun.
        destruct (IH ts (c :: pre)) as (ts' & Hsub & E & Hnp);
          [lia|exact Hts|exact Hun|].
        exists (Txt c :: ts'). split; [constructor; exact Hsub|]. split.
        -- rewrite paired_copy_txt by exact Ht. rewrite E. reflexivity.
        -- exact Hnp.
      * destruct (m PAIRED (MState pre (chr "<" :: b ++ chr ">" :: renderAll ts) [])
                    (fun e => Some e)) as [e|] eqn:He.
        -- destruct (paired_inv b pre ts Ht Hts He)
             as (mid & cl & rest' & -> & Hr & Hcap & Ho & Hc & Hfirst).
           cbn [unnestedIn] in Hun. rewrite (kindOf_open b Ho) in Hun.
           cbn [negb andb] in Hun.
           destruct (unnested_inside_split mid rest' cl Hfirst Hc Hun) as [Hmid Hrest].
           assert (ER : b ++ chr ">" :: renderAll (mid ++ Tag cl :: rest')
                        = (b ++ chr ">" :: renderAll mid ++ render (Tag cl))
                          ++ renderAll rest').
           { rewrite renderAll_app, renderAll_cons.
             rewrite <- !app_assoc. cbn [app]. rewrite <- !app_assoc. reflexivity. }
           rewrite render_tag. rewrite ER in He |- *.
           pose proof (@replace_matched PAIRED (fun x => capture 1 x) _ _ _ _ _ He Hr)
             as EQ.
           destruct (IH rest' (rev (b ++ chr ">" :: renderAll mid ++ render (Tag cl))
                               ++ chr "<" :: pre))
             as (ts' & Hsub & E & Hnp).
           { rewrite length_app in Hlen. cbn [length] in Hlen. lia. }
           { rewrite forallb_app in Hts. apply andb_true_iff in Hts as [_ Hts].
             cbn [forallb] in Hts. apply andb_true_iff in Hts as [_ Hts]. exact Hts. }
           { exact Hrest. }
           exists (mid ++ ts'). split; [|split].
           ++ constructor. apply sublist_app; [apply sublist_refl|].
              constructor. exact Hsub.
           ++ rewrite EQ, E. unfold capture, group. cbn [m_end]. rewrite Hcap.
              cbn [lookupCap find fst snd Nat.eqb]. rewrite renderAll_app.
              reflexivity.
           ++ rewrite noPair_other_app by exact Hmid. exact Hnp.
        -- destruct (openBody b) eqn:Ho.
           ++ assert (Hnc : forallb notClosing ts = true).
              { apply notClosing_all. intros m1 c0 m2 -> Hc0.
                destruct (@paired_some b pre m1 m2 c0 Ht Ho Hc0) as (e & He').
                rewrite He' in He. discriminate. }
              cbn [unnestedIn] in Hun. rewrite (kindOf_open b Ho) in Hun.
              cbn [negb andb] in Hun.
              pose proof (inside_no_close ts Hnc Hun) as Hoth.
              exists (Tag b :: ts). split; [apply sublist_refl|]. split.
              ** rewrite paired_copy_tag by assumption.
                 rewrite paired_pass_id;
                   [reflexivity|exact Hts|apply noPair_other; exact Hoth].
              ** cbn [noPair]. rewrite (kindOf_open b Ho).
                 apply noPair_other. exact Hoth.
           ++ assert (Hun' : unnestedIn false ts = true).
              { cbn [unnestedIn kindOf] in Hun. rewrite Ho in Hun.
                destruct (closeBody b); exact Hun. }
              destruct (IH ts (rev (b ++ [chr ">"]) ++ chr "<" :: pre))
                as (ts' & Hsub & E & Hnp); [lia|exact Hts|exact Hun'|].
              exists (Tag b :: ts'). split; [constructor; exact Hsub|]. split.
              ** rewrite paired_copy_tag by assumption. rewrite E. reflexivity.
              ** cbn [noPair kindOf]. rewrite Ho.
                 destruct (closeBody b); cbn [negb andb]; exact Hnp.
Qed.

(** *** Reading the tokens off a text *)

Lemma tokenize_tag (R : jsstring) :
  forall b acc,
  forallb noAngle b = true ->
  tokenize (Some acc) (b ++ chr ">" :: R) = Tag (rev acc ++ b) :: tokenize None R.
Proof.
  induction b as [|c b IH]; intros acc Hb.
  - cbn [app tokenize]. rewrite N.eqb_refl, app_nil_r. reflexivity.
  - cbn [forallb] in Hb. apply andb_true_iff in Hb as [Hc Hb].
    cbn [app tokenize]. unfold noAngle, notGt in Hc.
    apply andb_true_iff in Hc as [_ Hc]. apply negb_true_iff in Hc. rewrite Hc.
    rewrite IH by exact Hb. cbn [rev]. rewrite <- app_assoc. reflexivity.
Qed.

Lemma tokenize_render (ts : list token) :
  forallb wfToken ts = true -> tokenize None (renderAll ts) = ts.
Proof.
  induction ts as [|t ts IH]; intros H; [reflexivity|].
  cbn [forallb] in H. apply andb_true_iff in H as [Ht Hts].
  rewrite renderAll_cons. destruct t as [c|b]; cbn [wfToken] in Ht.
  - cbn [render app tokenize]. unfold notLt in Ht. apply negb_true_iff in Ht.
    rewrite N.eqb_sym, Ht, IH by exact Hts. reflexivity.
  - rewrite render_tag. cbn [tokenize]. rewrite N.eqb_refl.
    rewrite tokenize_tag by exact Ht. rewrite IH by exact Hts. reflexivity.
Qed.

Lemma self_closing_noteRef_subset (b : jsstring) :
  selfClosingBody ["noteRef"; "marker"; "ref"]%string b = false ->
  selfClosingBody ["noteRef"]%string b = false.
Proof.
  unfold selfClosingBody. cbn [existsb].
  intros H. apply orb_false_iff in H as [H1 _]. rewrite H1. reflexivity.
Qed.

Lemma kept_not_noteRef (ts : list token) :
  forallb keptByFirstPass ts = true ->
  forallb (fun t => negb (selfClosingToken ["noteRef"]%string t)) ts = true.
Proof.
  intros H. rewrite forallb_forall in *. intros t Ht. specialize (H t Ht).
  unfold keptByFirstPass in H. destruct t as [c|b]; [reflexivity|].
  cbn [selfClosingToken] in *. apply negb_true_iff in H.
  rewrite (self_closing_noteRef_subset b H). reflexivity.
Qed.

(** One application to a text whose tags are delimited and whose paired
    elements are not nested: what it returns. *)
Lemma flatten_unnested_tokens (ts : list token) :
  forallb wfToken ts = true ->
  unnestedIn false (filter keptByFirstPass ts) = true ->
  exists ts3,
    forallb wfToken ts3 = true /\ forallb keptByFirstPass ts3 = true
    /\ noPair false ts3 = true
    /\ flattenInlineElements (renderAll ts) = renderAll ts3.
Proof.
  intros Hwf Hun. unfold flattenInlineElements, replaceAll.
  rewrite strip_self_closing by (try discriminate; auto).
  change (fun t => negb (selfClosingToken ["noteRef"; "marker"; "ref"]%string t))
    with keptByFirstPass.
  assert (Hwf1 : forallb wfToken (filter keptByFirstPass ts) = true)
    by (apply (sublist_forallb _ (sublist_filter keptByFirstPass ts)); exact Hwf).
  destruct (@paired_pass_unnested _ (filter keptByFirstPass ts) [] (le_n _) Hwf1 Hun)
    as (ts2 & Hsub2 & -> & Hnp2).
  assert (Hwf2 : forallb wfToken ts2 = true)
    by (apply (sublist_forallb _ Hsub2); exact Hwf1).
  assert (Hk2 : forallb keptByFirstPass ts2 = true)
    by (apply (sublist_forallb _ Hsub2); apply forallb_filter).
  rewrite strip_self_closing by (try discriminate; auto).
  rewrite filter_all by (apply kept_not_noteRef; exact Hk2).
  exists ts2. auto.
Qed.

(** C5, amended.  On a text whose tags are delimited (every opening angle
    bracket is followed by code units other than angle brackets and then a
    closing angle bracket) and whose paired inline elements are not
    nested, the flattener is idempotent: a second application returns
    what the first one returned. *)
Theorem flatten_idempotent_unnested (xml : jsstring) :
  tagsDelimited false xml = true -> unnested xml = true ->
  flattenInlineElements (flattenInlineElements xml) = flattenInlineElements xml.
Proof.
  intros H U. destruct (proj1 (tokens_of_delimited xml) H) as (ts & Hwf & ->).
  unfold unnested in U. rewrite tokenize_render in U by exact Hwf.
  destruct (flatten_unnested_tokens ts Hwf U) as (ts3 & W3 & K3 & N3 & ->).
  unfold flattenInlineElements, replaceAll.
  rewrite strip_self_closing by (try discriminate; auto).
  change (fun t => negb (selfClosingToken ["noteRef"; "marker"; "ref"]%string t))
    with keptByFirstPass.
  rewrite filter_all by exact K3.
  rewrite paired_pass_id by assumption.
  rewrite strip_self_closing by (try discriminate; auto).
  rewrite filter_all by (apply kept_not_noteRef; exact K3).
  reflexivity.
Qed.

Lemma flatten_idempotent_unnested_witness :
  tagsDelimited false
    (str "<p>Most <ins a='1'>UK <noteRef href='x'/>GDPR</ins> and <ref href='y'>Act</ref>.</p>")
  = true
  /\ unnested
       (str "<p>Most <ins a='1'>UK <noteRef href='x'/>GDPR</ins> and <ref href='y'>Act</ref>.</p>")
     = true
  /\ flattenInlineElements
       (flattenInlineElements
          (str "<p>Most <ins a='1'>UK <noteRef href='x'/>GDPR</ins> and <ref href='y'>Act</ref>.</p>"))
     = flattenInlineElements
         (str "<p>Most <ins a='1'>UK <noteRef href='x'/>GDPR</ins> and <ref href='y'>Act</ref>.</p>").
Proof.
  split; [vm_compute; reflexivity|]. split; [vm_compute; reflexivity|].
  apply (@flatten_idempotent_unnested
           (str "<p>Most <ins a='1'>UK <noteRef href='x'/>GDPR</ins> and <ref href='y'>Act</ref>.</p>"));
    vm_compute; reflexivity.
Defined.

(** * Further properties *)

(** ** The matcher is sound for the declarative reading of patterns *)

Lemma star_loop_sound (g : bool) (a : regex) :
  (forall s k e, m a s k = Some e -> exists s', matches a s s' /\ k s' = Some e) ->
  forall n s (k : cont) e,
  star_loop (m a) g k n s = Some e ->
  exists s', matches (Star g a) s s' /\ k s' = Some e.
Proof.
  intros IHa. induction n as [|n IH]; intros s k e H.
  - exists s. split; [constructor|exact H].
  - cbn [star_loop] in H.
    assert (Again : forall e',
              m a s (fun s' => if length (rest s') <? length (rest s)
                               then star_loop (m a) g k n s' else None) = Some e' ->
              exists s', matches (Star g a) s s' /\ k s' = Some e').
    { intros e' H'. apply IHa in H' as (s1 & Hs1 & H').
      destruct (length (rest s1) <? length (rest s)) eqn:L; [|discriminate].
      apply Nat.ltb_lt in L. apply IH in H' as (s2 & Hs2 & Hk).
      exists s2. split; [|exact Hk]. econstructor; eassumption. }
    destruct g.
    + destruct (m a s _) as [x|]; cbn [orelse] in H.
      * exact (Again e H).
      * exists s. split; [constructor|exact H].
    + destruct (k s) as [x|] eqn:E; cbn [orelse] in H.
      * injection H as ->. exists s. split; [constructor|exact E].
      * apply Again. exact H.
Qed.

(** Whatever the matcher returns is the result of the continuation on a
    state that the pattern reaches. *)
Lemma m_sound (r : regex) :
  forall s (k : cont) e,
  m r s k = Some e -> exists s', matches r s s' /\ k s' = Some e.
Proof.
  induction r as [|p|a IHa b IHb|a IHa b IHb|g a IHa|i a IHa| | |];
    intros s k e H; cbn [m] in H.
  - exists s. split; [constructor|exact H].
  - destruct s as [pre [|c tl] cs]; cbn [rest before caps] in H; [discriminate|].
    destruct (p c) eqn:E; [|discriminate].
    eexists. split; [constructor; exact E|exact H].
  - apply IHa in H as (s1 & H1 & H). apply IHb in H as (s2 & H2 & H).
    exists s2. split; [econstructor; eassumption|exact H].
  - destruct (m a s k) as [x|] eqn:E; cbn [orelse] in H.
    + injection H as ->. apply IHa in E as (s' & H1 & H).
      exists s'. split; [apply M_AltL; exact H1|exact H].
    + apply IHb in H as (s' & H1 & H).
      exists s'. split; [apply M_AltR; exact H1|exact H].
  - apply (star_loop_sound g IHa) in H. exact H.
  - apply IHa in H as (s' & H1 & H).
    eexists. split; [apply M_Group; exact H1|exact H].
  - destruct (before s) eqn:E; [|discriminate].
    exists s. split; [constructor; exact E|exact H].
  - destruct (rest s) eqn:E; [|discriminate].
    exists s. split; [constructor; exact E|exact H].
  - destruct (xorb _ _) eqn:E; [|discriminate].
    exists s. split; [constructor; exact E|exact H].
Qed.

(** A pattern consumes a prefix of the remaining input. *)
Lemma matches_span (r : regex) s s' :
  matches r s s' ->
  exists u, rest s = u ++ rest s' /\ before s' = rev u ++ before s.
Proof.
  induction 1 as [s|p c pre tl cs Hp|a b s s1 s2 _ (u1 & R1 & B1) _ (u2 & R2 & B2)
                 |a b s s' _ IH|a b s s' _ IH|g a s
                 |g a s s1 s2 _ (u1 & R1 & B1) _ _ (u2 & R2 & B2)
                 |i a s s' _ (u & R & B)|s _|s _|s _];
    try (exists []; split; reflexivity); try exact IH.
  - exists [c]. split; reflexivity.
  - exists (u1 ++ u2). rewrite R1, R2, B2, B1, rev_app_distr, !app_assoc. auto.
  - exists (u1 ++ u2). rewrite R1, R2, B2, B1, rev_app_distr, !app_assoc. auto.
  - exists u. cbn [rest before]. auto.
Qed.

Lemma matchAt_sound (r : regex) (pre rst : jsstring) (x : mresult) :
  matchAt r pre rst = Some x ->
  m_before x = pre /\ m_input x = rst
  /\ matches r (MState pre rst []) (m_end x).
Proof.
  unfold matchAt. destruct (m r _ _) as [e|] eqn:E; [|discriminate].
  intros H. injection H as <-. cbn [m_before m_input m_end].
  apply m_sound in E as (s' & Hs & Hk). injection Hk as ->. auto.
Qed.

(** A search returns a match that starts at some index of the input. *)
Lemma search_sound (r : regex) (x : mresult) :
  forall rst pre,
  search r pre rst = Some x ->
  exists u v, rst = u ++ v /\ m_before x = rev u ++ pre /\ m_input x = v
              /\ matches r (MState (rev u ++ pre) v []) (m_end x).
Proof.
  induction rst as [|c tl IH]; intros pre H; rewrite search_eq in H.
  - destruct (matchAt r pre []) as [y|] eqn:E; [|discriminate].
    injection H as ->. apply matchAt_sound in E as (B & I & M).
    exists [], []. auto.
  - destruct (matchAt r pre (c :: tl)) as [y|] eqn:E.
    + injection H as ->. apply matchAt_sound in E as (B & I & M).
      exists [], (c :: tl). auto.
    + apply IH in H as (u & v & -> & B & I & M).
      exists (c :: u), v. cbn [rev]. rewrite <- app_assoc. auto.
Qed.

(** *** What the derived forms consume *)

Lemma matches_Chr_inv (p : char -> bool) s s' :
  matches (Chr p) s s' ->
  exists c, p c = true /\ rest s = c :: rest s'
            /\ before s' = c :: before s /\ caps s' = caps s.
Proof. intros H. inversion H; subst. exists c. auto. Qed.

Lemma matches_Lit1_inv (a : ascii) s s' :
  matches (Lit1 a) s s' ->
  rest s = chr a :: rest s' /\ before s' = chr a :: before s /\ caps s' = caps s.
Proof.
  intros H. apply matches_Chr_inv in H as (c & Hc & R & B & C).
  apply N.eqb_eq in Hc. subst c. auto.
Qed.

Lemma matches_Seq_inv (a b : regex) s s2 :
  matches (Seq a b) s s2 -> exists s1, matches a s s1 /\ matches b s1 s2.
Proof. intros H. inversion H; subst. eauto. Qed.

Lemma matches_Alt_inv (a b : regex) s s' :
  matches (Alt a b) s s' -> matches a s s' \/ matches b s s'.
Proof. intros H. inversion H; subst; auto. Qed.

Lemma matches_Eps_inv s s' : matches Eps s s' -> s' = s.
Proof. intros H. inversion H; subst. reflexivity. Qed.

Lemma matches_Bol_inv s s' : matches Bol s s' -> s' = s /\ before s = [].
Proof. intros H. inversion H; subst. auto. Qed.

Lemma matches_Eol_inv s s' : matches Eol s s' -> s' = s /\ rest s = [].
Proof. intros H. inversion H; subst. auto. Qed.

Lemma matches_Group_inv (i : nat) (a : regex) s s2 :
  matches (Group i a) s s2 ->
  exists s1 u, matches a s s1 /\ rest s = u ++ rest s1
               /\ rest s2 = rest s1 /\ before s2 = before s1
               /\ caps s2 = (i, u) :: caps s1.
Proof.
  intros H. inversion H as [| | | | | | |i' a' s0 s' Ha| | |]; subst.
  destruct (matches_span Ha) as (u & R & B).
  exists s', u. cbn [rest before caps]. rewrite R at 2 3.
  rewrite firstn_consumed. auto.
Qed.

(** A star over a character set consumes a run of the set and records
    nothing. *)
Lemma matches_star_chr (g : bool) (p : char -> bool) s s' :
  matches (Star g (Chr p)) s s' ->
  exists u, forallb p u = true /\ rest s = u ++ rest s'
            /\ before s' = rev u ++ before s /\ caps s' = caps s.
Proof.
  intros H. remember (Star g (Chr p)) as r eqn:Er.
  induction H; try discriminate.
  - exists []. auto.
  - injection Er as -> ->.
    apply matches_Chr_inv in H as (c & Hc & R & B & C).
    destruct (IHmatches2 eq_refl) as (u & Hu & R2 & B2 & C2).
    exists (c :: u). cbn [forallb rev app]. rewrite Hc, Hu, R, R2, B2, B, C2, C.
    rewrite <- app_assoc. auto.
Qed.

Lemma matches_plus_chr (p : char -> bool) s s' :
  matches (Plus (Chr p)) s s' ->
  exists c u, p c = true /\ forallb p u = true /\ rest s = c :: u ++ rest s'
              /\ before s' = rev (c :: u) ++ before s /\ caps s' = caps s.
Proof.
  unfold Plus. intros H. apply matches_Seq_inv in H as (s1 & H1 & H2).
  apply matches_Chr_inv in H1 as (c & Hc & R & B & C).
  apply matches_star_chr in H2 as (u & Hu & R2 & B2 & C2).
  exists c, u. cbn [rev]. rewrite R, R2, B2, B, C2, C, <- app_assoc. auto.
Qed.

Lemma matches_Opt_inv (a : regex) s s' :
  matches (Opt a) s s' -> matches a s s' \/ s' = s.
Proof.
  unfold Opt. intros H. apply matches_Alt_inv in H as [H|H]; [left; exact H|].
  right. apply matches_Eps_inv. exact H.
Qed.

(** ** Citation grammar: what a parse retains *)

(** An optional parenthesised group: absent, or an opening parenthesis,
    the captured body and a closing parenthesis. *)
Lemma matches_opt_paren (i : nat) (body : regex) s s' :
  matches (Opt (SeqL [Lit1 "("; Group i body; Lit1 ")"])) s s' ->
  s' = s
  \/ exists sb se w,
       matches body sb se /\ caps sb = caps s
       /\ rest s = chr "(" :: w ++ chr ")" :: rest s'
       /\ rest sb = w ++ rest se
       /\ caps s' = (i, w) :: caps se.
Proof.
  intros H. apply matches_Opt_inv in H as [H|H]; [|left; exact H]. right.
  cbn [SeqL] in H. apply matches_Seq_inv in H as (s1 & H1 & H).
  apply matches_Seq_inv in H as (s2 & H2 & H3).
  apply matches_Lit1_inv in H1 as (R1 & _ & C1).
  apply matches_Group_inv in H2 as (se & w & Hb & Rw & R2 & _ & C2).
  apply matches_Lit1_inv in H3 as (R3 & _ & C3).
  exists s1, se, w. split; [exact Hb|]. split; [exact C1|].
  split; [|split; [exact Rw|rewrite C3; exact C2]].
  rewrite R1, Rw, <- R2, R3. reflexivity.
Qed.

(** What a match of the finer pattern has read: the digits of the
    section, an optional parenthesised run of digits and an optional
    parenthesised lowercase letter, which make up the whole token. *)
Lemma section_ref_inv (tok : jsstring) (x : mresult) :
  exec SECTION_REF tok = Some x ->
  exists d (sub par : option jsstring),
    nonEmpty d = true /\ forallb isDigit d = true
    /\ match sub with
       | Some n => nonEmpty n = true /\ forallb isDigit n = true
       | None => True
       end
    /\ match par with
       | Some l => exists c, l = [c] /\ isLowerAZ c = true
       | None => True
       end
    /\ tok = d ++ parenPart sub ++ parenPart par
    /\ group 1 x = Some d /\ group 2 x = sub /\ group 3 x = par.
Proof.
  unfold exec. intros H. apply search_sound in H as (u & v & -> & _ & _ & H).
  set (e := m_end x) in *. unfold group. fold e. clearbody e.
  unfold SECTION_REF in H. cbn [SeqL] in H.
  apply matches_Seq_inv in H as (s0 & H0 & H).
  apply matches_Bol_inv in H0 as [-> H0]. cbn [before] in H0.
  rewrite app_nil_r in H0. apply (f_equal (@rev char)) in H0.
  rewrite rev_involutive in H0. cbn [rev] in H0. subst u. cbn [rev app] in H |- *.
  apply matches_Seq_inv in H as (s1 & H1 & H).
  apply matches_Seq_inv in H as (s2 & H2 & H).
  apply matches_Seq_inv in H as (s3 & H3 & H4).
  apply matches_Eol_inv in H4 as [-> H4].
  apply matches_Group_inv in H1 as (s1' & d & Hd & Rd & R1 & _ & C1).
  apply matches_plus_chr in Hd as (c & w & Hc & Hw & Rd' & _ & Cd).
  cbn [rest caps] in Rd, Rd', Cd.
  assert (Ed : d = c :: w).
  { rewrite Rd' in Rd. change (c :: w ++ rest s1') with ((c :: w) ++ rest s1') in Rd.
    apply app_inv_tail in Rd. symmetry. exact Rd. }
  rewrite Cd in C1. rewrite <- R1 in Rd.
  apply matches_opt_paren in H2. apply matches_opt_paren in H3.
  assert (Hdig : nonEmpty d = true /\ forallb isDigit d = true).
  { rewrite Ed. cbn [nonEmpty forallb]. rewrite Hc, Hw. auto. }
  destruct Hdig as [Hne Hdig].
  destruct H2 as [->|(sb & se & n & Hn & Cb & R2 & Rn & C2)].
  - destruct H3 as [->|(sb' & se' & l & Hl & Cb' & R3 & Rl & C3)].
    + exists d, None, None. rewrite Rd, H4, C1. cbn [parenPart app].
      rewrite app_nil_r. cbn. auto 10.
    + apply matches_Chr_inv in Hl as (a & Ha & Ra & _ & Ca).
      assert (El : l = [a]).
      { rewrite Ra in Rl. change (a :: rest se') with ([a] ++ rest se') in Rl.
        apply app_inv_tail in Rl. symmetry. exact Rl. }
      exists d, None, (Some l). rewrite Rd, R3, H4, C3, Ca, Cb', C1.
      cbn [parenPart app].
      repeat split; auto; try (exists a; auto);
        cbn [str map list_ascii_of_string app]; rewrite <- ?app_assoc; reflexivity.
  - apply matches_plus_chr in Hn as (cn & wn & Hcn & Hwn & Rn' & _ & Cn).
    assert (En : n = cn :: wn).
    { rewrite Rn' in Rn. change (cn :: wn ++ rest se) with ((cn :: wn) ++ rest se) in Rn.
      apply app_inv_tail in Rn. symmetry. exact Rn. }
    assert (Hnn : nonEmpty n = true /\ forallb isDigit n = true).
    { rewrite En. cbn [nonEmpty forallb]. rewrite Hcn, Hwn. auto. }
    destruct H3 as [->|(sb' & se' & l & Hl & Cb' & R3 & Rl & C3)].
    + exists d, (Some n), None. rewrite Rd, R2, H4, C2, Cn, Cb, C1.
      cbn [parenPart app].
      repeat split; try apply Hnn; auto;
        cbn [str map list_ascii_of_string app]; rewrite ?app_nil_r, <- ?app_assoc;
        reflexivity.
    + apply matches_Chr_inv in Hl as (a & Ha & Ra & _ & Ca).
      assert (El : l = [a]).
      { rewrite Ra in Rl. change (a :: rest se') with ([a] ++ rest se') in Rl.
        apply app_inv_tail in Rl. symmetry. exact Rl. }
      exists d, (Some n), (Some l). rewrite Rd, R2, R3, H4, C3, Ca, Cb', C2, Cn, Cb, C1.
      cbn [parenPart app].
      repeat split; try apply Hnn; auto; try (exists a; auto);
        cbn [str map list_ascii_of_string app]; rewrite <- ?app_assoc; reflexivity.
Qed.

(** ** [String.prototype.trim] *)

Lemma trimStart_ws_prefix (s : jsstring) :
  exists l, forallb isWhiteSpace l = true /\ s = l ++ trimStart s.
Proof.
  induction s as [|c s (l & Hl & IH)]; [exists []; auto|].
  cbn [trimStart]. destruct (isWhiteSpace c) eqn:E.
  - exists (c :: l). cbn [forallb app]. rewrite E, Hl, <- IH. auto.
  - exists []. auto.
Qed.

Lemma trimStart_skip (l s : jsstring) :
  forallb isWhiteSpace l = true -> trimStart (l ++ s) = trimStart s.
Proof.
  induction l as [|c l IH]; intros H; [reflexivity|].
  cbn [forallb] in H. apply andb_true_iff in H as [Hc Hl].
  cbn [app trimStart]. rewrite Hc. apply IH. exact Hl.
Qed.

Lemma trimStart_all_ws (l : jsstring) :
  forallb isWhiteSpace l = true -> trimStart l = [].
Proof.
  intros H. rewrite <- (app_nil_r l). rewrite trimStart_skip by exact H. reflexivity.
Qed.

Lemma forallb_rev (A : Type) (p : A -> bool) (l : list A) :
  forallb p (rev l) = forallb p l.
Proof.
  induction l as [|x l IH]; [reflexivity|].
  cbn [rev forallb]. rewrite forallb_app, IH. cbn [forallb].
  rewrite andb_true_r. apply andb_comm.
Qed.

(** A text with white space at neither end, framed by white space, is
    what [trim] returns. *)
Lemma trim_framed (l t r : jsstring) :
  forallb isWhiteSpace l = true -> forallb isWhiteSpace r = true ->
  (t = [] \/ (exists c m, t = c :: m /\ isWhiteSpace c = false)
             /\ (exists m z, t = m ++ [z] /\ isWhiteSpace z = false)) ->
  trim (l ++ t ++ r) = t.
Proof.
  intros Hl Hr [->|[(c & m1 & E1 & Hc) (m2 & z & E2 & Hz)]]; unfold trim, trimEnd.
  - cbn [app]. rewrite trimStart_skip by exact Hl.
    rewrite (trimStart_all_ws r Hr). reflexivity.
  - rewrite trimStart_skip by exact Hl.
    rewrite E1. cbn [app trimStart]. rewrite Hc.
    change (c :: m1 ++ r) with ((c :: m1) ++ r). rewrite <- E1, E2.
    rewrite rev_app_distr, trimStart_skip
      by (rewrite forallb_rev; exact Hr).
    rewrite rev_app_distr. cbn [rev app trimStart]. rewrite Hz.
    change (z :: rev m2) with ([z] ++ rev m2).
    rewrite rev_app_distr, rev_involutive. reflexivity.
Qed.

(** What [trim] returns has white space at neither end, and the input is
    that text framed by white space. *)
Lemma trim_spec (s : jsstring) :
  (trim s = [] \/ (exists c m, trim s = c :: m /\ isWhiteSpace c = false)
                  /\ (exists m z, trim s = m ++ [z] /\ isWhiteSpace z = false))
  /\ exists l r, forallb isWhiteSpace l = true /\ forallb isWhiteSpace r = true
                 /\ s = l ++ trim s ++ r.
Proof.
  unfold trim, trimEnd.
  destruct (trimStart_ws_prefix s) as (l & Hl & El).
  destruct (trimStart_ws_prefix (rev (trimStart s))) as (r & Hr & Er).
  split.
  - destruct (trimStart (rev (trimStart s))) as [|z w] eqn:E; [left; reflexivity|].
    right. pose proof (trimStart_head _ E) as Hz. split.
    + destruct (trimStart s) as [|c y] eqn:Ey; [discriminate|].
      pose proof (trimStart_head _ Ey) as Hc.
      apply (f_equal (@rev char)) in Er. rewrite rev_involutive in Er.
      rewrite rev_app_distr in Er.
      destruct (rev (z :: w)) as [|c' m] eqn:Ew.
      * apply (f_equal (@length char)) in Ew. rewrite length_rev in Ew. discriminate.
      * exists c', m. split; [reflexivity|]. cbn [app] in Er. injection Er as <- _.
        exact Hc.
    + exists (rev w), z. split; [reflexivity|exact Hz].
  - exists l, (rev r). split; [exact Hl|]. split; [rewrite forallb_rev; exact Hr|].
    rewrite <- rev_app_distr, <- Er, rev_involutive. exact El.
Qed.

Lemma trim_idempotent (s : jsstring) : trim (trim s) = trim s.
Proof.
  destruct (trim_spec s) as [Sh _].
  pose proof (@trim_framed [] (trim s) [] eq_refl eq_refl Sh) as H.
  cbn [app] in H. rewrite app_nil_r in H. exact H.
Qed.

(** White space around a text does not change what [trim] returns. *)
Lemma trim_ignores_frame (l s r : jsstring) :
  forallb isWhiteSpace l = true -> forallb isWhiteSpace r = true ->
  trim (l ++ s ++ r) = trim s.
Proof.
  intros Hl Hr. destruct (trim_spec s) as [Sh (l0 & r0 & Hl0 & Hr0 & E)].
  rewrite E at 1.
  replace (l ++ (l0 ++ trim s ++ r0) ++ r) with ((l ++ l0) ++ trim s ++ (r0 ++ r))
    by (rewrite <- !app_assoc; reflexivity).
  apply trim_framed; [| |exact Sh]; rewrite forallb_app.
  - rewrite Hl, Hl0. reflexivity.
  - rewrite Hr0, Hr. reflexivity.
Qed.

(** ** Citation grammar: the shape of a result *)

Lemma matches_groupFree (r : regex) s s' :
  matches r s s' -> groupFree r = true -> caps s' = caps s.
Proof.
  induction 1 as [s|p c pre tl cs Hp|a b s s1 s2 _ IH1 _ IH2
                 |a b s s' _ IH|a b s s' _ IH|g a s
                 |g a s s1 s2 _ IH1 _ _ IH2
                 |i a s s' _ IH|s _|s _|s _];
    cbn [groupFree]; intros G; try reflexivity; try discriminate.
  - apply andb_true_iff in G as [Ga Gb]. rewrite (IH2 Gb). apply IH1. exact Ga.
  - apply andb_true_iff in G as [Ga Gb]. apply IH. exact Ga.
  - apply andb_true_iff in G as [Ga Gb]. apply IH. exact Gb.
  - rewrite (IH2 G). apply IH1. exact G.
Qed.

(** A part without groups in front of the rest of a pattern. *)
Lemma matches_skip (a r : regex) s s' :
  groupFree a = true -> matches (Seq a r) s s' ->
  exists s1 u, rest s = u ++ rest s1 /\ before s1 = rev u ++ before s
               /\ caps s1 = caps s /\ matches r s1 s'.
Proof.
  intros G H. apply matches_Seq_inv in H as (s1 & H1 & H2).
  destruct (matches_span H1) as (u & R & B).
  exists s1, u. rewrite (matches_groupFree H1 G). auto.
Qed.

(** The section token starts with a digit and records nothing. *)
Lemma sectionToken_inv (az : char -> bool) s s' :
  matches (sectionToken az) s s' ->
  exists c w, isDigit c = true /\ rest s = c :: w ++ rest s' /\ caps s' = caps s.
Proof.
  intros H. pose proof (matches_groupFree H eq_refl) as C.
  unfold sectionToken in H. cbn [SeqL] in H.
  apply matches_Seq_inv in H as (s1 & H1 & H2).
  apply matches_plus_chr in H1 as (c & u & Hc & _ & R1 & _ & _).
  destruct (matches_span H2) as (u2 & R2 & _).
  exists c, (u ++ u2). rewrite R1, R2, <- app_assoc. auto.
Qed.

Lemma rep4_digit_inv s s' :
  matches (Rep4 digit) s s' ->
  exists d1 d2 d3 d4,
    isDigit d1 = true /\ isDigit d2 = true /\ isDigit d3 = true /\ isDigit d4 = true
    /\ rest s = [d1; d2; d3; d4] ++ rest s'.
Proof.
  unfold Rep4, digit. intros H.
  apply matches_Seq_inv in H as (s1 & H1 & H).
  apply matches_Seq_inv in H as (s2 & H2 & H).
  apply matches_Seq_inv in H as (s3 & H3 & H4).
  apply matches_Chr_inv in H1 as (d1 & P1 & R1 & _).
  apply matches_Chr_inv in H2 as (d2 & P2 & R2 & _).
  apply matches_Chr_inv in H3 as (d3 & P3 & R3 & _).
  apply matches_Chr_inv in H4 as (d4 & P4 & R4 & _).
  exists d1, d2, d3, d4. rewrite R1, R2, R3, R4. auto 10.
Qed.

(** The tail shared by the two surface forms: the section token is the
    first capture, the title the second, four digits the third, and the
    input ends there. *)
Lemma citation_tail_inv (az : char -> bool) (mid body : regex) s e :
  groupFree mid = true -> groupFree body = true ->
  matches (Seq (Group 1 (sectionToken az))
            (Seq mid (Seq (Group 2 body)
               (Seq (Plus ws) (Seq (Group 3 (Rep4 digit)) Eol))))) s e ->
  exists c w t d1 d2 d3 d4,
    isDigit c = true
    /\ isDigit d1 = true /\ isDigit d2 = true /\ isDigit d3 = true /\ isDigit d4 = true
    /\ caps e = (3, [d1; d2; d3; d4]) :: (2, t) :: (1, c :: w) :: caps s
    /\ exists post, rest s = (c :: w) ++ post.
Proof.
  intros Gm Gb H.
  apply matches_Seq_inv in H as (s1 & H1 & H).
  apply matches_Group_inv in H1 as (s1' & tok & Ht & Rt & _ & _ & C1).
  apply sectionToken_inv in Ht as (c & w & Hc & Rt' & Ct).
  assert (Etok : tok = c :: w).
  { rewrite Rt' in Rt. change (c :: w ++ rest s1') with ((c :: w) ++ rest s1') in Rt.
    apply app_inv_tail in Rt. symmetry. exact Rt. }
  apply (matches_skip Gm) in H as (s2 & _ & _ & _ & C2 & H).
  apply matches_Seq_inv in H as (s3 & H3 & H).
  apply matches_Group_inv in H3 as (s3' & t & Hb & _ & _ & _ & C3).
  pose proof (matches_groupFree Hb Gb) as Cb.
  apply (@matches_skip (Plus ws)) in H as (s4 & _ & _ & _ & C4 & H); [|reflexivity].
  apply matches_Seq_inv in H as (s5 & H5 & H6).
  apply matches_Eol_inv in H6 as [-> _].
  apply matches_Group_inv in H5 as (s5' & yr & Hy & Ry & _ & _ & C5).
  pose proof (@matches_groupFree (Rep4 digit) _ _ Hy eq_refl) as Cy.
  apply rep4_digit_inv in Hy as (d1 & d2 & d3 & d4 & P1 & P2 & P3 & P4 & Ry').
  assert (Eyr : yr = [d1; d2; d3; d4]).
  { rewrite Ry' in Ry. apply app_inv_tail in Ry. symmetry. exact Ry. }
  exists c, w, t, d1, d2, d3, d4.
  rewrite C5, Cy, C4, C3, Cb, C2, C1, Ct, Eyr, Etok.
  repeat split; auto. exists (rest s1'). rewrite <- Etok. exact Rt.
Qed.

Lemma full_citation_inv (s : jsstring) (x : mresult) :
  exec FULL_CITATION s = Some x ->
  exists c w t d1 d2 d3 d4,
    isDigit c = true
    /\ isDigit d1 = true /\ isDigit d2 = true /\ isDigit d3 = true /\ isDigit d4 = true
    /\ caps (m_end x) = [(3, [d1; d2; d3; d4]); (2, t); (1, c :: w)]
    /\ exists pre post, s = pre ++ (c :: w) ++ post.
Proof.
  unfold exec. intros H. apply search_sound in H as (u & v & E & _ & _ & H).
  unfold FULL_CITATION in H. cbn [SeqL] in H.
  apply (@matches_skip Bol) in H as (s1 & u1 & R1 & _ & C1 & H); [|reflexivity].
  apply matches_skip in H as (s2 & u2 & R2 & _ & C2 & H); [|reflexivity].
  apply matches_skip in H as (s3 & u3 & R3 & _ & C3 & H); [|reflexivity].
  assert (H' : matches
                 (Seq (Group 1 (sectionToken (fun c => isLowerAZ c || isUpperAZ c)))
                    (Seq (Seq (Star true ws) (Seq (Opt (Lit1 ",")) (Plus ws)))
                       (Seq (Group 2 (Seq dot (Star false dot)))
                          (Seq (Plus ws) (Seq (Group 3 (Rep4 digit)) Eol))))) s3 (m_end x)).
  { apply matches_Seq_inv in H as (a1 & A1 & H).
    apply matches_Seq_inv in H as (a2 & A2 & H).
    apply matches_Seq_inv in H as (a3 & A3 & H).
    apply matches_Seq_inv in H as (a4 & A4 & H).
    repeat (econstructor; try eassumption). }
  apply citation_tail_inv in H'; [|reflexivity|reflexivity].
  destruct H' as (c & w & t & d1 & d2 & d3 & d4 & Hc & P1 & P2 & P3 & P4 & C
                  & post & Rp).
  exists c, w, t, d1, d2, d3, d4. rewrite C, C3, C2, C1.
  repeat split; auto. exists (u ++ u1 ++ u2 ++ u3), post.
  cbn [rest] in R1. rewrite E, R1, R2, R3, Rp, <- !app_assoc. reflexivity.
Qed.

Lemma short_citation_inv (s : jsstring) (x : mresult) :
  exec SHORT_CITATION s = Some x ->
  exists c w t d1 d2 d3 d4,
    isDigit c = true
    /\ isDigit d1 = true /\ isDigit d2 = true /\ isDigit d3 = true /\ isDigit d4 = true
    /\ caps (m_end x) = [(3, [d1; d2; d3; d4]); (2, t); (1, c :: w)]
    /\ exists pre post, s = pre ++ (c :: w) ++ post.
Proof.
  unfold exec. intros H. apply search_sound in H as (u & v & E & _ & _ & H).
  unfold SHORT_CITATION in H. cbn [SeqL] in H.
  apply (@matches_skip Bol) in H as (s1 & u1 & R1 & _ & C1 & H); [|reflexivity].
  apply matches_skip in H as (s2 & u2 & R2 & _ & C2 & H); [|reflexivity].
  apply matches_skip in H as (s3 & u3 & R3 & _ & C3 & H); [|reflexivity].
  apply matches_skip in H as (s4 & u4 & R4 & _ & C4 & H); [|reflexivity].
  apply citation_tail_inv in H; [|reflexivity|reflexivity].
  destruct H as (c & w & t & d1 & d2 & d3 & d4 & Hc & P1 & P2 & P3 & P4 & C
                 & post & Rp).
  exists c, w, t, d1, d2, d3, d4. rewrite C, C4, C3, C2, C1.
  repeat split; auto. exists (u ++ u1 ++ u2 ++ u3 ++ u4), post.
  cbn [rest] in R1. rewrite E, R1, R2, R3, R4, Rp, <- !app_assoc. reflexivity.
Qed.

Lemma parseInt_four_digits (d1 d2 d3 d4 : char) :
  isDigit d1 = true -> isDigit d2 = true -> isDigit d3 = true -> isDigit d4 = true ->
  exists y, parseInt [d1; d2; d3; d4] = Num y /\ (0 <= y <= 9999)%Z.
Proof.
  intros P1 P2 P3 P4. unfold parseInt.
  cbn [trimStart]. rewrite (digit_not_space d1 P1).
  pose proof (isDigit_range d1 P1) as R1. pose proof (isDigit_range d2 P2) as R2.
  pose proof (isDigit_range d3 P3) as R3. pose proof (isDigit_range d4 P4) as R4.
  destruct (N.eqb_spec d1 45) as [E|_]; [lia|].
  destruct (N.eqb_spec d1 43) as [E|_]; [lia|].
  cbn [takeWhile]. rewrite P1, P2, P3, P4. cbn [digitsValue].
  eexists. split; [reflexivity|]. lia.
Qed.

Lemma orUndefined_nonEmpty (n : jsstring) :
  nonEmpty n = true -> orUndefined (Some n) = Some n.
Proof. destruct n; [discriminate|reflexivity]. Qed.

(** The fields [parseSection] fills for a token that starts with a
    digit. *)
Lemma parseSection_shape (c : char) (w t : jsstring) (y : number) (ty : CitationType) :
  isDigit c = true ->
  let r := parseSection (c :: w) t y ty in
  valid r = true /\ type r = ty /\ error r = None
  /\ title r = Some (trim t) /\ year r = Some y
  /\ (exists d v, section r = Some (d :: v) /\ isDigit d = true)
  /\ match subsection r with
     | Some n => nonEmpty n = true /\ forallb isDigit n = true
     | None => True
     end
  /\ match paragraph r with
     | Some l => exists a, l = [a] /\ isLowerAZ a = true
     | None => True
     end.
Proof.
  intros Hc. unfold parseSection.
  destruct (exec SECTION_REF (c :: w)) as [x|] eqn:E; cbn.
  - apply section_ref_inv in E
      as (d & sub & par & Hne & Hd & Hsub & Hpar & _ & G1 & G2 & G3).
    unfold capture. rewrite G1, G2, G3.
    repeat split; auto.
    + destruct d as [|d0 v]; [discriminate|]. exists d0, v. split; [reflexivity|].
      cbn [forallb] in Hd. apply andb_true_iff in Hd. apply Hd.
    + destruct sub as [n|]; [|exact I]. destruct Hsub as [Hn Hdn].
      rewrite (orUndefined_nonEmpty n Hn). auto.
    + destruct par as [l|]; [|exact I]. destruct Hpar as (a & -> & Ha).
      cbn. exists a. auto.
  - repeat split; auto. exists c, w. auto.
Qed.

Lemma parseCitation_shape (citation : jsstring) :
  let c := parseCitation citation in
  (valid c = true /\ type c = statute /\ error c = None
   /\ (exists t, title c = Some t /\ trim t = t)
   /\ (exists y, year c = Some (Num y) /\ (0 <= y <= 9999)%Z)
   /\ (exists d w, section c = Some (d :: w) /\ isDigit d = true)
   /\ match subsection c with
      | Some n => nonEmpty n = true /\ forallb isDigit n = true
      | None => True
      end
   /\ match paragraph c with
      | Some l => exists a, l = [a] /\ isLowerAZ a = true
      | None => True
      end)
  \/ (valid c = false /\ type c = unknown /\ title c = None /\ year c = None
      /\ section c = None /\ subsection c = None /\ paragraph c = None
      /\ error c = Some (str "Could not parse UK citation: " ++ [dquote]
                         ++ trim citation ++ [dquote])).
Proof.
  cbv zeta. unfold parseCitation.
  assert (Fields : forall x : mresult,
            (exists c w t d1 d2 d3 d4,
               isDigit c = true
               /\ isDigit d1 = true /\ isDigit d2 = true /\ isDigit d3 = true
               /\ isDigit d4 = true
               /\ caps (m_end x) = [(3, [d1; d2; d3; d4]); (2, t); (1, c :: w)]
               /\ exists pre post : jsstring,
                    trim citation = pre ++ (c :: w) ++ post) ->
            let r := parseSection (capture 1 x) (capture 2 x)
                       (parseInt (capture 3 x)) statute in
            valid r = true /\ type r = statute /\ error r = None
            /\ (exists t, title r = Some t /\ trim t = t)
            /\ (exists y, year r = Some (Num y) /\ (0 <= y <= 9999)%Z)
            /\ (exists d w, section r = Some (d :: w) /\ isDigit d = true)
            /\ match subsection r with
               | Some n => nonEmpty n = true /\ forallb isDigit n = true
               | None => True
               end
            /\ match paragraph r with
               | Some l => exists a, l = [a] /\ isLowerAZ a = true
               | None => True
               end).
  { intros x (c & w & t & d1 & d2 & d3 & d4 & Hc & P1 & P2 & P3 & P4 & C & _).
    unfold capture, group. rewrite C. cbn [lookupCap find fst snd Nat.eqb].
    destruct (parseInt_four_digits d1 d2 d3 d4 P1 P2 P3 P4) as (y & Ey & Hy).
    rewrite Ey.
    destruct (parseSection_shape c w t (Num y) statute Hc)
      as (V & T & Er & Ti & Ye & Se & Su & Pa).
    cbv zeta. repeat split; auto.
    - eexists. split; [exact Ti|apply trim_idempotent].
    - exists y. auto. }
  destruct (exec FULL_CITATION (trim citation)) as [x|] eqn:E.
  - left. apply Fields. apply (full_citation_inv _ E).
  - destruct (exec SHORT_CITATION (trim citation)) as [x|] eqn:E'.
    + left. apply Fields. apply (short_citation_inv _ E').
    + right. cbn. auto 10.
Qed.

(** X1.  Every result of [parseCitation] has one of two shapes.  A valid one
    is a statute citation without error whose title has white space at
    neither end, whose year is an integer from 0 to 9999 (never NaN), whose
    section starts with a digit, whose subsection, if any, is a run of
    digits and whose paragraph, if any, is one lowercase letter.  An
    invalid one has type unknown, no other field, and an error message
    that quotes the trimmed input. *)
Theorem parseCitation_result (citation : jsstring) :
  let c := parseCitation citation in
  (valid c = true /\ type c = statute /\ error c = None
   /\ (exists t, title c = Some t /\ trim t = t)
   /\ (exists y, year c = Some (Num y) /\ (0 <= y <= 9999)%Z)
   /\ (exists d w, section c = Some (d :: w) /\ isDigit d = true)
   /\ match subsection c with
      | Some n => nonEmpty n = true /\ forallb isDigit n = true
      | None => True
      end
   /\ match paragraph c with
      | Some l => exists a, l = [a] /\ isLowerAZ a = true
      | None => True
      end)
  \/ (valid c = false /\ type c = unknown /\ title c = None /\ year c = None
      /\ section c = None /\ subsection c = None /\ paragraph c = None
      /\ error c = Some (str "Could not parse UK citation: " ++ [dquote]
                         ++ trim citation ++ [dquote])).
Proof. exact (@parseCitation_shape citation). Qed.

Lemma truthy_nonEmpty (n : jsstring) : nonEmpty n = true -> truthy (Some n) = true.
Proof. destruct n; [discriminate|reflexivity]. Qed.

Lemma buildPinpoint_parseSection (sectionStr t : jsstring) (y : number)
    (ty : CitationType) :
  buildPinpoint (parseSection sectionStr t y ty) = sectionStr.
Proof.
  unfold parseSection.
  destruct (exec SECTION_REF sectionStr) as [x|] eqn:E.
  - apply section_ref_inv in E
      as (d & sub & par & Hne & Hd & Hsub & Hpar & -> & G1 & G2 & G3).
    unfold buildPinpoint, capture. cbn [section subsection paragraph].
    rewrite G1, G2, G3.
    destruct sub as [n|]; destruct par as [l|]; cbn [parenPart].
    + destruct Hsub as [Hn _]. destruct Hpar as (a & -> & _).
      rewrite (orUndefined_nonEmpty n Hn), (truthy_nonEmpty n Hn).
      cbn [orUndefined truthy showOpt]. rewrite <- !app_assoc. reflexivity.
    + destruct Hsub as [Hn _].
      rewrite (orUndefined_nonEmpty n Hn), (truthy_nonEmpty n Hn).
      cbn [orUndefined truthy showOpt]. rewrite <- !app_assoc. reflexivity.
    + destruct Hpar as (a & -> & _).
      cbn [orUndefined truthy showOpt app]. reflexivity.
    + cbn [orUndefined truthy app]. rewrite app_nil_r. reflexivity.
  - reflexivity.
Qed.

(** X2.  The pinpoint rebuilt from the fields that [parseSection] fills is the
    section token it was given: the decomposition into section,
    subsection and paragraph loses and reorders nothing. *)
Theorem parseSection_keeps_token (sectionStr t : jsstring) (y : number)
    (ty : CitationType) :
  buildPinpoint (parseSection sectionStr t y ty) = sectionStr.
Proof. exact (@buildPinpoint_parseSection sectionStr t y ty). Qed.

(** X3.  White space around a citation is ignored. *)
Theorem parseCitation_ignores_white_space (l citation r : jsstring) :
  forallb isWhiteSpace l = true -> forallb isWhiteSpace r = true ->
  parseCitation (l ++ citation ++ r) = parseCitation citation.
Proof.
  intros Hl Hr. unfold parseCitation. rewrite trim_ignores_frame by assumption.
  reflexivity.
Qed.

Lemma parseCitation_ignores_white_space_witness :
  forallb isWhiteSpace (str "  ") = true
  /\ forallb isWhiteSpace [10%N] = true
  /\ parseCitation (str "  " ++ str "s. 3 DPA 2018" ++ [10%N])
     = parseCitation (str "s. 3 DPA 2018").
Proof.
  split; [reflexivity|]. split; [reflexivity|].
  apply (@parseCitation_ignores_white_space (str "  ") (str "s. 3 DPA 2018") [10%N]);
    reflexivity.
Defined.

Lemma trim_nonEmpty (c : char) (s : jsstring) :
  isWhiteSpace c = false -> trim (c :: s) <> [].
Proof.
  intros Hc E. destruct (trim_spec (c :: s)) as [_ (l & r & Hl & Hr & Es)].
  rewrite E in Es. cbn [app] in Es.
  destruct l as [|x l]; cbn [app] in Es.
  - rewrite <- Es in Hr. cbn [forallb] in Hr. rewrite Hc in Hr. discriminate.
  - injection Es as <- _. cbn [forallb] in Hl. rewrite Hc in Hl. discriminate.
Qed.

Lemma formatCitation_nil_iff (parsed : ParsedCitation) (format : CitationFormat) :
  formatCitation parsed format = []
  <-> valid parsed = false \/ truthy (section parsed) = false.
Proof.
  unfold formatCitation. split.
  - destruct (valid parsed); [|auto].
    destruct (truthy (section parsed)); [|auto].
    cbn [negb orb]. intros H. exfalso.
    destruct format; cbn [str map list_ascii_of_string app] in H.
    + revert H. apply trim_nonEmpty. reflexivity.
    + revert H. apply trim_nonEmpty. reflexivity.
    + discriminate.
  - intros [-> | ->]; [reflexivity|]. rewrite orb_true_r. reflexivity.
Qed.

(** X4.  [formatCitation] returns the empty string exactly for a citation that
    is invalid or has no section, whatever the format. *)
Theorem formatCitation_empty_iff (parsed : ParsedCitation) (format : CitationFormat) :
  formatCitation parsed format = []
  <-> valid parsed = false \/ truthy (section parsed) = false.
Proof. exact (@formatCitation_nil_iff parsed format). Qed.

Lemma formatCitation_after_parse (citation : jsstring) :
  (forall format,
     formatCitation (parseCitation citation) format = []
     <-> valid (parseCitation citation) = false)
  /\ (valid (parseCitation citation) = true ->
      exists d w pre post,
        isDigit d = true /\ trim citation = pre ++ (d :: w) ++ post
        /\ formatCitation (parseCitation citation) pinpoint = str "s. " ++ d :: w).
Proof.
  split.
  - intros format. rewrite formatCitation_nil_iff.
    destruct (parseCitation_shape citation)
      as [(V & _ & _ & _ & _ & (d & w & S & _) & _)|(V & _)]; cbv zeta in *.
    + rewrite V, S. cbn [truthy]. split; [intros [H|H]; discriminate|discriminate].
    + rewrite V. split; auto.
  - assert (Tok : forall x : mresult,
              (exists c w t d1 d2 d3 d4,
                 isDigit c = true
                 /\ isDigit d1 = true /\ isDigit d2 = true /\ isDigit d3 = true
                 /\ isDigit d4 = true
                 /\ caps (m_end x) = [(3, [d1; d2; d3; d4]); (2, t); (1, c :: w)]
                 /\ exists pre post : jsstring,
                      trim citation = pre ++ (c :: w) ++ post) ->
              exists d w pre post,
                isDigit d = true /\ trim citation = pre ++ (d :: w) ++ post
                /\ formatCitation
                     (parseSection (capture 1 x) (capture 2 x)
                        (parseInt (capture 3 x)) statute) pinpoint
                   = str "s. " ++ d :: w).
    { intros x (c & w & t & d1 & d2 & d3 & d4 & Hc & _ & _ & _ & _ & C
                & pre & post & E).
      exists c, w, pre, post. split; [exact Hc|]. split; [exact E|].
      unfold capture, group. rewrite C. cbn [lookupCap find fst snd Nat.eqb].
      destruct (parseSection_shape c w t (parseInt [d1; d2; d3; d4]) statute Hc)
        as (V & _ & _ & _ & _ & (d & v & S & _) & _).
      unfold formatCitation. rewrite V, S. cbn [truthy negb orb].
      rewrite buildPinpoint_parseSection. reflexivity. }
    unfold parseCitation.
    destruct (exec FULL_CITATION (trim citation)) as [x|] eqn:E.
    + intros _. apply Tok. apply (full_citation_inv _ E).
    + destruct (exec SHORT_CITATION (trim citation)) as [x|] eqn:E'.
      * intros _. apply Tok. apply (short_citation_inv _ E').
      * cbn. discriminate.
Qed.

(** X5.  Formatting what [parseCitation] returned: after a failed parse every
    format gives the empty string; after a successful one no format does,
    and the pinpoint format gives "s. " followed by a section token that
    stands in the trimmed input and starts with a digit. *)
Theorem formatCitation_of_parse (citation : jsstring) :
  let c := parseCitation citation in
  (valid c = false /\ forall format, formatCitation c format = [])
  \/ (valid c = true
      /\ (forall format, formatCitation c format <> [])
      /\ exists d w pre post,
           isDigit d = true /\ trim citation = pre ++ (d :: w) ++ post
           /\ formatCitation c pinpoint = str "s. " ++ d :: w).
Proof.
  intros c. subst c.
  destruct (formatCitation_after_parse citation) as [I P].
  destruct (valid (parseCitation citation)) eqn:V.
  - right. split; [reflexivity|]. split; [|apply P; reflexivity].
    intros format H. apply I in H. discriminate.
  - left. split; [reflexivity|]. intros format. apply I. reflexivity.
Qed.

(** ** Citation validator: the outcomes *)

(** X6.  A citation that does not parse is reported without consulting the
    store: no document, no provision, and the parser's message, which
    quotes the trimmed input, as the one warning. *)
Theorem validateCitation_unparsable (db : Database) (cit : jsstring) :
  valid (parseCitation cit) = false ->
  validateCitation db cit
  = {| citation := parseCitation cit;
       document_exists := false; provision_exists := false;
       document_title := None; status := None;
       warnings := [str "Could not parse UK citation: " ++ [dquote]
                    ++ trim cit ++ [dquote]] |}.
Proof.
  intros V. unfold validateCitation. rewrite V. cbn [negb].
  destruct (parseCitation_shape cit) as [(V' & _)|(_ & _ & _ & _ & _ & _ & _ & E)];
    cbv zeta in *.
  - rewrite V in V'. discriminate.
  - rewrite E. reflexivity.
Qed.

Lemma validateCitation_unparsable_witness :
  valid (parseCitation (str " Data Protection Act ")) = false
  /\ validateCitation oneActStore (str " Data Protection Act ")
     = {| citation := parseCitation (str " Data Protection Act ");
          document_exists := false; provision_exists := false;
          document_title := None; status := None;
          warnings := [str "Could not parse UK citation: " ++ [dquote]
                       ++ trim (str " Data Protection Act ") ++ [dquote]] |}.
Proof.
  split; [vm_compute; reflexivity|].
  apply (validateCitation_unparsable oneActStore (str " Data Protection Act ")).
  vm_compute. reflexivity.
Defined.

Lemma validateCitation_cases (db : Database) (cit : jsstring) :
  let r := validateCitation db cit in
  citation r = parseCitation cit
  /\ ((document_exists r = false /\ provision_exists r = false
       /\ document_title r = None /\ status r = None
       /\ length (warnings r) = 1)
      \/ exists doc sec,
           valid (parseCitation cit) = true
           /\ section (parseCitation cit) = Some sec
           /\ selectDocument db (titleLikePattern (parseCitation cit)) = Some doc
           /\ document_exists r = true
           /\ document_title r = Some (doc_title doc)
           /\ status r = Some (doc_status doc)
           /\ provision_exists r = selectProvision db (doc_id doc) sec
           /\ warnings r
              = (if streq (doc_status doc) (str "repealed")
                 then [str "This statute has been repealed"] else [])
                ++ (if selectProvision db (doc_id doc) sec then []
                    else [str "Section " ++ sec ++ str " not found in "
                          ++ doc_title doc])).
Proof.
  cbv zeta. unfold validateCitation.
  destruct (parseCitation_shape cit)
    as [(V & _ & _ & _ & _ & (d & w & S & _) & _)|(V & _)]; cbv zeta in *;
    rewrite V; cbn [negb].
  - destruct (selectDocument db (titleLikePattern (parseCitation cit))) as [doc|] eqn:D.
    + rewrite S. cbn [truthy showOpt].
      split; [reflexivity|]. right. exists doc, (d :: w).
      destruct (streq (doc_status doc) (str "repealed"));
        destruct (selectProvision db (doc_id doc) (d :: w));
        cbn; auto 10.
    + split; [reflexivity|]. left. cbn. auto.
  - split; [reflexivity|]. left. cbn. auto.
Qed.

(** X7.  The outcomes of a validation.  Either no document is reported, and
    then no provision, no title, no status and exactly one warning; or the
    citation parsed, the store returned a document for its title pattern,
    the provision was looked up under that document by the parsed section
    (which a valid citation always has), and the warnings are the repeal
    notice, if the document is repealed, followed by the missing-section
    notice, if the provision was not found. *)
Theorem validateCitation_outcomes (db : Database) (cit : jsstring) :
  let r := validateCitation db cit in
  citation r = parseCitation cit
  /\ ((document_exists r = false /\ provision_exists r = false
       /\ document_title r = None /\ status r = None
       /\ length (warnings r) = 1)
      \/ exists doc sec,
           valid (parseCitation cit) = true
           /\ section (parseCitation cit) = Some sec
           /\ selectDocument db (titleLikePattern (parseCitation cit)) = Some doc
           /\ document_exists r = true
           /\ document_title r = Some (doc_title doc)
           /\ status r = Some (doc_status doc)
           /\ provision_exists r = selectProvision db (doc_id doc) sec
           /\ warnings r
              = (if streq (doc_status doc) (str "repealed")
                 then [str "This statute has been repealed"] else [])
                ++ (if selectProvision db (doc_id doc) sec then []
                    else [str "Section " ++ sec ++ str " not found in "
                          ++ doc_title doc])).
Proof. exact (@validateCitation_cases db cit). Qed.

(** X8.  A validation returns no warning exactly when it reports the document
    and the provision as existing and the document is not repealed. *)
Theorem validateCitation_clean_iff (db : Database) (cit : jsstring) :
  warnings (validateCitation db cit) = []
  <-> document_exists (validateCitation db cit) = true
      /\ provision_exists (validateCitation db cit) = true
      /\ status (validateCitation db cit) <> Some (str "repealed").
Proof.
  destruct (validateCitation_cases db cit)
    as (_ & [(De & Pe & _ & _ & L)|(doc & sec & _ & _ & _ & De & _ & St & Pe & W)]);
    cbv zeta in *.
  - split.
    + intros E. rewrite E in L. discriminate.
    + intros (H & _). rewrite De in H. discriminate.
  - rewrite W, De, Pe, St. split.
    + intros E. apply app_eq_nil in E as [E1 E2].
      destruct (selectProvision db (doc_id doc) sec); [|discriminate].
      destruct (streq (doc_status doc) (str "repealed")) eqn:R; [discriminate|].
      repeat split. intros H. injection H as H. rewrite H in R. discriminate.
    + intros (_ & -> & H).
      destruct (streq (doc_status doc) (str "repealed")) eqn:R; [|reflexivity].
      exfalso. apply H. f_equal. apply streq_eq. exact R.
Qed.

(** ** Search-query normaliser: pass-through and clean-up *)

(** A match at some index makes the search succeed. *)
Lemma search_finds (r : regex) :
  forall u v pre,
  matchAt r (rev u ++ pre) v <> None -> search r pre (u ++ v) <> None.
Proof.
  induction u as [|c u IH]; intros v pre H; rewrite search_eq.
  - cbn [rev app] in *. destruct (matchAt r pre v); [discriminate|contradiction].
  - cbn [app]. destruct (matchAt r pre (c :: u ++ v)); [discriminate|].
    apply IH. cbn [rev] in H. rewrite <- app_assoc in H. exact H.
Qed.

Lemma test_finds (r : regex) (u v : jsstring) :
  m r (MState (rev u) v []) (fun e => Some e) <> None -> test r (u ++ v) = true.
Proof.
  intros H. unfold test, exec.
  destruct (search r [] (u ++ v)) eqn:E; [reflexivity|].
  exfalso. revert E. apply search_finds. rewrite app_nil_r. unfold matchAt.
  destruct (m r _ _); [discriminate|contradiction].
Qed.

(** One of the three operator words between two spaces. *)
Lemma operator_word_matches (i : nat) (w : string) (pre v : jsstring) :
  In w ["AND"; "OR"; "NOT"]%string ->
  m (Group i (SeqL [WordB; Lit w; WordB]))
    (MState (chr " " :: pre) (str w ++ chr " " :: v) []) (fun e => Some e) <> None.
Proof.
  intros [<-|[<-|[<-|[]]]]; vm_compute; discriminate.
Qed.

Lemma explicit_syntax_found (s : jsstring) :
  (In dquote s
   \/ (exists u v w, In w ["AND"; "OR"; "NOT"]%string
                     /\ s = u ++ chr " " :: str w ++ chr " " :: v)
   \/ exists u, s = u ++ [chr "*"]) ->
  test EXPLICIT_FTS_SYNTAX s = true.
Proof.
  unfold EXPLICIT_FTS_SYNTAX. cbn [AltL].
  intros [H|[(u & v & w & Hw & ->)|(u & ->)]].
  - apply in_split in H as (u & v & ->). apply test_finds.
    rewrite m_Alt, m_Chr_cons. discriminate.
  - replace (u ++ chr " " :: str w ++ chr " " :: v)
      with ((u ++ [chr " "]) ++ str w ++ chr " " :: v)
      by (rewrite <- app_assoc; reflexivity).
    apply test_finds. rewrite rev_app_distr. cbn [rev app].
    assert (Q : isQuote (hd 0%N (str w ++ chr " " :: v)) = false)
      by (destruct Hw as [<-|[<-|[<-|[]]]]; reflexivity).
    destruct (str w ++ chr " " :: v) as [|c tl] eqn:E;
      [destruct Hw as [<-|[<-|[<-|[]]]]; discriminate|].
    cbn [hd] in Q. rewrite m_Alt, m_Chr_cons, Q. cbn [orelse]. rewrite <- E.
    destruct Hw as [<-|[<-|[<-|[]]]].
    + rewrite m_Alt.
      destruct (m (Group 1 _) _ _) eqn:G; [discriminate|].
      exfalso. revert G. apply (@operator_word_matches 1 "AND"). simpl. auto.
    + rewrite m_Alt.
      destruct (m (Group 1 _) _ _) eqn:G1; [discriminate|]. cbn [orelse].
      rewrite m_Alt.
      destruct (m (Group 2 _) _ _) eqn:G; [discriminate|].
      exfalso. revert G. apply (@operator_word_matches 2 "OR"). simpl. auto.
    + rewrite m_Alt.
      destruct (m (Group 1 _) _ _) eqn:G1; [discriminate|]. cbn [orelse].
      rewrite m_Alt.
      destruct (m (Group 2 _) _ _) eqn:G2; [discriminate|]. cbn [orelse].
      rewrite m_Alt.
      destruct (m (Group 3 _) _ _) eqn:G; [discriminate|].
      exfalso. revert G. apply (@operator_word_matches 3 "NOT"). simpl. auto.
  - apply test_finds.
    rewrite m_Alt, m_Chr_cons. change (isQuote (chr "*")) with false. cbn [orelse].
    assert (W : forall (i : nat) (w : string),
              In w ["AND"; "OR"; "NOT"]%string ->
              m (Group i (SeqL [WordB; Lit w; WordB])) (MState (rev u) [chr "*"] [])
                (fun e => Some e) = None).
    { intros i w Hw. rewrite m_Group. cbn [SeqL]. rewrite m_Seq, m_WordB.
      destruct (xorb _ _); [|reflexivity].
      rewrite m_Seq.
      destruct Hw as [<-|[<-|[<-|[]]]]; reflexivity. }
    rewrite m_Alt, W by (simpl; auto). cbn [orelse].
    rewrite m_Alt, W by (simpl; auto). cbn [orelse].
    rewrite m_Alt, W by (simpl; auto). cbn [orelse].
    vm_compute. discriminate.
Qed.

(** X9.  A query that, trimmed, holds a double quote, one of the words AND, OR
    and NOT between two spaces, or a star at its end is passed through:
    the trimmed query is the only variant. *)
Theorem fts_explicit_syntax_passes (query : jsstring) :
  (In dquote (trim query)
   \/ (exists u v w, In w ["AND"; "OR"; "NOT"]%string
                     /\ trim query = u ++ chr " " :: str w ++ chr " " :: v)
   \/ exists u, trim query = u ++ [chr "*"]) ->
  buildFtsQueryVariants query = {| primary := trim query; fallback := None |}.
Proof.
  intros H. unfold buildFtsQueryVariants.
  rewrite (explicit_syntax_found H). reflexivity.
Qed.

Lemma fts_explicit_syntax_passes_witness :
  (In dquote (trim (str " data protect* "))
   \/ (exists u v w, In w ["AND"; "OR"; "NOT"]%string
                     /\ trim (str " data protect* ")
                        = u ++ chr " " :: str w ++ chr " " :: v)
   \/ exists u, trim (str " data protect* ") = u ++ [chr "*"])
  /\ buildFtsQueryVariants (str " data protect* ")
     = {| primary := trim (str " data protect* "); fallback := None |}.
Proof.
  assert (H : In dquote (trim (str " data protect* "))
              \/ (exists u v w, In w ["AND"; "OR"; "NOT"]%string
                                /\ trim (str " data protect* ")
                                   = u ++ chr " " :: str w ++ chr " " :: v)
              \/ exists u, trim (str " data protect* ") = u ++ [chr "*"]).
  { right. right. exists (str "data protect"). vm_compute. reflexivity. }
  split; [exact H|].
  exact (@fts_explicit_syntax_passes (str " data protect* ") H).
Defined.

(** Replacing every code unit of a class by nothing deletes the class. *)
Lemma replaceAll_delete_class (p : char -> bool) (s : jsstring) :
  replaceAll (Chr p) (fun _ => []) s = filter (fun c => negb (p c)) s.
Proof.
  unfold replaceAll.
  assert (G : forall s pre,
            replace_from (Chr p) (fun _ => []) pre s 0
            = filter (fun c => negb (p c)) s); [|apply G].
  clear s. induction s as [|c tl IH]; intros pre; [reflexivity|].
  rewrite replace_from_eq. unfold matchAt. rewrite m_Chr_cons. cbn [filter].
  destruct (p c); cbn [negb app].
  - rewrite length_matched. cbn [m_input m_end rest length].
    replace (S (length tl) - length tl) with 1 by lia. apply IH.
  - rewrite IH. reflexivity.
Qed.

Lemma greedy_try_total (p : char -> bool) (k : cont) cs :
  (forall s, k s <> None) ->
  forall rst pre, greedy_try p k pre rst cs <> None.
Proof.
  intros Hk. induction rst as [|c tl IH]; intros pre; cbn [greedy_try]; [apply Hk|].
  destruct (p c); [|apply Hk].
  destruct (greedy_try p k (c :: pre) tl cs) eqn:E; [discriminate|].
  exfalso. exact (IH _ E).
Qed.

Lemma plus_matches_at (p : char -> bool) (c : char) (pre tl : jsstring) :
  p c = true -> matchAt (Plus (Chr p)) pre (c :: tl) <> None.
Proof.
  intros Hc. unfold matchAt, Plus. rewrite m_Seq, m_Chr_cons, Hc, m_star_greedy.
  destruct (greedy_try p (fun e => Some e) (c :: pre) tl []) eqn:E; [discriminate|].
  exfalso. revert E. apply greedy_try_total. discriminate.
Qed.

Lemma plus_matched_nonEmpty (p : char -> bool) (pre rst : jsstring) (x : mresult) :
  matchAt (Plus (Chr p)) pre rst = Some x -> 1 <= length (matched x).
Proof.
  intros H. apply matchAt_sound in H as (_ & I & M).
  apply matches_plus_chr in M as (c & u & _ & _ & R & _ & _). cbn [rest] in R.
  rewrite length_matched, I, R. cbn [length]. rewrite length_app. lia.
Qed.

(** The pieces of a split on runs of a class hold no code unit of the
    class. *)
Lemma split_from_pieces (p : char -> bool) :
  forall rst pre cur skip,
  forallb (fun c => negb (p c)) cur = true ->
  Forall (fun t => forallb (fun c => negb (p c)) t = true)
         (split_from (Plus (Chr p)) pre rst cur skip).
Proof.
  induction rst as [|c tl IH]; intros pre cur skip Hcur; cbn [split_from].
  - constructor; [|constructor]. rewrite forallb_rev. exact Hcur.
  - destruct skip as [|k]; [|apply IH; exact Hcur].
    destruct (matchAt (Plus (Chr p)) pre (c :: tl)) as [x|] eqn:E.
    + pose proof (plus_matched_nonEmpty _ _ _ E) as L.
      destruct (length (matched x)) as [|k]; [lia|].
      constructor; [rewrite forallb_rev; exact Hcur|]. apply IH. reflexivity.
    + apply IH. cbn [forallb]. rewrite Hcur, andb_true_r.
      destruct (p c) eqn:Hc; [|reflexivity].
      exfalso. revert E. apply plus_matches_at. exact Hc.
Qed.

Lemma split_pieces (p : char -> bool) (s : jsstring) :
  Forall (fun t => forallb (fun c => negb (p c)) t = true) (split (Plus (Chr p)) s).
Proof.
  unfold split. destruct s as [|c tl].
  - destruct (matchAt _ [] []); repeat constructor.
  - apply split_from_pieces. reflexivity.
Qed.

Lemma Forall_filter (A : Type) (P : A -> Prop) (q : A -> bool) (l : list A) :
  Forall P l -> Forall P (filter q l).
Proof.
  induction 1 as [|x l Hx _ IH]; cbn [filter]; [constructor|].
  destruct (q x); [constructor; assumption|exact IH].
Qed.

(** X10.  The terms of both variants are made of word characters and hyphens
    only: for a query without explicit syntax that is not blank, the
    primary variant is the space-separated list of the quoted prefix
    terms and the fallback variant the OR-separated list of the bare
    prefix terms of the same non-empty list of tokens, none of which
    holds a code unit other than a word character or a hyphen. *)
Theorem fts_terms_are_clean (query : jsstring) :
  test EXPLICIT_FTS_SYNTAX (trim query) = false -> trim query <> [] ->
  exists tokens,
    tokens <> []
    /\ Forall (fun t => forallb tokenChar t = true) tokens
    /\ primary (buildFtsQueryVariants query) = join (str " ") (map quotedPrefix tokens)
    /\ fallback (buildFtsQueryVariants query)
       = Some (join (str " OR ") (map barePrefix tokens)).
Proof.
  intros Hx Hq. unfold buildFtsQueryVariants. rewrite Hx.
  pose proof (fts_pieces_of_nonblank query Hq) as Hp.
  pose proof (Forall_filter nonEmpty (split_pieces isWhiteSpace (trim query))) as Hws.
  fold ws in Hws.
  destruct (filter nonEmpty (split (Plus ws) (trim query))) as [|t ts]; [contradiction|].
  exists (map (fun t0 => replaceAll (Chr notWordSpaceHyphen) (fun _ => []) t0) (t :: ts)).
  split; [discriminate|]. split; [|split; reflexivity].
  apply Forall_map. revert Hws. apply Forall_impl. intros a Ha.
  rewrite replaceAll_delete_class. rewrite forallb_forall in *.
  intros c Hc. apply filter_In in Hc as [Hin Hc]. specialize (Ha c Hin).
  unfold notWordSpaceHyphen in Hc. rewrite negb_involutive in Hc.
  apply negb_true_iff in Ha. rewrite Ha, orb_false_r in Hc. exact Hc.
Qed.

Lemma fts_terms_are_clean_witness :
  test EXPLICIT_FTS_SYNTAX (trim (str "data-protection (2018)!")) = false
  /\ trim (str "data-protection (2018)!") <> []
  /\ exists tokens,
       tokens <> []
       /\ Forall (fun t => forallb tokenChar t = true) tokens
       /\ primary (buildFtsQueryVariants (str "data-protection (2018)!"))
          = join (str " ") (map quotedPrefix tokens)
       /\ fallback (buildFtsQueryVariants (str "data-protection (2018)!"))
          = Some (join (str " OR ") (map barePrefix tokens)).
Proof.
  assert (H1 : test EXPLICIT_FTS_SYNTAX (trim (str "data-protection (2018)!")) = false)
    by (vm_compute; reflexivity).
  assert (H2 : trim (str "data-protection (2018)!") <> [])
    by (vm_compute; discriminate).
  split; [exact H1|]. split; [exact H2|].
  exact (@fts_terms_are_clean (str "data-protection (2018)!") H1 H2).
Defined.

Lemma fts_fallback_of_nonblank (query : jsstring) :
  test EXPLICIT_FTS_SYNTAX (trim query) = false -> trim query <> [] ->
  exists f, fallback (buildFtsQueryVariants query) = Some f.
Proof.
  intros Hx Hq. pose proof (fts_nonblank_two_variants query Hx Hq) as H.
  destruct (fallback (buildFtsQueryVariants query)) as [f|]; [eauto|contradiction].
Qed.

(** X11.  When the normaliser returns a single variant: for a query with
    explicit syntax or a blank one, and then the variant is the trimmed
    query; every other query gets a fallback variant too. *)
Theorem fts_sole_variant_cases (query : jsstring) :
  ((test EXPLICIT_FTS_SYNTAX (trim query) = true \/ trim query = [])
   /\ buildFtsQueryVariants query = {| primary := trim query; fallback := None |})
  \/ (test EXPLICIT_FTS_SYNTAX (trim query) = false
      /\ (exists c s, trim query = c :: s)
      /\ exists f, fallback (buildFtsQueryVariants query) = Some f).
Proof.
  destruct (test EXPLICIT_FTS_SYNTAX (trim query)) eqn:Hx.
  - left. split; [auto|]. unfold buildFtsQueryVariants. rewrite Hx. reflexivity.
  - destruct (trim query) as [|c s] eqn:Hq.
    + left. split; [auto|]. unfold buildFtsQueryVariants. rewrite Hq. reflexivity.
    + right. split; [reflexivity|]. split; [eauto|].
      assert (Hne : trim query <> []) by (rewrite Hq; discriminate).
      assert (Hx' : test EXPLICIT_FTS_SYNTAX (trim query) = false)
        by (rewrite Hq; exact Hx).
      destruct (fts_fallback_of_nonblank query Hx' Hne) as (f & Hf).
      exists f. exact Hf.
Qed.

(** ** White-space normalisation *)

Lemma takeWhile_skipn (p : char -> bool) (s : jsstring) :
  s = takeWhile p s ++ skipn (length (takeWhile p s)) s.
Proof.
  induction s as [|c s IH]; [reflexivity|].
  cbn [takeWhile]. destruct (p c); [|reflexivity].
  cbn [length skipn app]. rewrite <- IH. reflexivity.
Qed.

Lemma takeWhile_forallb (p : char -> bool) (s : jsstring) :
  forallb p (takeWhile p s) = true.
Proof.
  induction s as [|c s IH]; [reflexivity|].
  cbn [takeWhile]. destruct (p c) eqn:E; [|reflexivity].
  cbn [forallb]. rewrite E, IH. reflexivity.
Qed.

(** Where a run of the class starts, the replacement takes the whole run
    and the scan resumes after it. *)
Lemma replace_run (p : char -> bool) (f : mresult -> jsstring) (c : char)
    (tl pre : jsstring) :
  p c = true ->
  exists x,
    replace_from (Plus (Chr p)) f pre (c :: tl) 0
    = f x ++ replace_from (Plus (Chr p)) f
               (rev (takeWhile p tl) ++ c :: pre)
               (skipn (length (takeWhile p tl)) tl) 0.
Proof.
  intros Hc.
  set (run := takeWhile p tl). set (rst := skipn (length run) tl).
  assert (E : tl = run ++ rst) by apply takeWhile_skipn.
  assert (M : m (Plus (Chr p)) (MState pre (c :: run ++ rst) []) (fun e => Some e)
              = Some (MState (rev (c :: run) ++ pre) rst [])).
  { apply (@m_plus_run p (fun e => Some e) [] (c :: run) rst pre).
    - reflexivity.
    - cbn [forallb]. rewrite Hc. apply takeWhile_forallb.
    - apply takeWhile_boundary.
    - reflexivity. }
  eexists. rewrite E at 1.
  rewrite (@replace_matched _ f c run rst pre _ M eq_refl). reflexivity.
Qed.

Lemma replace_no_run (p : char -> bool) (f : mresult -> jsstring) (c : char)
    (tl pre : jsstring) :
  p c = false ->
  replace_from (Plus (Chr p)) f pre (c :: tl) 0
  = c :: replace_from (Plus (Chr p)) f (c :: pre) tl 0.
Proof.
  intros Hc. rewrite replace_from_eq. unfold matchAt, Plus.
  rewrite m_Seq, m_Chr_cons, Hc. reflexivity.
Qed.

Lemma replace_plus_nil (p : char -> bool) (f : mresult -> jsstring) (pre : jsstring) :
  replace_from (Plus (Chr p)) f pre [] 0 = [].
Proof. reflexivity. Qed.

(** Collapsing runs of white space to one space leaves a text in which
    every white-space code unit is a space followed by no white space. *)
Lemma collapseSpaces_singleSpaced (s : jsstring) :
  singleSpaced (collapseSpaces s) = true.
Proof.
  unfold collapseSpaces, replaceAll, ws.
  assert (G : forall n s pre, length s <= n ->
            singleSpaced (replace_from (Plus (Chr isWhiteSpace)) (fun _ => str " ")
                            pre s 0) = true); [|apply (G (length s)); lia].
  clear s. induction n as [|n IH]; intros s pre L.
  - destruct s; [reflexivity|cbn [length] in L; lia].
  - destruct s as [|c tl]; [reflexivity|]. cbn [length] in L.
    destruct (isWhiteSpace c) eqn:Hc.
    + destruct (replace_run isWhiteSpace (fun _ => str " ") c tl pre Hc) as (x & ->).
      pose proof (takeWhile_boundary isWhiteSpace tl) as B.
      pose proof (takeWhile_skipn isWhiteSpace tl) as E.
      set (rst := skipn (length (takeWhile isWhiteSpace tl)) tl) in *.
      assert (Lr : length rst <= n).
      { apply (f_equal (@length char)) in E. rewrite length_app in E. lia. }
      cbn [str map list_ascii_of_string app singleSpaced].
      change (isWhiteSpace (N_of_ascii " ")) with true. cbn [N.eqb andb].
      rewrite IH by exact Lr. rewrite andb_true_r.
      destruct rst as [|d r']; [reflexivity|].
      cbn in B. rewrite replace_no_run by exact B. rewrite B. reflexivity.
    + rewrite replace_no_run by exact Hc. cbn [singleSpaced]. rewrite Hc.
      apply IH. lia.
Qed.

Lemma singleSpaced_suffix (l t : jsstring) :
  singleSpaced (l ++ t) = true -> singleSpaced t = true.
Proof.
  induction l as [|c l IH]; [auto|]. cbn [app singleSpaced].
  intros H. apply andb_true_iff in H as [_ H]. apply IH. exact H.
Qed.

Lemma singleSpaced_prefix (t r : jsstring) :
  singleSpaced (t ++ r) = true -> singleSpaced t = true.
Proof.
  induction t as [|c t IH]; [reflexivity|]. cbn [app singleSpaced].
  intros H. apply andb_true_iff in H as [Hc H]. rewrite (IH H), andb_true_r.
  destruct (isWhiteSpace c); [|reflexivity].
  apply andb_true_iff in Hc as [-> Hn]. destruct t; [reflexivity|exact Hn].
Qed.

Lemma trim_singleSpaced (s : jsstring) :
  singleSpaced s = true -> singleSpaced (trim s) = true.
Proof.
  intros H. destruct (trim_spec s) as [_ (l & r & _ & _ & E)].
  rewrite E in H. apply singleSpaced_suffix in H.
  apply singleSpaced_prefix in H. exact H.
Qed.

(** ** Feed-index reader: the entries *)

Lemma parseInt_digits (c : char) (w : jsstring) :
  isDigit c = true ->
  exists n, parseInt (c :: w) = Num (Z.of_N n).
Proof.
  intros Hc. unfold parseInt. cbn [trimStart]. rewrite (digit_not_space c Hc).
  pose proof (isDigit_range c Hc) as R.
  destruct (N.eqb_spec c 45) as [E|_]; [lia|].
  destruct (N.eqb_spec c 43) as [E|_]; [lia|].
  cbn [takeWhile]. rewrite Hc. eexists. reflexivity.
Qed.

Lemma ukpga_url_inv (url : jsstring) (x : mresult) :
  exec UKPGA_URL url = Some x ->
  exists d1 d2 d3 d4 c w,
    isDigit d1 = true /\ isDigit d2 = true /\ isDigit d3 = true /\ isDigit d4 = true
    /\ isDigit c = true
    /\ caps (m_end x) = [(2, c :: w); (1, [d1; d2; d3; d4])].
Proof.
  unfold exec. intros H. apply search_sound in H as (u & v & _ & _ & _ & H).
  unfold UKPGA_URL in H. cbn [SeqL] in H.
  apply matches_skip in H as (s1 & _ & _ & _ & C1 & H); [|reflexivity].
  apply matches_Seq_inv in H as (s2 & H2 & H).
  apply matches_skip in H as (s3 & _ & _ & _ & C3 & H); [|reflexivity].
  apply matches_Group_inv in H2 as (s2' & yr & Hy & Ry & _ & _ & C2).
  pose proof (@matches_groupFree (Rep4 digit) _ _ Hy eq_refl) as Cy.
  apply rep4_digit_inv in Hy as (d1 & d2 & d3 & d4 & P1 & P2 & P3 & P4 & Ry').
  assert (Eyr : yr = [d1; d2; d3; d4]).
  { rewrite Ry' in Ry. apply app_inv_tail in Ry. symmetry. exact Ry. }
  apply matches_Group_inv in H as (s4 & nr & Hn & Rn & _ & _ & C4).
  apply matches_plus_chr in Hn as (c & w & Hc & _ & Rn' & _ & Cn).
  assert (Enr : nr = c :: w).
  { rewrite Rn' in Rn. change (c :: w ++ rest s4) with ((c :: w) ++ rest s4) in Rn.
    apply app_inv_tail in Rn. symmetry. exact Rn. }
  exists d1, d2, d3, d4, c, w.
  rewrite C4, Cn, C3, C2, Cy, C1, Eyr, Enr. cbn [caps]. auto 10.
Qed.

Lemma fold_left_entries (l : list jsval) (acc : list ActIndexEntry) :
  fold_left (fun entries entry =>
               match readEntry entry with
               | Some e => entries ++ [e]
               | None => entries
               end) l acc
  = acc ++ flat_map (fun entry => match readEntry entry with
                                  | Some e => [e]
                                  | None => []
                                  end) l.
Proof.
  revert acc. induction l as [|x l IH]; intros acc; cbn [fold_left flat_map].
  - rewrite app_nil_r. reflexivity.
  - rewrite IH. destruct (readEntry x); [rewrite <- app_assoc|]; reflexivity.
Qed.

(** What [readEntry] returns: the year is an integer from 0 to 9999, the
    number is an integer that is not negative (neither is ever NaN), and
    the title has white space at neither end and no white space but
    single spaces. *)
Lemma readEntry_shape (entry : jsval) (e : ActIndexEntry) :
  readEntry entry = Some e ->
  (exists y, entry_year e = Num y /\ (0 <= y <= 9999)%Z)
  /\ (exists n, entry_number e = Num n /\ (0 <= n)%Z)
  /\ trim (entry_title e) = entry_title e
  /\ singleSpaced (entry_title e) = true.
Proof.
  unfold readEntry. destruct (negb (isTruthy entry)); [discriminate|].
  destruct (negb (truthy (extractText (getProp entry "title")))); [discriminate|].
  destruct (exec UKPGA_URL _) as [x|] eqn:E; [|discriminate].
  apply ukpga_url_inv in E as (d1 & d2 & d3 & d4 & c & w & P1 & P2 & P3 & P4 & Hc & C).
  intros H. injection H as <-. cbn [entry_year entry_number entry_title].
  unfold capture, group. rewrite C. cbn [lookupCap find fst snd Nat.eqb].
  destruct (parseInt_four_digits d1 d2 d3 d4 P1 P2 P3 P4) as (y & -> & Hy).
  destruct (parseInt_digits c w Hc) as (n & ->).
  split; [exists y; auto|]. split; [exists (Z.of_N n); split; [reflexivity|lia]|].
  split; [apply trim_idempotent|].
  apply trim_singleSpaced, collapseSpaces_singleSpaced.
Qed.

Lemma parseAtomFeed_entries_Forall (xmlParse : jsstring -> jsval)
    (xml : jsstring) :
  Forall (fun e =>
            (exists y, entry_year e = Num y /\ (0 <= y <= 9999)%Z)
            /\ (exists n, entry_number e = Num n /\ (0 <= n)%Z)
            /\ trim (entry_title e) = entry_title e
            /\ singleSpaced (entry_title e) = true)
         (entries (parseAtomFeed xmlParse xml)).
Proof.
  unfold parseAtomFeed. cbn [entries]. rewrite fold_left_entries. cbn [app].
  apply Forall_forall. intros e He. apply in_flat_map in He as (entry & _ & He).
  destruct (readEntry entry) as [e'|] eqn:E; [|contradiction].
  destruct He as [<-|[]]. apply (readEntry_shape _ E).
Qed.

(** X12.  Every entry that [parseAtomFeed] returns has a year from 0 to 9999
    and a number that is not negative, neither of them NaN, and a title
    with white space at neither end and no white space but single
    spaces. *)
Theorem parseAtomFeed_entries_well_formed (xmlParse : jsstring -> jsval)
    (xml : jsstring) :
  Forall (fun e =>
            (exists y, entry_year e = Num y /\ (0 <= y <= 9999)%Z)
            /\ (exists n, entry_number e = Num n /\ (0 <= n)%Z)
            /\ trim (entry_title e) = entry_title e
            /\ singleSpaced (entry_title e) = true)
         (entries (parseAtomFeed xmlParse xml)).
Proof. exact (@parseAtomFeed_entries_Forall xmlParse xml). Qed.

(** ** Tree walker: the records *)

Lemma joinParts_normal (parts : list jsstring) :
  trim (joinParts parts) = joinParts parts /\ singleSpaced (joinParts parts) = true.
Proof.
  unfold joinParts. split; [apply trim_idempotent|].
  apply trim_singleSpaced, collapseSpaces_singleSpaced.
Qed.

(** The text that [extractContentText] returns has white space at
    neither end and no white space but single spaces. *)
Lemma extractContentText_normal (node : jsval) :
  trim (extractContentText node) = extractContentText node
  /\ singleSpaced (extractContentText node) = true.
Proof.
  destruct node; try (split; reflexivity). cbn [extractContentText].
  apply joinParts_normal.
Qed.

Lemma withField_Forall (A : Type) (P : A -> Prop) (Q : jsval -> Prop)
    (g : jsval -> list A) (name : string) :
  (forall el, Q el -> Forall P (g el)) ->
  forall fs,
  Forall (fun kv => onElements Q (snd kv)) fs ->
  Forall P (withField fs name (fun v => forItems v g) []).
Proof.
  intros Hg. induction fs as [|[k v] tl IH]; intros H; cbn [withField].
  - constructor.
  - inversion H as [|? ? Hv Htl]; subst. cbn [snd] in Hv.
    destruct (streq k (str name)); [|apply IH; exact Htl].
    rewrite forItems_childList. apply onElements_childList in Hv.
    apply Forall_flat_map. revert Hv. apply Forall_impl. exact Hg.
Qed.

(** A property of the records of every section and of every hcontainer
    is a property of all records of a walk. *)
Lemma inWalkOrder_Forall (A : Type) (P : A -> Prop) (own sect : jsval -> list A) :
  (forall el, Forall P (own el)) -> (forall el, Forall P (sect el)) ->
  forall node, Forall P (inWalkOrder own sect node).
Proof.
  intros Hown Hsect. induction node using onElements_all; [constructor|].
  destruct node; try constructor. rewrite inWalkOrder_eq.
  repeat (apply Forall_app; split).
  - apply (withField_Forall (Q := fun el => Forall P (inWalkOrder own sect el)));
      [|assumption].
    intros el Hel. destruct (isObject el); [exact Hel|constructor].
  - apply (withField_Forall (Q := fun el => Forall P (inWalkOrder own sect el)));
      [|assumption].
    intros el Hel. destruct (isObject el); [exact Hel|constructor].
  - apply Forall_flat_map. apply Forall_forall. intros s _. apply Hsect.
  - apply (withField_Forall (Q := fun el => Forall P (inWalkOrder own sect el)));
      [|assumption].
    intros el Hel. destruct (isObject el); [|constructor].
    apply Forall_app. split; [apply Hown|exact Hel].
Qed.

(** X13.  Every record that the walker emits has a content that is not empty,
    has white space at neither end and holds no white space but single
    spaces. *)
Theorem extractProvisions_contents (node : jsval) (ctx : jsstring) :
  Forall (fun r => nonEmpty (content r) = true
                   /\ trim (content r) = content r
                   /\ singleSpaced (content r) = true)
         (extractProvisions node [] ctx).
Proof.
  rewrite (extractProvisions_walkOrder node [] ctx). cbn [app]. unfold walkOrder.
  assert (Own : forall name el,
            Forall (fun r => nonEmpty (content r) = true
                             /\ trim (content r) = content r
                             /\ singleSpaced (content r) = true)
                   (ownRecord name el)).
  { intros name el. unfold ownRecord, pushOwnRecord.
    destruct (extractContentText_normal el) as [T S].
    destruct (nonEmpty (trim (extractContentText el))) eqn:E; [|constructor].
    constructor; [|constructor]. cbn [content app]. rewrite T in *. auto. }
  apply inWalkOrder_Forall; [apply Own|].
  intros s. unfold sectionRecords. destruct (isObject s); [|constructor].
  apply Forall_app. split; [apply Own|].
  unfold subsectionRecords. apply Forall_flat_map. apply Forall_forall.
  intros sub _. unfold processSubsection.
  destruct (negb (isObject sub)); [constructor|].
  destruct (extractContentText_normal sub) as [T S].
  destruct (nonEmpty (trim (extractContentText sub))) eqn:E; [|constructor].
  constructor; [|constructor]. cbn [content app]. rewrite T in *. auto.
Qed.






(** ** Provision references: identifiers with a prefix *)

Lemma matches_Lit_inv (w : string) :
  forall s s', matches (Lit w) s s' ->
  rest s = str w ++ rest s' /\ caps s' = caps s.
Proof.
  induction w as [|c w IH]; intros s s' H.
  - apply matches_Eps_inv in H. subst s'. auto.
  - destruct w as [|c' w'].
    + apply matches_Lit1_inv in H as (R & _ & C). auto.
    + change (Lit (String c (String c' w')))
        with (Seq (Lit1 c) (Lit (String c' w'))) in H.
      apply matches_Seq_inv in H as (s1 & H1 & H2).
      apply matches_Lit1_inv in H1 as (R1 & _ & C1).
      apply IH in H2 as (R2 & C2).
      rewrite R1, R2, C2, C1. rewrite str_String. auto.
Qed.

Lemma section_eid_inv (e : jsstring) (x : mresult) :
  exec SECTION_EID e = Some x ->
  exists u d, isDigits d = true /\ e = u ++ str "section-" ++ d
              /\ caps (m_end x) = [(1, d)].
Proof.
  unfold exec. intros H. apply search_sound in H as (u & v & -> & _ & _ & H).
  unfold SECTION_EID in H. cbn [SeqL] in H.
  apply matches_Seq_inv in H as (s1 & H1 & H).
  apply matches_Seq_inv in H as (s2 & H2 & H3).
  apply matches_Lit_inv in H1 as (R1 & C1). cbn [rest caps] in R1, C1.
  apply matches_Group_inv in H2 as (s2' & d & Hd & Rd & R2 & _ & C2).
  apply matches_plus_chr in Hd as (c & w & Hc & Hw & Rd' & _ & Cd).
  apply matches_Eol_inv in H3 as [-> R3].
  assert (Ed : d = c :: w).
  { rewrite Rd' in Rd. change (c :: w ++ rest s2') with ((c :: w) ++ rest s2') in Rd.
    apply app_inv_tail in Rd. symmetry. exact Rd. }
  exists u, d. split; [|split].
  - rewrite Ed. unfold isDigits. cbn [nonEmpty forallb]. rewrite Hc, Hw. reflexivity.
  - rewrite R1, Rd, <- R2, R3, app_nil_r. reflexivity.
  - rewrite C2, Cd, C1. reflexivity.
Qed.

Lemma subsection_eid_inv (e : jsstring) (x : mresult) :
  exec SUBSECTION_EID e = Some x ->
  exists u d d', isDigits d = true /\ isDigits d' = true
                 /\ e = u ++ str "section-" ++ d ++ str "-" ++ d'
                 /\ caps (m_end x) = [(2, d'); (1, d)].
Proof.
  unfold exec. intros H. apply search_sound in H as (u & v & -> & _ & _ & H).
  unfold SUBSECTION_EID in H. cbn [SeqL] in H.
  apply matches_Seq_inv in H as (s1 & H1 & H).
  apply matches_Seq_inv in H as (s2 & H2 & H).
  apply matches_Seq_inv in H as (s3 & H3 & H).
  apply matches_Seq_inv in H as (s4 & H4 & H5).
  apply matches_Lit_inv in H1 as (R1 & C1). cbn [rest caps] in R1, C1.
  apply matches_Group_inv in H2 as (s2' & d & Hd & Rd & R2 & _ & C2).
  apply matches_plus_chr in Hd as (c & w & Hc & Hw & Rd' & _ & Cd).
  apply matches_Lit1_inv in H3 as (R3 & _ & C3).
  apply matches_Group_inv in H4 as (s4' & d' & Hd' & Rd2 & R4 & _ & C4).
  apply matches_plus_chr in Hd' as (c' & w' & Hc' & Hw' & Rd2' & _ & Cd').
  apply matches_Eol_inv in H5 as [-> R5].
  assert (Ed : d = c :: w).
  { rewrite Rd' in Rd. change (c :: w ++ rest s2') with ((c :: w) ++ rest s2') in Rd.
    apply app_inv_tail in Rd. symmetry. exact Rd. }
  assert (Ed' : d' = c' :: w').
  { rewrite Rd2' in Rd2. change (c' :: w' ++ rest s4') with ((c' :: w') ++ rest s4') in Rd2.
    apply app_inv_tail in Rd2. symmetry. exact Rd2. }
  exists u, d, d'. split; [|split; [|split]].
  - rewrite Ed. unfold isDigits. cbn [nonEmpty forallb]. rewrite Hc, Hw. reflexivity.
  - rewrite Ed'. unfold isDigits. cbn [nonEmpty forallb]. rewrite Hc', Hw'. reflexivity.
  - rewrite R1, Rd, <- R2, R3, Rd2, <- R4, R5, app_nil_r. reflexivity.
  - rewrite C4, Cd', C3, C2, Cd, C1. reflexivity.
Qed.

(** The digits at the end of a text, after a code unit that is no digit,
    are determined by the text. *)
Lemma trailing_digits_unique (a a' d d' : jsstring) (c c' : char) :
  forallb isDigit d = true -> forallb isDigit d' = true ->
  isDigit c = false -> isDigit c' = false ->
  a ++ c :: d = a' ++ c' :: d' -> a = a' /\ d = d'.
Proof.
  intros Hd Hd' Hc Hc' E. apply (f_equal (@rev char)) in E.
  rewrite !rev_app_distr in E. cbn [rev] in E. rewrite <- !app_assoc in E.
  cbn [app] in E.
  apply digit_run_unique in E as [E1 E2];
    try (rewrite forallb_rev; assumption); try assumption.
  apply (f_equal (@rev char)) in E1, E2. rewrite !rev_involutive in E1, E2. auto.
Qed.

Lemma section_eid_found (p n : jsstring) :
  isDigits n = true -> exec SECTION_EID (p ++ str "section-" ++ n) <> None.
Proof.
  intros Hn. unfold exec. apply search_finds. unfold matchAt, SECTION_EID, SeqL, digit.
  rewrite m_Seq, m_Lit_prefix, m_Seq, m_Group.
  erewrite m_plus_run_end;
    [discriminate
    | apply isDigits_nonEmpty; exact Hn | apply isDigits_forallb; exact Hn | reflexivity ].
Qed.

Lemma subsection_eid_found (p n n' : jsstring) :
  isDigits n = true -> isDigits n' = true ->
  exec SUBSECTION_EID (p ++ str "section-" ++ n ++ str "-" ++ n') <> None.
Proof.
  intros Hn Hn'. unfold exec. apply search_finds.
  unfold matchAt, SUBSECTION_EID, SeqL, digit.
  rewrite m_Seq, m_Lit_prefix, m_Seq, m_Group.
  erewrite m_plus_run;
    [discriminate
    | apply isDigits_nonEmpty; exact Hn | apply isDigits_forallb; exact Hn | reflexivity | ].
  cbv beta. cbn [rest before caps]. rewrite m_Seq.
  change (str "-" ++ n') with (chr "-" :: n'). rewrite m_Lit1, m_Seq, m_Group.
  apply m_plus_run_end;
    [apply isDigits_nonEmpty; exact Hn' | apply isDigits_forallb; exact Hn'
    | reflexivity].
Qed.

(** X15.  The identifier patterns are not anchored at the start: an identifier
    that ends in "section-N", whatever stands before, gives the reference
    "sN", and one that ends in "section-N-M" gives "sN(M)", for every
    element type and number. *)
Theorem buildProvisionRef_identifier_suffix (p n : jsstring) (m' : option jsstring)
    (elementType : string) (num : option jsstring) :
  isDigits n = true -> optional isDigits m' = true ->
  buildProvisionRef
    (p ++ str "section-" ++ n
       ++ match m' with Some k => str "-" ++ k | None => [] end)
    elementType num
  = str "s" ++ n ++ parenPart m'.
Proof.
  intros Hn Hm. unfold buildProvisionRef.
  assert (NE : forall t : jsstring, nonEmpty (p ++ str "section-" ++ t) = true)
    by (intros t; destruct p; reflexivity).
  rewrite NE.
  pose proof (isDigits_forallb _ Hn) as Dn.
  destruct m' as [k|]; cbn [optional parenPart] in *; cbv iota.
  - pose proof (isDigits_forallb _ Hm) as Dk.
    destruct (exec SECTION_EID _) as [x|] eqn:E.
    + exfalso. apply section_eid_inv in E as (u & d & Hd & E & _).
      pose proof (isDigits_forallb _ Hd) as Dd.
      replace (p ++ str "section-" ++ n ++ str "-" ++ k)
        with ((p ++ str "section-" ++ n) ++ chr "-" :: k) in E
        by (rewrite <- !app_assoc; reflexivity).
      replace (u ++ str "section-" ++ d) with ((u ++ str "section") ++ chr "-" :: d) in E
        by (rewrite <- !app_assoc; reflexivity).
      apply trailing_digits_unique in E as [E _]; try assumption; try reflexivity.
      apply (f_equal (@rev char)) in E. rewrite !rev_app_distr in E.
      destruct (rev n) as [|c r] eqn:En.
      * apply (f_equal (@length char)) in En. rewrite length_rev in En.
        apply isDigits_nonEmpty in Hn. destruct n; discriminate.
      * assert (Hc : isDigit c = true).
        { assert (In c (rev n)) by (rewrite En; left; reflexivity).
          rewrite forallb_forall in Dn. apply Dn. apply in_rev. exact H. }
        cbn in E. injection E as E _. rewrite E in Hc. discriminate.
    + pose proof (@subsection_eid_found p n k Hn Hm) as F.
      destruct (exec SUBSECTION_EID _) as [x|] eqn:E'; [|contradiction].
      apply subsection_eid_inv in E' as (u & d & d' & Hd & Hd' & E' & C).
      pose proof (isDigits_forallb _ Hd) as Dd.
      pose proof (isDigits_forallb _ Hd') as Dd'.
      replace (p ++ str "section-" ++ n ++ str "-" ++ k)
        with ((p ++ str "section-" ++ n) ++ chr "-" :: k) in E'
        by (rewrite <- !app_assoc; reflexivity).
      replace (u ++ str "section-" ++ d ++ str "-" ++ d')
        with ((u ++ str "section-" ++ d) ++ chr "-" :: d') in E'
        by (rewrite <- !app_assoc; reflexivity).
      apply trailing_digits_unique in E' as [E1 E2]; try assumption; try reflexivity.
      replace (p ++ str "section-" ++ n) with ((p ++ str "section") ++ chr "-" :: n) in E1
        by (rewrite <- !app_assoc; reflexivity).
      replace (u ++ str "section-" ++ d) with ((u ++ str "section") ++ chr "-" :: d) in E1
        by (rewrite <- !app_assoc; reflexivity).
      apply trailing_digits_unique in E1 as [_ E1]; try assumption; try reflexivity.
      unfold capture, group. rewrite C. cbn [lookupCap find fst snd Nat.eqb].
      rewrite <- E1, <- E2. reflexivity.
  - rewrite app_nil_r.
    pose proof (@section_eid_found p n Hn) as F.
    destruct (exec SECTION_EID _) as [x|] eqn:E; [|contradiction].
    apply section_eid_inv in E as (u & d & Hd & E & C).
    pose proof (isDigits_forallb _ Hd) as Dd.
    replace (p ++ str "section-" ++ n) with ((p ++ str "section") ++ chr "-" :: n) in E
      by (rewrite <- !app_assoc; reflexivity).
    replace (u ++ str "section-" ++ d) with ((u ++ str "section") ++ chr "-" :: d) in E
      by (rewrite <- !app_assoc; reflexivity).
    apply trailing_digits_unique in E as [_ E]; try assumption; try reflexivity.
    unfold capture, group. rewrite C. cbn [lookupCap find fst snd Nat.eqb].
    rewrite <- E. reflexivity.
Qed.

Lemma buildProvisionRef_identifier_suffix_witness :
  isDigits (str "3") = true /\ optional isDigits (Some (str "2")) = true
  /\ buildProvisionRef (str "schedule-1-" ++ str "section-" ++ str "3" ++ str "-" ++ str "2")
       "hcontainer" None
     = str "s" ++ str "3" ++ parenPart (Some (str "2")).
Proof.
  split; [reflexivity|]. split; [reflexivity|].
  apply (@buildProvisionRef_identifier_suffix (str "schedule-1-") (str "3")
           (Some (str "2")) "hcontainer" None); reflexivity.
Defined.

(** X16.  Without an identifier the reference is made from the number: its code
    units other than dots and white space, in their order, after an "s"
    for a section and alone for every other element type (so a number of
    dots and white space only gives "s" or the empty reference); without
    a number too it is the element type followed by "-unknown". *)
Theorem buildProvisionRef_without_identifier (elementType : string)
    (num : option jsstring) :
  buildProvisionRef [] elementType num
  = match num with
    | Some (c :: n) =>
        (if String.eqb elementType "section" then str "s" else [])
        ++ filter (fun c => negb (dotOrSpace c)) (c :: n)
    | _ => str elementType ++ str "-unknown"
    end.
Proof.
  unfold buildProvisionRef. cbn [nonEmpty].
  destruct num as [[|c n]|]; try reflexivity.
  cbn [truthy showOpt nonEmpty]. cbv zeta.
  rewrite replaceAll_delete_class.
  destruct (String.eqb elementType "section"); reflexivity.
Qed.

(** ** Flattener: what it keeps *)

(** X17.  A text without an opening angle bracket is returned as it is. *)
Theorem flatten_plain_text (s : jsstring) :
  ~ In (chr "<") s -> flattenInlineElements s = s.
Proof.
  intros H.
  assert (Hs : forallb notLt s = true).
  { apply forallb_forall. intros c Hc. unfold notLt. apply negb_true_iff.
    apply N.eqb_neq. intros E. apply H. rewrite E. exact Hc. }
  assert (Copy : forall r f, replaceAll (Seq (Lit1 "<") r) f s = s).
  { intros r f. unfold replaceAll. rewrite <- (app_nil_r s) at 1.
    rewrite replace_copy by exact Hs.
    rewrite replace_from_eq, matchAt_not_lt by exact I. apply app_nil_r. }
  unfold flattenInlineElements.
  change (selfClosing ["noteRef"; "marker"; "ref"]%string)
    with (Seq (Lit1 "<")
            (Seq (AltL (map Lit ["noteRef"; "marker"; "ref"]%string))
                 (SeqL [WordB; Star true (Chr notGt); Lit "/>"]))).
  rewrite Copy.
  change PAIRED
    with (Seq (Lit1 "<") (Seq (AltL (map Lit pairedNames))
            (Seq WordB (Seq (Star true (Chr notGt)) (Seq (Lit1 ">")
               (Seq (Group 1 (Star false anyChar)) closingTag)))))).
  rewrite Copy.
  change (selfClosing ["noteRef"]%string)
    with (Seq (Lit1 "<")
            (Seq (AltL (map Lit ["noteRef"]%string))
                 (SeqL [WordB; Star true (Chr notGt); Lit "/>"]))).
  apply Copy.
Qed.

Lemma flatten_plain_text_witness :
  ~ In (chr "<") (str "5 > 3, as the Act says")
  /\ flattenInlineElements (str "5 > 3, as the Act says") = str "5 > 3, as the Act says".
Proof.
  assert (H : ~ In (chr "<") (str "5 > 3, as the Act says")).
  { intros H. vm_compute in H. repeat (destruct H as [H|H]; [discriminate|]).
    exact H. }
  split; [exact H|]. exact (@flatten_plain_text (str "5 > 3, as the Act says") H).
Defined.

Lemma filter_filter_implies (A : Type) (p q : A -> bool) (l : list A) :
  (forall x, q x = true -> p x = true) ->
  filter q (filter p l) = filter q l.
Proof.
  intros H. induction l as [|x l IH]; [reflexivity|]. cbn [filter].
  destruct (p x) eqn:P; cbn [filter].
  - rewrite IH. reflexivity.
  - destruct (q x) eqn:Q; [|exact IH]. rewrite (H x Q) in P. discriminate.
Qed.

Lemma isOther_open (b : jsstring) : openBody b = true -> isOther (Tag b) = false.
Proof. intros H. unfold isOther. rewrite (kindOf_open b H). reflexivity. Qed.

Lemma isOther_close (b : jsstring) : closeBody b = true -> isOther (Tag b) = false.
Proof. intros H. unfold isOther. rewrite (kindOf_close b H). reflexivity. Qed.

(** The pass over the paired elements drops opening and closing tags of
    paired elements only. *)
Lemma paired_pass_keeps :
  forall n ts pre,
  length ts <= n ->
  forallb wfToken ts = true ->
  exists ts', sublist ts' ts
              /\ replace_from PAIRED (fun x => capture 1 x) pre (renderAll ts) 0
                 = renderAll ts'
              /\ filter isOther ts' = filter isOther ts.
Proof.
  induction n as [|n IH]; intros ts pre Hlen Hwf.
  - destruct ts; [|simpl in Hlen; lia]. exists []. split; [constructor|].
    split; reflexivity.
  - destruct ts as [|t ts].
    + exists []. split; [constructor|]. split; reflexivity.
    + cbn [length] in Hlen. cbn [forallb] in Hwf.
      apply andb_true_iff in Hwf as [Ht Hts].
      rewrite renderAll_cons. destruct t as [c|b]; cbn [wfToken] in Ht.
      * destruct (IH ts (c :: pre)) as (ts' & Hsub & E & Hk); [lia|exact Hts|].
        exists (Txt c :: ts'). split; [constructor; exact Hsub|]. split.
        -- rewrite paired_copy_txt by exact Ht. rewrite E. reflexivity.
        -- cbn [filter]. rewrite Hk. reflexivity.
      * destruct (m PAIRED (MState pre (chr "<" :: b ++ chr ">" :: renderAll ts) [])
                    (fun e => Some e)) as [e|] eqn:He.
        -- destruct (paired_inv b pre ts Ht Hts He)
             as (mid & cl & rest' & -> & Hr & Hcap & Ho & Hc & _).
           assert (ER : b ++ chr ">" :: renderAll (mid ++ Tag cl :: rest')
                        = (b ++ chr ">" :: renderAll mid ++ render (Tag cl))
                          ++ renderAll rest').
           { rewrite renderAll_app, renderAll_cons.
             rewrite <- !app_assoc. cbn [app]. rewrite <- !app_assoc. reflexivity. }
           rewrite render_tag. rewrite ER in He |- *.
           pose proof (@replace_matched PAIRED (fun x => capture 1 x) _ _ _ _ _ He Hr)
             as EQ.
           destruct (IH rest' (rev (b ++ chr ">" :: renderAll mid ++ render (Tag cl))
                               ++ chr "<" :: pre))
             as (ts' & Hsub & E & Hk).
           { rewrite length_app in Hlen. cbn [length] in Hlen. lia. }
           { rewrite forallb_app in Hts. apply andb_true_iff in Hts as [_ Hts].
             cbn [forallb] in Hts. apply andb_true_iff in Hts as [_ Hts]. exact Hts. }
           exists (mid ++ ts'). split; [|split].
           ++ constructor. apply sublist_app; [apply sublist_refl|].
              constructor. exact Hsub.
           ++ rewrite EQ, E. unfold capture, group. cbn [m_end]. rewrite Hcap.
              cbn [lookupCap find fst snd Nat.eqb]. rewrite renderAll_app.
              reflexivity.
           ++ cbn [filter]. rewrite (isOther_open b Ho).
              rewrite !filter_app. cbn [filter]. rewrite (isOther_close cl Hc), Hk.
              reflexivity.
        -- destruct (IH ts (rev (b ++ [chr ">"]) ++ chr "<" :: pre))
             as (ts' & Hsub & E & Hk); [lia|exact Hts|].
           exists (Tag b :: ts'). split; [constructor; exact Hsub|]. split.
           ++ rewrite paired_copy_tag by assumption. rewrite E. reflexivity.
           ++ cbn [filter]. rewrite Hk. reflexivity.
Qed.

Lemma tagsDelimited_body (R : jsstring) :
  forall b, forallb noAngle b = true ->
  tagsDelimited true (b ++ chr ">" :: R) = tagsDelimited false R.
Proof.
  induction b as [|c b IH]; intros H; [reflexivity|].
  cbn [forallb] in H. apply andb_true_iff in H as [Hc Hb].
  unfold noAngle, notLt, notGt in Hc. apply andb_true_iff in Hc as [H1 H2].
  apply negb_true_iff in H1, H2. rewrite N.eqb_sym in H1.
  cbn [app tagsDelimited]. rewrite H1, H2. apply IH. exact Hb.
Qed.

Lemma tagsDelimited_render (ts : list token) :
  forallb wfToken ts = true -> tagsDelimited false (renderAll ts) = true.
Proof.
  induction ts as [|t ts IH]; intros H; [reflexivity|].
  cbn [forallb] in H. apply andb_true_iff in H as [Ht Hts].
  rewrite renderAll_cons. destruct t as [c|b]; cbn [wfToken] in Ht.
  - cbn [render app tagsDelimited]. unfold notLt in Ht. apply negb_true_iff in Ht.
    rewrite N.eqb_sym in Ht. rewrite Ht. apply IH. exact Hts.
  - rewrite render_tag. cbn [tagsDelimited]. rewrite N.eqb_refl.
    rewrite tagsDelimited_body by exact Ht. apply IH. exact Hts.
Qed.

Lemma inlineTag_kept (t : token) :
  inlineTag t = false ->
  keptByFirstPass t = true /\ isOther t = true
  /\ negb (selfClosingToken ["noteRef"]%string t) = true.
Proof.
  destruct t as [c|b]; [auto|]. cbn [inlineTag].
  intros H. apply orb_false_iff in H as [H Hc]. apply orb_false_iff in H as [Hs Ho].
  unfold keptByFirstPass, isOther. cbn [selfClosingToken kindOf].
  rewrite Hs, Ho, Hc, (self_closing_noteRef_subset b Hs). auto.
Qed.

(** X18.  On a text whose tags are delimited the flattener deletes inline tags
    and nothing else: the result has delimited tags again, and its code
    units and tags other than the inline tags are those of the input, in
    the same order. *)
Theorem flatten_keeps_the_rest (xml : jsstring) :
  tagsDelimited false xml = true ->
  tagsDelimited false (flattenInlineElements xml) = true
  /\ filter (fun t => negb (inlineTag t)) (tokenize None (flattenInlineElements xml))
     = filter (fun t => negb (inlineTag t)) (tokenize None xml).
Proof.
  intros H. destruct (proj1 (tokens_of_delimited xml) H) as (ts & Hwf & ->).
  unfold flattenInlineElements, replaceAll.
  rewrite strip_self_closing by (try discriminate; auto).
  change (fun t => negb (selfClosingToken ["noteRef"; "marker"; "ref"]%string t))
    with keptByFirstPass.
  assert (Hwf1 : forallb wfToken (filter keptByFirstPass ts) = true)
    by (apply (sublist_forallb _ (sublist_filter keptByFirstPass ts)); exact Hwf).
  destruct (@paired_pass_keeps _ (filter keptByFirstPass ts) [] (le_n _) Hwf1)
    as (ts2 & Hsub2 & -> & Hk).
  assert (Hwf2 : forallb wfToken ts2 = true)
    by (apply (sublist_forallb _ Hsub2); exact Hwf1).
  rewrite strip_self_closing by (try discriminate; auto).
  set (p1 := fun t => negb (selfClosingToken ["noteRef"]%string t)).
  assert (Hwf3 : forallb wfToken (filter p1 ts2) = true)
    by (apply (sublist_forallb _ (sublist_filter p1 ts2)); exact Hwf2).
  split; [apply tagsDelimited_render; exact Hwf3|].
  rewrite !tokenize_render by assumption.
  set (keep := fun t => negb (inlineTag t)).
  assert (K : forall t, keep t = true ->
              keptByFirstPass t = true /\ isOther t = true /\ p1 t = true).
  { intros t Ht. apply inlineTag_kept. apply negb_true_iff. exact Ht. }
  rewrite (@filter_filter_implies _ p1 keep) by (intros t Ht; apply (K t Ht)).
  rewrite <- (@filter_filter_implies _ isOther keep ts2)
    by (intros t Ht; apply (K t Ht)).
  rewrite Hk.
  rewrite (@filter_filter_implies _ isOther keep) by (intros t Ht; apply (K t Ht)).
  apply filter_filter_implies. intros t Ht. apply (K t Ht).
Qed.

Lemma flatten_keeps_the_rest_witness :
  tagsDelimited false
    (str "<p>Most <ins a='1'>UK <noteRef href='x'/>GDPR</ins>.</p>") = true
  /\ tagsDelimited false
       (flattenInlineElements
          (str "<p>Most <ins a='1'>UK <noteRef href='x'/>GDPR</ins>.</p>")) = true
  /\ filter (fun t => negb (inlineTag t))
       (tokenize None
          (flattenInlineElements
             (str "<p>Most <ins a='1'>UK <noteRef href='x'/>GDPR</ins>.</p>")))
     = filter (fun t => negb (inlineTag t))
         (tokenize None
            (str "<p>Most <ins a='1'>UK <noteRef href='x'/>GDPR</ins>.</p>")).
Proof.
  assert (H : tagsDelimited false
                (str "<p>Most <ins a='1'>UK <noteRef href='x'/>GDPR</ins>.</p>") = true)
    by (vm_compute; reflexivity).
  split; [exact H|].
  exact (@flatten_keeps_the_rest
           (str "<p>Most <ins a='1'>UK <noteRef href='x'/>GDPR</ins>.</p>") H).
Defined.

(** Where no opening tag is followed by a closing tag the paired pattern
    matches nowhere. *)
Lemma search_paired_none :
  forall ts pre,
  forallb wfToken ts = true -> noPair false ts = true ->
  search PAIRED pre (renderAll ts) = None.
Proof.
  assert (Shape : exists r, PAIRED = Seq (Lit1 "<") r) by (eexists; reflexivity).
  destruct Shape as (r & Shape).
  induction ts as [|t ts IH]; intros pre Hwf Hnp.
  - rewrite search_eq, Shape, matchAt_not_lt by exact I. reflexivity.
  - cbn [forallb] in Hwf. apply andb_true_iff in Hwf as [Ht Hts].
    pose proof (noPair_tail _ _ _ Hnp) as Hnp'.
    rewrite renderAll_cons. destruct t as [c|b]; cbn [wfToken] in Ht.
    + rewrite Shape.
      rewrite search_skip by (cbn [render forallb]; rewrite Ht; reflexivity).
      rewrite <- Shape. apply IH; assumption.
    + rewrite render_tag, search_eq. unfold matchAt.
      destruct (m PAIRED (MState pre (chr "<" :: b ++ chr ">" :: renderAll ts) [])
                  (fun e => Some e)) as [e|] eqn:He.
      * exfalso.
        destruct (paired_inv b pre ts Ht Hts He)
          as (mid & cl & rest' & -> & _ & _ & Ho & Hc & _).
        cbn [noPair] in Hnp. rewrite (kindOf_open b Ho) in Hnp.
        rewrite (noPair_seen_close mid rest' cl Hc) in Hnp. discriminate.
      * assert (E : b ++ chr ">" :: renderAll ts = (b ++ [chr ">"]) ++ renderAll ts)
          by (rewrite <- app_assoc; reflexivity).
        rewrite E, Shape, search_skip by (apply body_then_gt; exact Ht).
        rewrite <- Shape. apply IH; assumption.
Qed.

(** X19.  On a text whose tags are delimited and whose paired inline elements
    are not nested, one application leaves no paired inline element: the
    pattern of the second pass matches nowhere in the result. *)
Theorem flatten_no_paired_left (xml : jsstring) :
  tagsDelimited false xml = true -> unnested xml = true ->
  test PAIRED (flattenInlineElements xml) = false.
Proof.
  intros H U. destruct (proj1 (tokens_of_delimited xml) H) as (ts & Hwf & ->).
  unfold unnested in U. rewrite tokenize_render in U by exact Hwf.
  destruct (flatten_unnested_tokens ts Hwf U) as (ts3 & W3 & _ & N3 & ->).
  unfold test, exec. rewrite search_paired_none by assumption. reflexivity.
Qed.

Lemma flatten_no_paired_left_witness :
  tagsDelimited false
    (str "<p><ref href='y'>Act</ref> and <ins>UK</ins> <del>EU</del></p>") = true
  /\ unnested
       (str "<p><ref href='y'>Act</ref> and <ins>UK</ins> <del>EU</del></p>") = true
  /\ test PAIRED
       (flattenInlineElements
          (str "<p><ref href='y'>Act</ref> and <ins>UK</ins> <del>EU</del></p>"))
     = false.
Proof.
  assert (H : tagsDelimited false
                (str "<p><ref href='y'>Act</ref> and <ins>UK</ins> <del>EU</del></p>")
              = true) by (vm_compute; reflexivity).
  assert (U : unnested
                (str "<p><ref href='y'>Act</ref> and <ins>UK</ins> <del>EU</del></p>")
              = true) by (vm_compute; reflexivity).
  split; [exact H|]. split; [exact U|].
  exact (@flatten_no_paired_left
           (str "<p><ref href='y'>Act</ref> and <ins>UK</ins> <del>EU</del></p>") H U).
Defined.

(** ** Discovery of the acts *)

Lemma streq_refl (a : jsstring) : streq a a = true.
Proof. induction a as [|x a IH]; [reflexivity|]. cbn [streq]. rewrite N.eqb_refl. exact IH. Qed.

Lemma existsb_streq (k : jsstring) (seen : list jsstring) :
  existsb (streq k) seen = true <-> In k seen.
Proof.
  rewrite existsb_exists. split.
  - intros (x & Hx & E). apply streq_eq in E. subst x. exact Hx.
  - intros H. exists k. split; [exact H|apply streq_refl].
Qed.

(** What the loop that removes duplicates adds to [deduped]: a part of
    the entries, in their order, with keys that are new and pairwise
    distinct, that covers the key of every entry. *)
Lemma dedup_spec :
  forall l seen deduped,
  exists added,
    snd (fold_left dedupStep l (seen, deduped)) = deduped ++ added
    /\ sublist added l
    /\ NoDup (map entryKey added)
    /\ (forall e, In e added -> ~ In (entryKey e) seen)
    /\ (forall e, In e l -> In (entryKey e) seen \/ In (entryKey e) (map entryKey added)).
Proof.
  induction l as [|x l IH]; intros seen deduped.
  - exists []. cbn. rewrite app_nil_r.
    split; [reflexivity|]. split; [apply sublist_nil|]. split; [constructor|].
    split; intros e [].
  - cbn [fold_left]. unfold dedupStep at 2. cbn [fst snd].
    destruct (existsb (streq (entryKey x)) seen) eqn:E.
    + apply existsb_streq in E.
      destruct (IH seen deduped) as (added & Ho & Hs & Hn & Hnew & Hcov).
      exists added. split; [exact Ho|]. split; [constructor; exact Hs|].
      split; [exact Hn|]. split; [exact Hnew|].
      intros e [<-|He]; [left; exact E|apply Hcov; exact He].
    + assert (Nx : ~ In (entryKey x) seen).
      { intros H. apply existsb_streq in H. rewrite H in E. discriminate. }
      destruct (IH (entryKey x :: seen) (deduped ++ [x]))
        as (added & Ho & Hs & Hn & Hnew & Hcov).
      exists (x :: added). split; [rewrite Ho, <- app_assoc; reflexivity|].
      split; [constructor; exact Hs|]. split; [|split].
      * cbn [map]. constructor; [|exact Hn].
        intros H. apply in_map_iff in H as (e & Ek & He).
        apply (Hnew e He). left. symmetry. exact Ek.
      * intros e [<-|He]; [exact Nx|].
        intros H. apply (Hnew e He). right. exact H.
      * intros e [<-|He]; [right; left; reflexivity|].
        destruct (Hcov e He) as [[H|H]|H]; [right; left; exact H|left; exact H|].
        right. right. exact H.
Qed.

Lemma NoDup_map_factor (A B C : Type) (f : A -> B) (g : B -> C) (l : list A) :
  NoDup (map (fun x => g (f x)) l) -> NoDup (map f l).
Proof.
  induction l as [|x l IH]; cbn [map]; intros H; [constructor|].
  inversion H as [|? ? Hx Hl]; subst. constructor; [|apply IH; exact Hl].
  intros Hin. apply Hx. apply in_map_iff in Hin as (y & Ey & Hy).
  apply in_map_iff. exists y. split; [rewrite Ey; reflexivity|exact Hy].
Qed.

(** X20.  The index holds no act twice: the entries that [discoverActs] returns
    have pairwise distinct keys and so pairwise distinct pairs of year
    and number; they are entries of the pages read, in the order in which
    they were read. *)
Theorem discoverActs_no_duplicates (xmlParse : jsstring -> jsval)
    (fetchAtomFeed : Z -> FetchResult) :
  NoDup (map entryKey (discoverActs xmlParse fetchAtomFeed))
  /\ NoDup (map (fun e => (entry_year e, entry_number e))
                (discoverActs xmlParse fetchAtomFeed))
  /\ sublist (discoverActs xmlParse fetchAtomFeed)
             (fst (discoverPages xmlParse fetchAtomFeed 1000 1 [])).
Proof.
  unfold discoverActs.
  destruct (dedup_spec (fst (discoverPages xmlParse fetchAtomFeed 1000 1 [])) [] [])
    as (added & -> & Hs & Hn & _ & _).
  cbn [app]. split; [exact Hn|]. split; [|exact Hs].
  apply (@NoDup_map_factor _ _ _ (fun e => (entry_year e, entry_number e))
           (fun p => numberToString (fst p) ++ str "-" ++ numberToString (snd p))).
  exact Hn.
Qed.

Lemma uintChars_digits (u : Decimal.uint) : forallb isDigit (uintChars u) = true.
Proof. induction u; cbn [uintChars forallb]; try rewrite IHu; reflexivity. Qed.

Lemma uintChars_inj (u u' : Decimal.uint) : uintChars u = uintChars u' -> u = u'.
Proof.
  revert u'. induction u; destruct u'; cbn [uintChars]; intros H;
    try discriminate; try reflexivity;
    injection H as H; f_equal; apply IHu; exact H.
Qed.

Lemma numberToString_nonneg (y : Z) :
  (0 <= y)%Z -> numberToString (Num y) = uintChars (N.to_uint (Z.to_N y)).
Proof. intros H. destruct y; [reflexivity|reflexivity|lia]. Qed.

(** The keys of two entries with years and numbers that are not negative
    agree only when the years and the numbers do. *)
Lemma entryKey_inj (e e' : ActIndexEntry) (y n y' n' : Z) :
  entry_year e = Num y -> entry_number e = Num n ->
  entry_year e' = Num y' -> entry_number e' = Num n' ->
  (0 <= y)%Z -> (0 <= n)%Z -> (0 <= y')%Z -> (0 <= n')%Z ->
  entryKey e = entryKey e' ->
  entry_year e = entry_year e' /\ entry_number e = entry_number e'.
Proof.
  intros Ey En Ey' En' Hy Hn Hy' Hn'. unfold entryKey.
  rewrite Ey, En, Ey', En', !numberToString_nonneg by assumption.
  cbn [str map list_ascii_of_string app]. intros H.
  apply digit_run_unique in H as [H1 H2];
    try apply uintChars_digits; try reflexivity.
  apply uintChars_inj, DecimalN.Unsigned.to_uint_inj in H1.
  apply uintChars_inj, DecimalN.Unsigned.to_uint_inj in H2.
  split; f_equal; lia.
Qed.

Lemma discoverPages_entries (xmlParse : jsstring -> jsval)
    (fetchAtomFeed : Z -> FetchResult) (P : ActIndexEntry -> Prop) :
  (forall xml, Forall P (entries (parseAtomFeed xmlParse xml))) ->
  forall fuel page acc,
  Forall P acc -> Forall P (fst (discoverPages xmlParse fetchAtomFeed fuel page acc)).
Proof.
  intros HP. induction fuel as [|fuel IH]; intros page acc Hacc; cbn [discoverPages].
  - exact Hacc.
  - destruct (negb (fetch_status (fetchAtomFeed page) =? 200)%Z); [exact Hacc|].
    assert (H' : Forall P (acc ++ entries (parseAtomFeed xmlParse
                                             (fetch_body (fetchAtomFeed page)))))
      by (apply Forall_app; split; [exact Hacc|apply HP]).
    destruct (1000 <? page + 1)%Z; [exact H'|].
    destruct (hasNextPage _); [apply IH; exact H'|exact H'].
Qed.

(** X21.  No act of the pages read is missing from the index: for every entry
    read there is an entry of the index with the same year and number. *)
Theorem discoverActs_covers (xmlParse : jsstring -> jsval)
    (fetchAtomFeed : Z -> FetchResult) (e : ActIndexEntry) :
  In e (fst (discoverPages xmlParse fetchAtomFeed 1000 1 [])) ->
  exists e', In e' (discoverActs xmlParse fetchAtomFeed)
             /\ entry_year e' = entry_year e /\ entry_number e' = entry_number e.
Proof.
  intros He. unfold discoverActs.
  pose proof (@discoverPages_entries xmlParse fetchAtomFeed _
                (parseAtomFeed_entries_Forall xmlParse) 1000 1%Z []
                (Forall_nil _)) as WF.
  destruct (dedup_spec (fst (discoverPages xmlParse fetchAtomFeed 1000 1 [])) [] [])
    as (added & -> & Hs & _ & _ & Hcov).
  cbn [app]. destruct (Hcov e He) as [[]|Hk].
  apply in_map_iff in Hk as (e' & Ek & He'). exists e'. split; [exact He'|].
  assert (In' : In e' (fst (discoverPages xmlParse fetchAtomFeed 1000 1 []))).
  { clear - Hs He'. induction Hs as [|x l1 l2 _ IH|x l1 l2 _ IH].
    - contradiction.
    - destruct He' as [<-|H]; [left; reflexivity|right; apply IH; exact H].
    - right. apply IH. exact He'. }
  rewrite Forall_forall in WF.
  destruct (WF e He) as ((y & Ey & Hy) & (n & En & Hn) & _).
  destruct (WF e' In') as ((y' & Ey' & Hy') & (n' & En' & Hn') & _).
  apply (@entryKey_inj e' e y' n' y n); try assumption; lia.
Qed.

Lemma discoverActs_covers_witness :
  let e := {| entry_title := str "Data Protection Act 2018";
              entry_year := Num 2018; entry_number := Num 12;
              entry_url := str "https://www.legislation.gov.uk/ukpga/2018/12";
              entry_updated := str "2018-05-23" |} in
  In e (fst (discoverPages (fun _ => oneEntryFeed) onePageFeed 1000 1 []))
  /\ exists e', In e' (discoverActs (fun _ => oneEntryFeed) onePageFeed)
                /\ entry_year e' = entry_year e /\ entry_number e' = entry_number e.
Proof.
  cbv zeta.
  assert (H : In {| entry_title := str "Data Protection Act 2018";
                    entry_year := Num 2018; entry_number := Num 12;
                    entry_url := str "https://www.legislation.gov.uk/ukpga/2018/12";
                    entry_updated := str "2018-05-23" |}
                (fst (discoverPages (fun _ => oneEntryFeed) onePageFeed 1000 1 [])))
    by (vm_compute; left; reflexivity).
  split; [exact H|].
  exact (@discoverActs_covers (fun _ => oneEntryFeed) onePageFeed _ H).
Defined.

(** X22.  Which pages the discovery reads: the pages 1 to k for some k up to
    1000, each served with status 200 and each but the last reporting a
    next page, and it stops because 1000 pages were read, or page k + 1
    is not served with status 200, or page k reports no next page (as a
    page without entries does).  The entries gathered are those of these
    pages in order. *)
Theorem discoverPages_reads_prefix (xmlParse : jsstring -> jsval)
    (fetchAtomFeed : Z -> FetchResult) :
  exists k : nat,
    k <= 1000
    /\ fst (discoverPages xmlParse fetchAtomFeed 1000 1 [])
       = flat_map (pageEntries xmlParse fetchAtomFeed) (map Z.of_nat (seq 1 k))
    /\ (forall i, 1 <= i <= k -> fetch_status (fetchAtomFeed (Z.of_nat i)) = 200%Z)
    /\ (forall i, 1 <= i < k ->
          pageHasNext xmlParse fetchAtomFeed (Z.of_nat i) = true)
    /\ (k = 1000
        \/ fetch_status (fetchAtomFeed (Z.of_nat (S k))) <> 200%Z
        \/ (1 <= k /\ pageHasNext xmlParse fetchAtomFeed (Z.of_nat k) = false)).
Proof.
  assert (G : forall fuel p acc,
            1 <= p -> p + fuel = 1001 ->
            exists k,
              k <= fuel
              /\ fst (discoverPages xmlParse fetchAtomFeed fuel (Z.of_nat p) acc)
                 = acc ++ flat_map (pageEntries xmlParse fetchAtomFeed)
                            (map Z.of_nat (seq p k))
              /\ (forall i, p <= i < p + k ->
                    fetch_status (fetchAtomFeed (Z.of_nat i)) = 200%Z)
              /\ (forall i, p <= i -> S i < p + k ->
                    pageHasNext xmlParse fetchAtomFeed (Z.of_nat i) = true)
              /\ (p + k = 1001
                  \/ fetch_status (fetchAtomFeed (Z.of_nat (p + k))) <> 200%Z
                  \/ (1 <= k
                      /\ exists j, S j = p + k
                           /\ pageHasNext xmlParse fetchAtomFeed (Z.of_nat j) = false))).
  { induction fuel as [|fuel IH]; intros p acc Hp Hsum.
    - exists 0. cbn. rewrite app_nil_r. repeat split; try lia.
    - cbn [discoverPages].
      destruct (Z.eqb_spec (fetch_status (fetchAtomFeed (Z.of_nat p))) 200) as [E|E];
        cbn [negb].
      + replace (Z.of_nat p + 1)%Z with (Z.of_nat (S p)) by lia.
        destruct (Z.ltb_spec 1000 (Z.of_nat (S p))) as [L|L].
        * exists 1. cbn [seq map flat_map fst]. rewrite app_nil_r.
          split; [lia|]. split; [reflexivity|].
          split; [intros i Hi; replace i with p by lia; exact E|].
          split; [intros i H1 H2; lia|]. left. lia.
        * destruct (hasNextPage
                      (parseAtomFeed xmlParse (fetch_body (fetchAtomFeed (Z.of_nat p)))))
            eqn:N.
          -- destruct (IH (S p)
                         (acc ++ entries (parseAtomFeed xmlParse
                                            (fetch_body (fetchAtomFeed (Z.of_nat p))))))
               as (k & Hk & Hr & Hst & Hnx & Hend); [lia|lia|].
             exists (S k). split; [lia|]. split; [|split; [|split]].
             ++ rewrite Hr. cbn [seq map flat_map]. rewrite <- app_assoc. reflexivity.
             ++ intros i Hi. destruct (Nat.eq_dec i p) as [->|Ne]; [exact E|].
                apply Hst. lia.
             ++ intros i H1 H2. destruct (Nat.eq_dec i p) as [->|Ne]; [exact N|].
                apply Hnx; lia.
             ++ destruct Hend as [H|[H|(H1 & j & Hj & H)]].
                ** left. lia.
                ** right. left. replace (p + S k) with (S p + k) by lia. exact H.
                ** right. right. split; [lia|]. exists j. split; [lia|exact H].
          -- exists 1. cbn [seq map flat_map fst]. rewrite app_nil_r.
             split; [lia|]. split; [reflexivity|].
             split; [intros i Hi; replace i with p by lia; exact E|].
             split; [intros i H1 H2; lia|].
             right. right. split; [lia|]. exists p. split; [lia|exact N].
      + exists 0. cbn [seq map flat_map fst]. rewrite app_nil_r, Nat.add_0_r.
        split; [lia|]. split; [reflexivity|].
        split; [intros i Hi; lia|]. split; [intros i H1 H2; lia|].
        right. left. exact E. }
  destruct (G 1000 1 [] (le_n _) eq_refl) as (k & Hk & Hr & Hst & Hnx & Hend).
  exists k. split; [exact Hk|]. split; [exact Hr|].
  split; [intros i Hi; apply Hst; lia|].
  split; [intros i Hi; apply Hnx; lia|].
  destruct Hend as [H|[H|(H1 & j & Hj & H)]].
  - left. lia.
  - right. left. exact H.
  - right. right. split; [exact H1|]. replace k with j by lia. exact H.
Qed.

(** The bound of 1000 turns is that of the loop itself: more fuel does
    not change what the loop returns. *)
Lemma discoverPages_fuel (xmlParse : jsstring -> jsval)
    (fetchAtomFeed : Z -> FetchResult) (extra : nat) :
  forall fuel page allEntries,
    (page <= 1000)%Z -> (1001 <= page + Z.of_nat fuel)%Z ->
    discoverPages xmlParse fetchAtomFeed (fuel + extra) page allEntries
    = discoverPages xmlParse fetchAtomFeed fuel page allEntries.
Proof.
  induction fuel as [|fuel IH]; intros page allEntries Hp H.
  - cbn in H. lia.
  - cbn [Nat.add discoverPages].
    destruct (negb (fetch_status (fetchAtomFeed page) =? 200)%Z); [reflexivity|].
    destruct (Z.ltb_spec 1000 (page + 1)); [reflexivity|].
    destruct (hasNextPage _); [|reflexivity].
    apply IH; lia.
Qed.

Lemma discoverActs_fuel (xmlParse : jsstring -> jsval)
    (fetchAtomFeed : Z -> FetchResult) (extra : nat) :
  discoverPages xmlParse fetchAtomFeed (1000 + extra) 1 []
  = discoverPages xmlParse fetchAtomFeed 1000 1 [].
Proof. apply discoverPages_fuel; cbn; lia. Qed.
